(** * OM-Lite clause engine: a shallow embedding and its properties

    The development follows the TypeScript sources:

    - [src/core/database.ts]   -> module [Database]   (schema, CHECK
      constraints, primary and foreign keys, the metadata table);
    - [src/core/clauses.ts]    -> module [ClauseStore] (create, get, update,
      invalidate, reinforce, processNewClause, findDuplicate), module
      [ConflictResolver] (getPendingConflicts, resolveConflict,
      resolveAllConflicts) and module [ClauseSearch] (search);
    - [src/core/decay.ts]      -> module [DecayRunner] (run, reinforce,
      adjustConfidence, archiveClause, applyDecay);
    - [src/core/retrieval.ts]  -> module [Retriever]   (retrieve,
      keywordSearch, prepareFtsQuery, mergeAndScore, logAccess).

    Modelling conventions.

    - A JavaScript [number] holding a confidence, a rate, a weight or a
      score is an exact rational ([Q]); counters are [nat].  Rounding of
      IEEE doubles is not modelled: a computed number within rounding
      distance of a threshold may fall on the other side of it in the
      code.
    - A string is the list of its bytes; case folding and [\s] are those
      of ASCII text.
    - A timestamp (ISO string, [Date.now()], SQLite [datetime('now')]) is
      the number of milliseconds since the epoch ([Z]).  Every operation
      receives the clock reading [now] as an argument.
    - [uuidv7()] draws from a counter kept in the database state.
    - The SQLite database is a record of tables; a table is the list of its
      rows in rowid order.  A statement that violates a CHECK, PRIMARY KEY
      or FOREIGN KEY constraint raises and leaves the tables as they were
      before the statement; effects of earlier statements persist (the
      sources open no transaction).
    - The FTS5 index and the embedding provider are collaborators outside
      the repository; they are section variables (oracles).  Either may
      raise: the index on a MATCH expression it rejects as malformed, the
      provider on any call.
    - A value of a clause's [metadata] object is kept as text; where the
      code manipulates such a value ([metadata.supersedes]) the text is the
      value's JSON form as [JSON.stringify] writes it. *)

From Stdlib Require Import ZArith QArith Qminmax Lia Lqa List Bool Ascii
  String Sorted.
From Stdlib Require DecimalString DecimalPos.
From stdpp Require Import base gmap strings.
Import ListNotations.

Open Scope string_scope.

(** ** JavaScript string helpers *)

Module Js.

(** [\s] of a JavaScript regular expression, restricted to ASCII. *)
Definition is_space (a : ascii) : bool :=
  existsb (Ascii.eqb a) [" "; "009"; "010"; "011"; "012"; "013"]%char.

Definition lower_ascii (a : ascii) : ascii :=
  let n := N_of_ascii a in
  if ((65 <=? n) && (n <=? 90))%N then ascii_of_N (n + 32) else a.

(** [s.toLowerCase()] on ASCII text: a string is the list of its bytes,
    and only the letters [A] to [Z] are folded.  On text with a byte
    above 127 JavaScript folds more (every cased letter of Unicode); the
    properties that depend on a comparison of folded texts are stated for
    ASCII text ([is_ascii] below). *)
Fixpoint toLowerCase (s : string) : string :=
  match s with
  | EmptyString => EmptyString
  | String a s' => String (lower_ascii a) (toLowerCase s')
  end.

(** [s.split(/\s+/)]: a leading or trailing blank run yields an empty
    first or last piece, as in JavaScript. *)
Fixpoint split_ws_aux (s cur : string) (in_ws : bool) : list string :=
  match s with
  | EmptyString => [cur]
  | String a s' =>
      if is_space a
      then (if in_ws then split_ws_aux s' "" true
            else cur :: split_ws_aux s' "" true)
      else split_ws_aux s' (cur ++ String a "") false
  end.

Definition split_ws (s : string) : list string := split_ws_aux s "" false.

(** [s.split(c)] for a one-character separator. *)
Fixpoint split_char_aux (c : ascii) (s cur : string) : list string :=
  match s with
  | EmptyString => [cur]
  | String a s' =>
      if Ascii.eqb a c then cur :: split_char_aux c s' ""
      else split_char_aux c s' (cur ++ String a "")
  end.

Definition split_char (c : ascii) (s : string) : list string :=
  split_char_aux c s "".

Fixpoint trimStart (s : string) : string :=
  match s with
  | String a s' => if is_space a then trimStart s' else s
  | EmptyString => EmptyString
  end.

Fixpoint rev_string_aux (s acc : string) : string :=
  match s with
  | EmptyString => acc
  | String a s' => rev_string_aux s' (String a acc)
  end.

Definition rev_string (s : string) : string := rev_string_aux s "".

(** [s.trim()]. *)
Definition trim (s : string) : string :=
  rev_string (trimStart (rev_string (trimStart s))).

(** [s.replace(/[...]/g, ' ')] for a character class given as a test. *)
Fixpoint replace_class (cls : ascii -> bool) (by_ : ascii) (s : string)
  : string :=
  match s with
  | EmptyString => EmptyString
  | String a s' =>
      String (if cls a then by_ else a) (replace_class cls by_ s')
  end.

(** [s.replace(/\s+/g, ' ')]. *)
Fixpoint collapse_ws_aux (s : string) (in_ws : bool) : string :=
  match s with
  | EmptyString => EmptyString
  | String a s' =>
      if is_space a
      then (if in_ws then collapse_ws_aux s' true
            else String " "%char (collapse_ws_aux s' true))
      else String a (collapse_ws_aux s' false)
  end.

Definition collapse_ws (s : string) : string := collapse_ws_aux s false.

(** [parts.join(sep)]. *)
Fixpoint join (sep : string) (parts : list string) : string :=
  match parts with
  | [] => ""
  | [p] => p
  | p :: ps => p ++ sep ++ join sep ps
  end.

Fixpoint prefixb (p s : string) : bool :=
  match p, s with
  | EmptyString, _ => true
  | String a p', String b s' => Ascii.eqb a b && prefixb p' s'
  | String _ _, EmptyString => false
  end.

(** [s.includes(p)]. *)
Fixpoint includes (s p : string) : bool :=
  prefixb p s ||
  match s with
  | EmptyString => false
  | String _ s' => includes s' p
  end.

(** [s.slice(0, n)]. *)
Fixpoint slice0 (n : nat) (s : string) : string :=
  match n, s with
  | S n', String a s' => String a (slice0 n' s')
  | _, _ => EmptyString
  end.

(** [Math.max], [Math.min] on numbers. *)
Definition Math_max (a b : Q) : Q := Qmax a b.
Definition Math_min (a b : Q) : Q := Qmin a b.

(** [x < y], [x <= y] on numbers, as booleans. *)
Definition ltb (x y : Q) : bool := negb (Qle_bool y x).
Definition leb (x y : Q) : bool := Qle_bool x y.

(** Partial sums of [2 * artanh y = 2 (y + y^3/3 + y^5/5 + ...)]. *)
Fixpoint artanh_series (terms : nat) (k : positive) (ypow ysq : Q) : Q :=
  match terms with
  | O => 0%Q
  | S t => (ypow / inject_Z (Z.pos k)
            + artanh_series t (k + 2)%positive (ypow * ysq) ysq)%Q
  end.

(** [Math.log(n)] for a positive integer [n], as the rational partial sum
    (twelve terms) of [ln n = 2 artanh ((n-1)/(n+1))].  It is exactly [0]
    at [n = 1] and never negative for [n >= 1]; for larger [n] it is a
    lower bound that falls short of the logarithm as [n] grows.  The
    properties rely on the first two facts only: none of them states the
    value of a confidence computed with a logarithm other than [ln 1]. *)
Definition Math_log (n : nat) : Q :=
  let y := ((inject_Z (Z.of_nat n) - 1) / (inject_Z (Z.of_nat n) + 1))%Q in
  (2 * artanh_series 12 1%positive y (y * y))%Q.

(** Every character of [s] passes [p]. *)
Fixpoint string_forall (p : ascii -> bool) (s : string) : bool :=
  match s with
  | EmptyString => true
  | String a s' => p a && string_forall p s'
  end.

(** [s] is ASCII text: every byte is below 128. *)
Definition is_ascii (s : string) : bool :=
  string_forall (fun a => (N_of_ascii a <? 128)%N) s.

End Js.

(** ** Core types ([src/core/types.ts]) *)

Definition time := Z.
Bind Scope Z_scope with time.
Definition uuid := nat.

Inductive ClauseType :=
  | fact | preference | habit | skill | relationship | intention
  | context | correction | skill_success | skill_failure | skill_preference.

Definition ClauseType_eqb (a b : ClauseType) : bool :=
  match a, b with
  | fact, fact | preference, preference | habit, habit | skill, skill
  | relationship, relationship | intention, intention | context, context
  | correction, correction | skill_success, skill_success
  | skill_failure, skill_failure | skill_preference, skill_preference => true
  | _, _ => false
  end.

(** A row of the [clauses] table, which is also a [Clause]: [rowToClause]
    only decodes the JSON columns [tags] and [metadata], kept decoded here
    (metadata values as their JSON text). *)
Record Clause := mkClause {
  id : uuid;
  type : ClauseType;
  subject : string;
  predicate : string;
  object : string;
  natural_form : string;
  valid_from : time;
  valid_to : option time;
  recorded_at : time;
  confidence : Q;
  decay_rate : Q;
  reinforcement_count : nat;
  source_id : string;
  extraction_method : string;
  last_accessed : time;
  access_count : nat;
  tags : list string;
  metadata : gmap string string;
}.

Definition ClauseRow := Clause.
Definition rowToClause (row : ClauseRow) : Clause := row.

(** [ClauseInput], with the two optional provenance fields the callers
    attach ([source_id], [extraction_method]). *)
Record ClauseInput := mkInput {
  in_type : ClauseType;
  in_subject : string;
  in_predicate : string;
  in_object : string;
  in_natural_form : string;
  in_confidence : option Q;
  in_decay_rate : option Q;
  in_valid_from : option time;
  in_tags : option (list string);
  in_metadata : option (gmap string string);
  in_source_id : option string;
  in_extraction_method : option string;
}.

Inductive ConflictType := contradiction | supersession | ambiguity.
Inductive ConflictStatus := pending | auto_resolved | user_resolved | ignored.

Record Conflict := mkConflict {
  conflict_id : uuid;
  clause_a_id : uuid;
  clause_b_id : uuid;
  conflict_type : ConflictType;
  description : string;
  status : ConflictStatus;
  resolution : option string;
  resolved_at : option time;
  detected_at : time;
}.

Record DecayLogEntry := mkDecayLog {
  log_id : uuid;
  clause_id : uuid;
  previous_confidence : Q;
  new_confidence : Q;
  reason : string;
  occurred_at : time;
}.

Inductive AccessType := retrieval | injection | reinforcement.

Record AccessLogEntry := mkAccessLog {
  access_id : uuid;
  access_clause_id : uuid;
  access_type : AccessType;
  access_context : string;
  accessed_at : time;
}.

(** Field updates on a clause row (the SET lists of the UPDATE statements). *)
Definition set_valid_to (v : option time) (r : Clause) : Clause :=
  mkClause (id r) (type r) (subject r) (predicate r) (object r)
    (natural_form r) (valid_from r) v (recorded_at r) (confidence r)
    (decay_rate r) (reinforcement_count r) (source_id r)
    (extraction_method r) (last_accessed r) (access_count r) (tags r)
    (metadata r).

Definition set_confidence (c : Q) (r : Clause) : Clause :=
  mkClause (id r) (type r) (subject r) (predicate r) (object r)
    (natural_form r) (valid_from r) (valid_to r) (recorded_at r) c
    (decay_rate r) (reinforcement_count r) (source_id r)
    (extraction_method r) (last_accessed r) (access_count r) (tags r)
    (metadata r).

Definition set_decay_rate (d : Q) (r : Clause) : Clause :=
  mkClause (id r) (type r) (subject r) (predicate r) (object r)
    (natural_form r) (valid_from r) (valid_to r) (recorded_at r)
    (confidence r) d (reinforcement_count r) (source_id r)
    (extraction_method r) (last_accessed r) (access_count r) (tags r)
    (metadata r).

Definition set_natural_form (s : string) (r : Clause) : Clause :=
  mkClause (id r) (type r) (subject r) (predicate r) (object r)
    s (valid_from r) (valid_to r) (recorded_at r)
    (confidence r) (decay_rate r) (reinforcement_count r) (source_id r)
    (extraction_method r) (last_accessed r) (access_count r) (tags r)
    (metadata r).

Definition set_tags (t : list string) (r : Clause) : Clause :=
  mkClause (id r) (type r) (subject r) (predicate r) (object r)
    (natural_form r) (valid_from r) (valid_to r) (recorded_at r)
    (confidence r) (decay_rate r) (reinforcement_count r) (source_id r)
    (extraction_method r) (last_accessed r) (access_count r) t
    (metadata r).

Definition set_metadata (m : gmap string string) (r : Clause) : Clause :=
  mkClause (id r) (type r) (subject r) (predicate r) (object r)
    (natural_form r) (valid_from r) (valid_to r) (recorded_at r)
    (confidence r) (decay_rate r) (reinforcement_count r) (source_id r)
    (extraction_method r) (last_accessed r) (access_count r) (tags r) m.

Definition bump_reinforcement (r : Clause) : Clause :=
  mkClause (id r) (type r) (subject r) (predicate r) (object r)
    (natural_form r) (valid_from r) (valid_to r) (recorded_at r)
    (confidence r) (decay_rate r) (S (reinforcement_count r)) (source_id r)
    (extraction_method r) (last_accessed r) (access_count r) (tags r)
    (metadata r).

(** [SET last_accessed = datetime('now'), access_count = access_count + 1]. *)
Definition touch (now : time) (r : Clause) : Clause :=
  mkClause (id r) (type r) (subject r) (predicate r) (object r)
    (natural_form r) (valid_from r) (valid_to r) (recorded_at r)
    (confidence r) (decay_rate r) (reinforcement_count r) (source_id r)
    (extraction_method r) now (S (access_count r)) (tags r) (metadata r).

(** [valid_to IS NULL]. *)
Definition is_active (r : Clause) : bool :=
  match valid_to r with None => true | Some _ => false end.

(** ** The database ([src/core/database.ts]) *)

Module Database.

Record DB := mkDB {
  clauses : list ClauseRow;
  conflicts : list Conflict;
  decay_log : list DecayLogEntry;
  access_log : list AccessLogEntry;
  system_metadata : gmap string string;
  uuid_counter : nat;
}.

(** The schema's initial content: empty tables and the metadata rows that
    [INSERT OR IGNORE] accepts (the two [NULL] values violate [NOT NULL]
    and are skipped). *)
Definition init : DB :=
  mkDB [] [] [] []
    (<["schema_version" := "1"]>
       (<["total_clauses_extracted" := "0"]>
          (<["total_conflicts_detected" := "0"]> ∅)))
    0.

Inductive Exn :=
  | SqliteConstraint (msg : string)
  | SqliteError (msg : string)
  | JsError (msg : string).

(** A computation over the database: the state is threaded, and it
    survives an exception. *)
Definition Db (A : Type) : Type := DB -> DB * (Exn + A).

Definition ret {A} (a : A) : Db A := fun db => (db, inr a).

Definition throw {A} (e : Exn) : Db A := fun db => (db, inl e).

Definition bind {A B} (m : Db A) (k : A -> Db B) : Db B :=
  fun db =>
    match m db with
    | (db', inr a) => k a db'
    | (db', inl e) => (db', inl e)
    end.

Declare Scope db_scope.
Delimit Scope db_scope with db.
Notation "x <- m ;; k" := (bind m (fun x => k))
  (at level 100, m at next level, right associativity) : db_scope.
Notation "m ;;; k" := (bind m (fun _ => k))
  (at level 100, right associativity) : db_scope.
Open Scope db_scope.

(** [for (const x of xs) { body }]. *)
Fixpoint for_each {A} (xs : list A) (body : A -> Db unit) : Db unit :=
  match xs with
  | [] => ret tt
  | x :: xs' => body x ;;; for_each xs' body
  end.

(** [uuidv7()]. *)
Definition uuidv7 : Db uuid :=
  fun db =>
    (mkDB (clauses db) (conflicts db) (decay_log db) (access_log db)
       (system_metadata db) (S (uuid_counter db)),
     inr (uuid_counter db)).

(** [CHECK (confidence >= 0 AND confidence <= 1)] and
    [CHECK (decay_rate >= 0)]; the CHECK on [type] holds by typing. *)
Definition row_check (r : ClauseRow) : bool :=
  Js.leb 0 (confidence r) && Js.leb (confidence r) 1
  && Js.leb 0 (decay_rate r).

Definition set_clauses (rows : list ClauseRow) (db : DB) : DB :=
  mkDB rows (conflicts db) (decay_log db) (access_log db)
    (system_metadata db) (uuid_counter db).

(** [SELECT * FROM clauses WHERE ...] (rowid order). *)
Definition select_clauses (where_ : ClauseRow -> bool) : Db (list ClauseRow) :=
  fun db => (db, inr (List.filter where_ (clauses db))).

(** [db.get('SELECT * FROM clauses WHERE id = ?')]. *)
Definition get_clause (i : uuid) : Db (option ClauseRow) :=
  fun db => (db, inr (List.find (fun r => Nat.eqb (id r) i) (clauses db))).

(** [INSERT INTO clauses ...]. *)
Definition insert_clause (r : ClauseRow) : Db unit :=
  fun db =>
    if row_check r
    then (set_clauses (clauses db ++ [r]) db, inr tt)
    else (db, inl (SqliteConstraint "CHECK constraint failed: clauses")).

(** The rows of a table after an accepted [UPDATE ... SET ... WHERE ...]. *)
Definition updated (where_ : ClauseRow -> bool) (set_ : ClauseRow -> ClauseRow)
    (rows : list ClauseRow) : list ClauseRow :=
  map (fun r => if where_ r then set_ r else r) rows.

(** [UPDATE clauses SET ... WHERE ...]: all selected rows are rewritten,
    or none if a rewritten row violates a CHECK. *)
Definition update_clauses (where_ : ClauseRow -> bool)
    (set_ : ClauseRow -> ClauseRow) : Db unit :=
  fun db =>
    if forallb (fun r => negb (where_ r) || row_check (set_ r)) (clauses db)
    then (set_clauses (updated where_ set_ (clauses db)) db, inr tt)
    else (db, inl (SqliteConstraint "CHECK constraint failed: clauses")).

Definition has_clause (i : uuid) (db : DB) : bool :=
  existsb (fun r => Nat.eqb (id r) i) (clauses db).

Definition fk_error {A} : DB -> DB * (Exn + A) :=
  fun db => (db, inl (SqliteConstraint "FOREIGN KEY constraint failed")).

(** [INSERT INTO conflicts ...]: both clause ids are foreign keys. *)
Definition insert_conflict (c : Conflict) : Db unit :=
  fun db =>
    if has_clause (clause_a_id c) db && has_clause (clause_b_id c) db
    then (mkDB (clauses db) (conflicts db ++ [c]) (decay_log db)
            (access_log db) (system_metadata db) (uuid_counter db), inr tt)
    else fk_error db.

(** [INSERT INTO decay_log ...]. *)
Definition insert_decay_log (e : DecayLogEntry) : Db unit :=
  fun db =>
    if has_clause (clause_id e) db
    then (mkDB (clauses db) (conflicts db) (decay_log db ++ [e])
            (access_log db) (system_metadata db) (uuid_counter db), inr tt)
    else fk_error db.

(** [INSERT INTO access_log ...]. *)
Definition insert_access_log (e : AccessLogEntry) : Db unit :=
  fun db =>
    if has_clause (access_clause_id e) db
    then (mkDB (clauses db) (conflicts db) (decay_log db)
            (access_log db ++ [e]) (system_metadata db) (uuid_counter db),
          inr tt)
    else fk_error db.

(** [getMetadata(key)]. *)
Definition getMetadata (key : string) : Db (option string) :=
  fun db => (db, inr (system_metadata db !! key)).

(** [setMetadata(key, value)]: [INSERT OR REPLACE]. *)
Definition setMetadata (key value : string) : Db unit :=
  fun db =>
    (mkDB (clauses db) (conflicts db) (decay_log db) (access_log db)
       (<[key := value]> (system_metadata db)) (uuid_counter db), inr tt).

(** [parseInt(s, 10)]: blanks, a sign, then the longest run of digits;
    [None] is [NaN].  The result is the integer the digits denote, which
    is the JavaScript number as long as it stays below 2^53. *)
Definition digit_of (a : ascii) : option Z :=
  let n := N_of_ascii a in
  if ((48 <=? n) && (n <=? 57))%N then Some (Z.of_N (n - 48)) else None.

Fixpoint parse_digits (s : string) (acc : option Z) : option Z :=
  match s with
  | String a s' =>
      match digit_of a with
      | Some d =>
          parse_digits s'
            (Some (10 * match acc with Some z => z | None => 0 end + d)%Z)
      | None => acc
      end
  | EmptyString => acc
  end.

Definition parseInt (s : string) : option Z :=
  match Js.trimStart s with
  | String "-"%char s' => option_map Z.opp (parse_digits s' None)
  | String "+"%char s' => parse_digits s' None
  | s' => parse_digits s' None
  end.

(** [String(n)] for an integer or [NaN]: the decimal digits, as
    JavaScript prints an integer below 10^21. *)
Definition String_of_number (n : option Z) : string :=
  match n with
  | Some z => DecimalString.NilZero.string_of_int (Z.to_int z)
  | None => "NaN"
  end.

(** The counter bump shared by [create] and [createConflict]:
    [setMetadata(key, String(parseInt(getMetadata(key) ?? '0', 10) + 1))]. *)
Definition bump_counter (key : string) : Db unit :=
  cur <- getMetadata key ;;
  let current := parseInt (match cur with Some s => s | None => "0" end) in
  setMetadata key (String_of_number (option_map (fun z => (z + 1)%Z) current)).

(** [try { m } catch { handler }]: the state reached when [m] raised is
    kept. *)
Definition try_catch {A} (m : Db A) (handler : Exn -> Db A) : Db A :=
  fun db =>
    match m db with
    | (db', inr a) => (db', inr a)
    | (db', inl e) => handler e db'
    end.

(** [db.get('SELECT * FROM conflicts WHERE id = ?')]. *)
Definition get_conflict (i : uuid) : Db (option Conflict) :=
  fun db =>
    (db, inr (List.find (fun c => Nat.eqb (conflict_id c) i) (conflicts db))).

(** [UPDATE conflicts SET ... WHERE ...] for a SET list that leaves the
    two clause ids alone. *)
Definition update_conflicts (where_ : Conflict -> bool)
    (set_ : Conflict -> Conflict) : Db unit :=
  fun db =>
    (mkDB (clauses db)
       (map (fun c => if where_ c then set_ c else c) (conflicts db))
       (decay_log db) (access_log db) (system_metadata db) (uuid_counter db),
     inr tt).

(** The invariants the schema maintains on the [clauses] table: the CHECK
    constraints, the primary key, and ids drawn from the uuid supply. *)
Definition checks_hold (db : DB) : Prop :=
  Forall (fun r => row_check r = true) (clauses db).

Record wf (db : DB) : Prop := mkWf {
  wf_checks : checks_hold db;
  wf_primary_key : List.NoDup (map id (clauses db));
  wf_fresh : Forall (fun r => id r < uuid_counter db) (clauses db);
}.

(** *** Vocabulary for the properties *)

(** [m] run on [db] returns normally, in a state and with a value that
    satisfy [post]. *)
Definition succeeds {A} (m : Db A) (db : DB) (post : DB -> A -> Prop) : Prop :=
  exists db' a, m db = (db', inr a) /\ post db' a.

(** [P] survives [m], however [m] ends. *)
Definition preserves (P : DB -> Prop) {A} (m : Db A) : Prop :=
  forall db, P db -> P (fst (m db)).

(** The number a decimal digit string denotes after the digits read so
    far amount to [acc]. *)
Fixpoint uint_value (d : Decimal.uint) (acc : Z) : Z :=
  match d with
  | Decimal.Nil => acc
  | Decimal.D0 l => uint_value l (10 * acc + 0)
  | Decimal.D1 l => uint_value l (10 * acc + 1)
  | Decimal.D2 l => uint_value l (10 * acc + 2)
  | Decimal.D3 l => uint_value l (10 * acc + 3)
  | Decimal.D4 l => uint_value l (10 * acc + 4)
  | Decimal.D5 l => uint_value l (10 * acc + 5)
  | Decimal.D6 l => uint_value l (10 * acc + 6)
  | Decimal.D7 l => uint_value l (10 * acc + 7)
  | Decimal.D8 l => uint_value l (10 * acc + 8)
  | Decimal.D9 l => uint_value l (10 * acc + 9)
  end%Z.

(** The id supply has reached [n]. *)
Definition supply_from (n : nat) (db : DB) : Prop := n <= uuid_counter db.

(** The counter [total_clauses_extracted] reads as the number of clause
    rows. *)
Definition counts_match (db : DB) : Prop :=
  parseInt
    (match system_metadata db !! "total_clauses_extracted" with
     | Some s => s
     | None => "0"
     end)
  = Some (Z.of_nat (List.length (clauses db))).

End Database.

(** The FTS5 index over the clause rows, kept in step with the [clauses]
    table by the schema's triggers.  The index is SQLite's, not the
    repository's:
    - [fts_match rows expr r] tells, for the table content and a MATCH
      expression, whether row [r] matches and, if so, its [bm25] score;
    - [fts_rejects expr] tells that FTS5 refuses [expr] as malformed; the
      statement then raises ("fts5: syntax error near ...") instead of
      returning rows.
    An index is applied to its arguments like the function [fts_match]. *)
Record TextIndex := mkTextIndex {
  fts_match :> list ClauseRow -> string -> ClauseRow -> option Q;
  fts_rejects : string -> bool;
}.

(** The exception a MATCH on a malformed expression raises. *)
Definition fts_syntax_error : Database.Exn :=
  Database.SqliteError "fts5: syntax error".

(** ** The clause store ([src/core/clauses.ts]) *)

Module ClauseStore.
Import Database.

Definition SINGLETON_PREDICATES : list string :=
  ["lives_in"; "works_at"; "email_address"; "phone_number"; "uses_for_notes";
   "preferred_language"; "timezone"; "full_name"; "is_located_in";
   "home_address"; "primary_calendar"].

Definition MULTI_VALUE_PREDICATES : list string :=
  ["likes"; "dislikes"; "interested_in"; "skilled_at"; "knows";
   "speaks_language"; "has_hobby"; "member_of"; "integrates_with";
   "can_perform"].

Definition DEFAULT_DECAY_RATES (t : ClauseType) : Q :=
  match t with
  | fact => 0.0005
  | preference => 0.002
  | habit => 0.001
  | skill => 0.0002
  | relationship => 0.001
  | intention => 0.01
  | context => 0.05
  | correction => 0.001
  | skill_success => 0.002
  | skill_failure => 0.01
  | skill_preference => 0.002
  end%Q.

Inductive OnDuplicate := on_reinforce | on_skip | on_merge.

Record DeduplicationConfig := mkDedup {
  enabled : bool;
  similarityThreshold : Q;
  useContentHash : bool;
  useFuzzyMatch : bool;
  onDuplicate : OnDuplicate;
}.

Definition DEFAULT_DEDUP_CONFIG : DeduplicationConfig :=
  mkDedup true 0.85%Q true true on_reinforce.

(** [Array.prototype.includes] on a list of strings. *)
Definition includes_str (l : list string) (s : string) : bool :=
  existsb (String.eqb s) l.

(** [x ?? d]. *)
Definition orElse {A} (x : option A) (d : A) : A :=
  match x with Some a => a | None => d end.

Definition logDecay (clauseId : uuid) (previousConfidence newConfidence : Q)
    (reason_ : string) (now : time) : Db unit :=
  i <- uuidv7 ;;
  insert_decay_log
    (mkDecayLog i clauseId previousConfidence newConfidence reason_ now).

Definition logAccess (clauseId : uuid) (accessType : AccessType)
    (context_ : string) (now : time) : Db unit :=
  i <- uuidv7 ;;
  insert_access_log (mkAccessLog i clauseId accessType context_ now).

(** The object literal [const clause: Clause = {...}] of [create]. *)
Definition new_clause (input : ClauseInput) (now : time) (i : uuid) : Clause :=
  let decayRate :=
    orElse (in_decay_rate input) (DEFAULT_DECAY_RATES (in_type input)) in
  mkClause i (in_type input) (in_subject input) (in_predicate input)
    (in_object input) (in_natural_form input)
    (orElse (in_valid_from input) now) None now
    (orElse (in_confidence input) 0.8%Q) decayRate 0
    (orElse (in_source_id input) "manual")
    (orElse (in_extraction_method input) "manual")
    now 0 (orElse (in_tags input) []) (orElse (in_metadata input) ∅).

(** [create(input)]. *)
Definition create (input : ClauseInput) (now : time) : Db Clause :=
  i <- uuidv7 ;;
  let clause := new_clause input now i in
  insert_clause clause ;;;
  bump_counter "total_clauses_extracted" ;;;
  ret clause.

(** [get(id)]: the row as read, then the access bump. *)
Definition get (i : uuid) (now : time) : Db (option Clause) :=
  row <- get_clause i ;;
  match row with
  | None => ret None
  | Some row =>
      update_clauses (fun r => Nat.eqb (id r) i) (touch now) ;;;
      ret (Some (rowToClause row))
  end.

(** The fields [update] accepts out of a [Partial<Clause>]; a field is
    [Some] when it is [in updates]. *)
Record ClauseUpdates := mkUpdates {
  up_confidence : option Q;
  up_decay_rate : option Q;
  up_tags : option (list string);
  up_metadata : option (gmap string string);
  up_natural_form : option string;
}.

Definition no_updates (u : ClauseUpdates) : bool :=
  match up_confidence u, up_decay_rate u, up_tags u, up_metadata u,
        up_natural_form u with
  | None, None, None, None, None => true
  | _, _, _, _, _ => false
  end.

Definition apply_opt {A} (f : A -> Clause -> Clause) (x : option A)
    (r : Clause) : Clause :=
  match x with Some a => f a r | None => r end.

Definition apply_updates (u : ClauseUpdates) (r : Clause) : Clause :=
  apply_opt set_natural_form (up_natural_form u)
    (apply_opt set_metadata (up_metadata u)
       (apply_opt set_tags (up_tags u)
          (apply_opt set_decay_rate (up_decay_rate u)
             (apply_opt set_confidence (up_confidence u) r)))).

(** [update(id, updates)]. *)
Definition update (i : uuid) (updates : ClauseUpdates) (now : time)
  : Db (option Clause) :=
  existing <- get i now ;;
  match existing with
  | None => ret None
  | Some existing =>
      if no_updates updates then ret (Some existing)
      else
        update_clauses (fun r => Nat.eqb (id r) i) (apply_updates updates) ;;;
        get i now
  end.

(** The SET list of [invalidate]. *)
Definition invalidated_row (reason_ : option string) (now : time)
    (r : ClauseRow) : ClauseRow :=
  set_metadata
    (<["invalidation_reason" := orElse reason_ "invalidated"]> (metadata r))
    (set_valid_to (Some now) r).

(** [invalidate(id, reason)]. *)
Definition invalidate (i : uuid) (reason_ : option string) (now : time)
  : Db unit :=
  update_clauses (fun r => Nat.eqb (id r) i) (invalidated_row reason_ now).

(** The SET list of [reinforce]. *)
Definition reinforced_row (newConfidence : Q) (now : time) (r : ClauseRow)
  : ClauseRow :=
  touch now (bump_reinforcement (set_confidence newConfidence r)).

(** [reinforce(id, amount)]. *)
Definition reinforce (i : uuid) (amount : Q) (now : time) : Db unit :=
  clause <- get i now ;;
  match clause with
  | None => ret tt
  | Some clause =>
      let newConfidence := Js.Math_min 1 (confidence clause + amount)%Q in
      update_clauses (fun r => Nat.eqb (id r) i)
        (reinforced_row newConfidence now) ;;;
      logDecay i (confidence clause) newConfidence "reinforcement" now ;;;
      logAccess i reinforcement "successful_use" now
  end.

Inductive Relation := identical | rel_supersession | rel_contradiction | coexistent.

(** [analyzeRelation(old, input)]. *)
Definition analyzeRelation (old : Clause) (input : ClauseInput) : Relation :=
  if String.eqb (Js.toLowerCase (object old))
                (Js.toLowerCase (in_object input))
  then identical
  else if includes_str SINGLETON_PREDICATES (predicate old)
  then rel_supersession
  else if includes_str MULTI_VALUE_PREDICATES (predicate old)
  then coexistent
  else rel_contradiction.

Definition dquote : string := String (ascii_of_nat 34) EmptyString.

(** [createConflict(clauseA, clauseB)]. *)
Definition createConflict (clauseA clauseB : Clause) (now : time)
  : Db Conflict :=
  i <- uuidv7 ;;
  let conflict :=
    mkConflict i (id clauseA) (id clauseB) contradiction
      ("Conflicting values for " ++ subject clauseA ++ "."
         ++ predicate clauseA ++ ": " ++ dquote ++ object clauseA ++ dquote
         ++ " vs " ++ dquote ++ object clauseB ++ dquote)
      pending None None now in
  insert_conflict conflict ;;;
  bump_counter "total_conflicts_detected" ;;;
  ret conflict.

Inductive ProcessClauseResult :=
  | action_insert (clause : Clause)
  | action_reinforced (existingId : uuid)
  | action_superseded (clause : Clause) (invalidatedId : uuid)
  | action_conflict (clause : Clause) (conflict : Conflict).

(** [subject = ? AND predicate = ? AND valid_to IS NULL]. *)
Definition active_for (s p : string) (r : ClauseRow) : bool :=
  String.eqb (subject r) s && String.eqb (predicate r) p && is_active r.

(** [... AND confidence > 0.3]: the rows conflict detection looks at. *)
Definition visible (s p : string) (r : ClauseRow) : bool :=
  active_for s p r && Js.ltb 0.3%Q (confidence r).

(** The SELECT of [processNewClause]: active rows with the candidate's
    subject and predicate and [confidence > 0.3]. *)
Definition conflicting (input : ClauseInput) (r : ClauseRow) : bool :=
  visible (in_subject input) (in_predicate input) r.

(** [processNewClause(input)].  Every case of the [switch] in the loop
    body returns, so the loop inspects the first selected row only. *)
Definition processNewClause (input : ClauseInput) (now : time)
  : Db ProcessClauseResult :=
  existing <- select_clauses (conflicting input) ;;
  match existing with
  | [] =>
      clause <- create input now ;;
      ret (action_insert clause)
  | oldRow :: _ =>
      let old := rowToClause oldRow in
      match analyzeRelation old input with
      | identical =>
          reinforce (id old) 0.05%Q now ;;;
          ret (action_reinforced (id old))
      | rel_supersession =>
          invalidate (id old) (Some "superseded") now ;;;
          clause <- create input now ;;
          ret (action_superseded clause (id old))
      | rel_contradiction =>
          newClause <- create input now ;;
          conflict <- createConflict old newClause now ;;
          ret (action_conflict newClause conflict)
      | coexistent =>
          coexistClause <- create input now ;;
          ret (action_insert coexistClause)
      end
  end.

(** The word set of [calculateSimilarity]:
    [new Set(s.toLowerCase().split(/\s+/).filter(w => w.length > 2))],
    with the folding, the white space and the lengths of ASCII text. *)
Definition words (s : string) : gset string :=
  list_to_set
    (List.filter (fun w => Nat.ltb 2 (String.length w))
       (Js.split_ws (Js.toLowerCase s))).

Definition ratio (n m : nat) : Q :=
  (inject_Z (Z.of_nat n) / inject_Z (Z.of_nat m))%Q.

(** [calculateSimilarity(a, b)]: the Jaccard index of the two word sets. *)
Definition calculateSimilarity (a b : string) : Q :=
  let wordsA := words a in
  let wordsB := words b in
  if Nat.eqb (size wordsA) 0 && Nat.eqb (size wordsB) 0 then 1%Q
  else if Nat.eqb (size wordsA) 0 || Nat.eqb (size wordsB) 0 then 0%Q
  else ratio (size (wordsA ∩ wordsB)) (size (wordsA ∪ wordsB)).

Inductive MatchType := exact_match | hash_match | fuzzy_match | no_match.

Record DuplicateCheck := mkDup {
  found : bool;
  dup_clause : option Clause;
  similarity : Q;
  matchType : MatchType;
}.

(** The exact-match SELECT of [findDuplicate]. *)
Definition same_spo (input : ClauseInput) (r : ClauseRow) : bool :=
  is_active r
  && String.eqb (subject r) (in_subject input)
  && String.eqb (predicate r) (in_predicate input)
  && String.eqb (object r) (in_object input).

(** The first row of a result set whose similarity to the candidate
    reaches the threshold (the two [for] loops of [findDuplicate]). *)
Fixpoint first_similar (threshold : Q) (natural : string)
    (rows : list ClauseRow) : option (Clause * Q) :=
  match rows with
  | [] => None
  | row :: rest =>
      let clause := rowToClause row in
      let sim := calculateSimilarity (natural_form clause) natural in
      if Js.leb threshold sim then Some (clause, sim)
      else first_similar threshold natural rest
  end.

Section WithTextIndex.

Variable fts5 : TextIndex.

(** The MATCH argument of [findDuplicate]: the first five words of the
    natural form, quotes and parentheses blanked. *)
Definition dedup_fts_query (natural : string) : string :=
  Js.join " "
    (firstn 5
       (Js.split_ws
          (Js.trim
             (Js.replace_class
                (fun a => existsb (Ascii.eqb a)
                            ["'"; ascii_of_nat 34; "("; ")"]%char)
                " "%char natural)))).

(** [findDuplicate(input)] under the deduplication settings [cfg].  The
    third SELECT hands the candidate's words to MATCH as they are (only
    quotes and parentheses are blanked) outside any [try]: an expression
    the index rejects makes the call raise. *)
Definition findDuplicate (cfg : DeduplicationConfig) (input : ClauseInput)
  : Db DuplicateCheck :=
  if negb (enabled cfg) then ret (mkDup false None 0 no_match)
  else
    existing <-
      (if useContentHash cfg
       then select_clauses (same_spo input)
       else ret []) ;;
    match existing with
    | row :: _ => ret (mkDup true (Some (rowToClause row)) 1 exact_match)
    | [] =>
        if useFuzzyMatch cfg then
          candidates <-
            select_clauses
              (visible (in_subject input) (in_predicate input)) ;;
          match first_similar (similarityThreshold cfg)
                  (in_natural_form input) candidates with
          | Some (clause, sim) => ret (mkDup true (Some clause) sim fuzzy_match)
          | None =>
              ftsResults <-
                (fun db =>
                   if fts_rejects fts5 (dedup_fts_query (in_natural_form input))
                   then (db, inl fts_syntax_error)
                   else
                   (db, inr (firstn 5
                      (List.filter
                         (fun r =>
                            match fts5 (clauses db)
                                    (dedup_fts_query (in_natural_form input)) r
                            with Some _ => is_active r | None => false end)
                         (clauses db))))) ;;
              match first_similar (similarityThreshold cfg)
                      (in_natural_form input) ftsResults with
              | Some (clause, sim) =>
                  ret (mkDup true (Some clause) sim fuzzy_match)
              | None => ret (mkDup false None 0 no_match)
              end
          end
        else ret (mkDup false None 0 no_match)
    end.

End WithTextIndex.

(** *** Vocabulary for the properties *)

(** The stores the ingestion pipeline builds: the initial database, and
    whatever [processNewClause] makes of such a store. *)
Inductive ingested : DB -> Prop :=
  | ingested_init : ingested init
  | ingested_step db input now :
      ingested db -> ingested (fst (processNewClause input now db)).

(** At most one clause per subject and singleton predicate is visible to
    conflict detection. *)
Definition singleton_inv (db : DB) : Prop :=
  forall s p,
    In p SINGLETON_PREDICATES ->
    List.length (List.filter (visible s p) (clauses db)) <= 1.

(** [r'] is what became of the row [r]: the same clause, no more visible
    to conflict detection than [r] was. *)
Definition faded (r r' : ClauseRow) : Prop :=
  id r' = id r /\ forall s p, visible s p r' = true -> visible s p r = true.

(** The clause table of [db] is that of [db0] row by row, each row
    faded. *)
Definition fades_from (db0 db : DB) : Prop :=
  Forall2 faded (clauses db0) (clauses db).

End ClauseStore.

(** ** The decay runner ([src/core/decay.ts]) *)

Module DecayRunner.
Import Database.

Record DecayConfig := mkDecayConfig {
  enabled : bool;
  defaultRate : Q;
  minConfidence : Q;
}.

(** The constructor's defaults. *)
Definition default_config : DecayConfig := mkDecayConfig true 0.001%Q 0.1%Q.

Record DecayReport := mkReport {
  processed : nat;
  decayed : nat;
  archived : nat;
  reinforced : nat;
  timestamp : time;
}.

(** [new Date().toISOString()] stored as text: the clock reading written
    in decimal stands for its ISO form. *)
Definition toISOString (t : time) : string := String_of_number (Some t).

Definition logDecay (clauseId : uuid) (previousConfidence newConfidence : Q)
    (reason_ : string) (now : time) : Db unit :=
  i <- uuidv7 ;;
  insert_decay_log
    (mkDecayLog i clauseId previousConfidence newConfidence reason_ now).

(** [archiveClause(clauseId, finalConfidence)]. *)
Definition archiveClause (clauseId : uuid) (finalConfidence : Q) (now : time)
  : Db unit :=
  update_clauses (fun r => Nat.eqb (id r) clauseId)
    (fun r =>
       set_metadata (<["archived_reason" := "confidence_decay"]> (metadata r))
         (set_confidence finalConfidence (set_valid_to (Some now) r))) ;;;
  clause <- get_clause clauseId ;;
  match clause with
  | Some clause =>
      logDecay clauseId (confidence clause) finalConfidence
        "archived_decay" now
  | None => ret tt
  end.

(** [applyDecay(clauseId, oldConfidence, newConfidence)]. *)
Definition applyDecay (clauseId : uuid) (oldConfidence newConfidence : Q)
    (now : time) : Db unit :=
  update_clauses (fun r => Nat.eqb (id r) clauseId)
    (set_confidence newConfidence) ;;;
  logDecay clauseId oldConfidence newConfidence "scheduled_decay" now.

Definition ms_per_day : Q := (1000 * 60 * 60 * 24)%Q.

(** The confidence the batch computes for a fetched row. *)
Definition newConfidence (now : time) (clause : ClauseRow) : Q :=
  let lastAccess := last_accessed clause in
  let daysSinceAccess :=
    Js.Math_max 0 (inject_Z (now - lastAccess) / ms_per_day)%Q in
  let timeFactor := (daysSinceAccess / 30)%Q in
  let effectiveDecayRate :=
    (decay_rate clause
     / (1 + Js.Math_log (reinforcement_count clause + 1)))%Q in
  let decayAmount := (confidence clause * effectiveDecayRate * timeFactor)%Q in
  Js.Math_max 0 (confidence clause - decayAmount)%Q.

Definition incr_processed (r : DecayReport) : DecayReport :=
  mkReport (S (processed r)) (decayed r) (archived r) (reinforced r)
    (timestamp r).

Definition incr_decayed (r : DecayReport) : DecayReport :=
  mkReport (processed r) (S (decayed r)) (archived r) (reinforced r)
    (timestamp r).

Definition incr_archived (r : DecayReport) : DecayReport :=
  mkReport (processed r) (decayed r) (S (archived r)) (reinforced r)
    (timestamp r).

(** [if (!dryRun) { await op }]. *)
Definition unless_dry (dryRun : bool) (op : Db unit) : Db unit :=
  if dryRun then ret tt else op.

(** The [for] loop of [run] over the rows fetched before it starts. *)
Fixpoint run_loop (config : DecayConfig) (dryRun : bool) (now : time)
    (rows : list ClauseRow) (report : DecayReport) : Db DecayReport :=
  match rows with
  | [] => ret report
  | clause :: rest =>
      let report := incr_processed report in
      let newConf := newConfidence now clause in
      if Js.ltb newConf (minConfidence config) then
        unless_dry dryRun (archiveClause (id clause) newConf now) ;;;
        run_loop config dryRun now rest (incr_archived report)
      else if Js.ltb newConf (confidence clause - 0.001)%Q then
        unless_dry dryRun
          (applyDecay (id clause) (confidence clause) newConf now) ;;;
        run_loop config dryRun now rest (incr_decayed report)
      else run_loop config dryRun now rest report
  end.

(** The SELECT of [run]: active rows above the floor. *)
Definition decaying (config : DecayConfig) (r : ClauseRow) : bool :=
  is_active r && Js.ltb (minConfidence config) (confidence r).

(** [run(dryRun)]. *)
Definition run (config : DecayConfig) (dryRun : bool) (now : time)
  : Db DecayReport :=
  if negb (enabled config) && negb dryRun
  then ret (mkReport 0 0 0 0 now)
  else
    rows <- select_clauses (decaying config) ;;
    report <- run_loop config dryRun now rows (mkReport 0 0 0 0 now) ;;
    unless_dry dryRun (setMetadata "last_decay_run" (toISOString now)) ;;;
    ret report.

(** [reinforce(clauseId, amount)]. *)
Definition reinforce (clauseId : uuid) (amount : Q) (now : time) : Db Q :=
  clause <- get_clause clauseId ;;
  match clause with
  | None => throw (JsError "Clause not found")
  | Some clause =>
      let newConfidence := Js.Math_min 1 (confidence clause + amount)%Q in
      update_clauses (fun r => Nat.eqb (id r) clauseId)
        (fun r =>
           touch now (bump_reinforcement (set_confidence newConfidence r))) ;;;
      logDecay clauseId (confidence clause) newConfidence "reinforcement" now ;;;
      ret newConfidence
  end.

(** [adjustConfidence(clauseId, newConfidence, reason)]. *)
Definition adjustConfidence (config : DecayConfig) (clauseId : uuid)
    (newConfidence : Q) (reason_ : string) (now : time) : Db unit :=
  clause <- get_clause clauseId ;;
  match clause with
  | None => throw (JsError "Clause not found")
  | Some clause =>
      let clamped := Js.Math_max 0 (Js.Math_min 1 newConfidence) in
      update_clauses (fun r => Nat.eqb (id r) clauseId)
        (set_confidence clamped) ;;;
      logDecay clauseId (confidence clause) clamped reason_ now ;;;
      if Js.ltb clamped (minConfidence config)
      then archiveClause clauseId clamped now
      else ret tt
  end.

(** *** Vocabulary for the properties *)

(** The two tests of the loop body of [run] on a fetched row. *)
Definition archives (config : DecayConfig) (now : time) (r : ClauseRow)
  : bool :=
  Js.ltb (newConfidence now r) (minConfidence config).

Definition decays (config : DecayConfig) (now : time) (r : ClauseRow)
  : bool :=
  negb (archives config now r)
  && Js.ltb (newConfidence now r) (confidence r - 0.001)%Q.

(** The SET list of [archiveClause]. *)
Definition archived_row (finalConfidence : Q) (now : time) (r : ClauseRow)
  : ClauseRow :=
  set_metadata (<["archived_reason" := "confidence_decay"]> (metadata r))
    (set_confidence finalConfidence (set_valid_to (Some now) r)).

(** The clamp of [adjustConfidence]. *)
Definition clamp (x : Q) : Q := Js.Math_max 0 (Js.Math_min 1 x).

(** What a real run may do to a row: it keeps its id and decay rate, and
    its confidence stays non-negative and does not grow. *)
Definition decayed_from (r0 r : ClauseRow) : Prop :=
  id r = id r0 /\ decay_rate r = decay_rate r0
  /\ (0 <= confidence r)%Q /\ (confidence r <= confidence r0)%Q.

(** What the loop body of a real [run] makes of a fetched row. *)
Definition loop_step (config : DecayConfig) (now : time) (r : ClauseRow)
  : ClauseRow :=
  if archives config now r then archived_row (newConfidence now r) now r
  else if decays config now r then set_confidence (newConfidence now r) r
  else r.

(** What a real [run] makes of a row of the table: only the rows its
    SELECT fetches go through the loop. *)
Definition decay_row (config : DecayConfig) (now : time) (r : ClauseRow)
  : ClauseRow :=
  if decaying config r then loop_step config now r else r.

(** The row's id is among those of the fetched rows. *)
Definition fetched (rows : list ClauseRow) (r : ClauseRow) : bool :=
  existsb (Nat.eqb (id r)) (map id rows).

(** What a real run may make of a row of the table, whatever the decay
    formula yields for it: any row may be left alone; a row the SELECT
    fetches may also get a lower confidence that is not below the floor,
    or be archived with a confidence below the floor. *)
Inductive run_outcome (config : DecayConfig) (now : time) (r : ClauseRow)
  : ClauseRow -> Prop :=
  | row_kept : run_outcome config now r r
  | row_lowered c :
      decaying config r = true ->
      (0 <= c)%Q -> (c < confidence r)%Q -> (minConfidence config <= c)%Q ->
      run_outcome config now r (set_confidence c r)
  | row_archived c :
      decaying config r = true ->
      (0 <= c)%Q -> (c < minConfidence config)%Q -> (c <= confidence r)%Q ->
      run_outcome config now r (archived_row c now r).

(** A pair of a row and what became of it: still active, with a lower
    confidence. *)
Definition lowered (p : ClauseRow * ClauseRow) : bool :=
  is_active (snd p) && Js.ltb (confidence (snd p)) (confidence (fst p)).

End DecayRunner.

(** ** The retriever ([src/core/retrieval.ts]) *)

Module Retriever.
Import Database.

Record RetrievalConfig := mkRetrievalConfig {
  semanticWeight : Q;
  keywordWeight : Q;
  recencyWeight : Q;
  defaultLimit : nat;
  useLLMQueryRewriting : bool;
}.

(** The constructor's defaults. *)
Definition default_config : RetrievalConfig :=
  mkRetrievalConfig 0.6%Q 0.3%Q 0.1%Q 20 false.

(** The embedding manager as the retriever sees it: the provider's
    dimension count, and the similarity search (a collaborator that may
    raise) for the database content, a query, a limit and a floor. *)
Record EmbeddingManager := mkEmbeddingManager {
  dimensions : nat;
  similarity_search :
    DB -> string -> nat -> Q -> Exn + list (uuid * Q);
}.

(** [EmbeddingManager.isSemanticSearchAvailable()]. *)
Definition manager_available (m : EmbeddingManager) : bool :=
  Nat.ltb 0 (dimensions m).

(** [EmbeddingManager.findSimilar(query, {limit, minSimilarity})]. *)
Definition findSimilar (m : EmbeddingManager) (query : string) (limit : nat)
    (minSimilarity : Q) : Db (list (uuid * Q)) :=
  if Nat.eqb (dimensions m) 0 then ret []
  else fun db => (db, similarity_search m db query limit minSimilarity).

Record Retriever := mkRetriever {
  config : RetrievalConfig;
  embeddingManager : option EmbeddingManager;
}.

Record RetrievalOptions := mkOptions {
  opt_types : option (list ClauseType);
  opt_minConfidence : option Q;
  opt_includeExpired : option bool;
  opt_limit : option nat;
  opt_boostRecent : option bool;
  opt_semanticWeight : option Q;
  opt_keywordWeight : option Q;
}.

Definition no_options : RetrievalOptions :=
  mkOptions None None None None None None None.

Inductive RetrievalMethod := semantic | keyword | hybrid.

Record ScoredClause := mkScored {
  scored : Clause;
  score : Q;
}.

Record RetrievalResult := mkResult {
  result_clauses : list ScoredClause;
  totalMatches : nat;
  retrievalMethod : RetrievalMethod;
}.

Definition orElse {A} (x : option A) (d : A) : A :=
  match x with Some a => a | None => d end.

(** [isSemanticSearchAvailable()]:
    [this.embeddingManager?.isSemanticSearchAvailable() ?? false]. *)
Definition isSemanticSearchAvailable (r : Retriever) : bool :=
  match embeddingManager r with
  | Some m => manager_available m
  | None => false
  end.

(** A stable insertion sort; [before a b] tells that [a] may stay ahead
    of [b]. *)
Fixpoint insert_sorted {A} (before : A -> A -> bool) (x : A) (l : list A)
  : list A :=
  match l with
  | [] => [x]
  | y :: l' =>
      if before x y then x :: l else y :: insert_sorted before x l'
  end.

Definition sort_by {A} (before : A -> A -> bool) (l : list A) : list A :=
  fold_right (insert_sorted before) [] l.

(** [types && types.length > 0 ? type IN (...) : true]. *)
Definition type_filter (types : option (list ClauseType)) (r : ClauseRow)
  : bool :=
  match types with
  | Some (t :: ts) => existsb (ClauseType_eqb (type r)) (t :: ts)
  | _ => true
  end.

(** [prepareFtsQuery(query)]. *)
Definition prepareFtsQuery (query : string) : string :=
  let clean :=
    Js.replace_class
      (fun a => existsb (Ascii.eqb a)
                  ["'"; ascii_of_nat 34; "("; ")"; "{"; "}"; "["; "]"; ":";
                   "*"; "^"; "~"]%char)
      " "%char query in
  let clean := Js.trim (Js.collapse_ws clean) in
  let words :=
    List.filter (fun w => Nat.ltb 1 (String.length w))
      (Js.split_char " "%char clean) in
  match words with
  | [] => "*"
  | [w] => w ++ "*"
  | _ => Js.join " OR " words
  end.

(** [!query || !query.trim()]. *)
Definition blank (query : string) : bool :=
  match Js.trim query with EmptyString => true | _ => false end.

Section WithTextIndex.

Variable fts5 : TextIndex.

(** [keywordSearch(query, options)]: rows with their [score] column.  The
    MATCH of the second SELECT raises when the index rejects what
    [prepareFtsQuery] made of the query; nothing catches it. *)
Definition keywordSearch (query : string) (types : option (list ClauseType))
    (minConfidence : Q) (includeExpired : bool) (limit : nat)
  : Db (list (ClauseRow * Q)) :=
  fun db =>
    let keep (r : ClauseRow) :=
      Js.leb minConfidence (confidence r)
      && (includeExpired || is_active r)
      && type_filter types r in
    if blank query then
      let rows := List.filter keep (clauses db) in
      let ordered :=
        sort_by
          (fun a b =>
             Js.ltb (confidence b) (confidence a)
             || (Js.leb (confidence b) (confidence a)
                 && Z.leb (last_accessed b) (last_accessed a)))
          rows in
      (db, inr (map (fun r => (r, 1%Q)) (firstn limit ordered)))
    else
      let escapedQuery := prepareFtsQuery query in
      if fts_rejects fts5 escapedQuery then (db, inl fts_syntax_error)
      else
      let rows :=
        flat_map
          (fun r =>
             match fts5 (clauses db) escapedQuery r with
             | Some s => if keep r then [(r, s)] else []
             | None => []
             end)
          (clauses db) in
      let ordered := sort_by (fun a b => Js.leb (snd a) (snd b)) rows in
      (db, inr (firstn limit ordered)).

End WithTextIndex.

Record Weights := mkWeights {
  w_semantic : Q;
  w_keyword : Q;
  w_recency : Q;
}.

Record ScoreEntry := mkEntry {
  entry_clause : Clause;
  keywordScore : Q;
  semanticScore : Q;
}.

(** [Map.prototype.set] on an insertion-ordered map keyed by clause id. *)
Fixpoint map_set (k : uuid) (v : ScoreEntry) (m : list (uuid * ScoreEntry))
  : list (uuid * ScoreEntry) :=
  match m with
  | [] => [(k, v)]
  | (k', v') :: m' =>
      if Nat.eqb k' k then (k, v) :: m' else (k', v') :: map_set k v m'
  end.

Definition map_get (k : uuid) (m : list (uuid * ScoreEntry))
  : option ScoreEntry :=
  option_map snd (List.find (fun kv => Nat.eqb (fst kv) k) m).

(** "Process keyword results". *)
Definition add_keyword (m : list (uuid * ScoreEntry)) (row : ClauseRow * Q)
  : list (uuid * ScoreEntry) :=
  let clause := rowToClause (fst row) in
  let ftsScore := snd row in
  let normalizedFtsScore := Js.Math_max 0 (1 + ftsScore / 10)%Q in
  map_set (id clause) (mkEntry clause normalizedFtsScore 0) m.

(** "Process semantic results": the rows are looked up in [db]. *)
Definition add_semantic (db : DB) (m : list (uuid * ScoreEntry))
    (result : uuid * Q) : list (uuid * ScoreEntry) :=
  match map_get (fst result) m with
  | Some existing =>
      map_set (fst result)
        (mkEntry (entry_clause existing) (keywordScore existing) (snd result))
        m
  | None =>
      match List.find (fun r => Nat.eqb (id r) (fst result)) (clauses db) with
      | Some row => map_set (fst result)
                      (mkEntry (rowToClause row) 0 (snd result)) m
      | None => m
      end
  end.

(** The score of one entry ("Calculate final scores"). *)
Definition final_score (now : time) (query : string) (weights : Weights)
    (e : ScoreEntry) : Q :=
  let clause := entry_clause e in
  let queryLower := Js.toLowerCase query in
  let queryWords := ClauseStore.words query in
  let s := (semanticScore e * w_semantic weights)%Q in
  let s := (s + keywordScore e * w_keyword weights)%Q in
  let s := (s + confidence clause * 0.2)%Q in
  let s :=
    if Js.ltb 0 (w_recency weights) then
      let daysSinceAccess :=
        (inject_Z (now - last_accessed clause) / DecayRunner.ms_per_day)%Q in
      let recencyScore := Js.Math_max 0 (1 - daysSinceAccess / 30)%Q in
      (s + recencyScore * w_recency weights)%Q
    else s in
  let naturalLower := Js.toLowerCase (natural_form clause) in
  let s :=
    fold_left
      (fun acc word =>
         if Js.includes naturalLower word then (acc + 0.05)%Q else acc)
      (elements queryWords) s in
  let s :=
    if Js.includes queryLower (Js.toLowerCase (subject clause))
    then (s + 0.05)%Q else s in
  let s :=
    if Js.includes queryLower
         (Js.toLowerCase
            (Js.replace_class (Ascii.eqb "_"%char) " "%char (predicate clause)))
    then (s + 0.05)%Q else s in
  Js.Math_min 1 s.

(** [mergeAndScore(keywordResults, semanticResults, query, weights)]. *)
Definition mergeAndScore (keywordResults : list (ClauseRow * Q))
    (semanticResults : list (uuid * Q)) (query : string) (weights : Weights)
    (now : time) : Db (list ScoredClause) :=
  fun db =>
    let clauseScores := fold_left add_keyword keywordResults [] in
    let clauseScores := fold_left (add_semantic db) semanticResults clauseScores in
    let scoredClauses :=
      map (fun kv =>
             mkScored (entry_clause (snd kv))
               (final_score now query weights (snd kv)))
        clauseScores in
    (db, inr (sort_by (fun a b => Js.leb (score b) (score a)) scoredClauses)).

(** [logAccess(clauseId, accessType, context)]. *)
Definition logAccess (clauseId : uuid) (accessType : AccessType)
    (context_ : string) (now : time) : Db unit :=
  i <- uuidv7 ;;
  update_clauses (fun r => Nat.eqb (id r) clauseId) (touch now) ;;;
  insert_access_log
    (mkAccessLog i clauseId accessType (Js.slice0 500 context_) now).

Section Retrieve.

Variable fts5 : TextIndex.
Variable self : Retriever.

(** The defaults of the destructured [options]. *)
Definition semanticWeight_of (options : RetrievalOptions) : Q :=
  orElse (opt_semanticWeight options) (semanticWeight (config self)).

Definition keywordWeight_of (options : RetrievalOptions) : Q :=
  orElse (opt_keywordWeight options) (keywordWeight (config self)).

Definition limit_of (options : RetrievalOptions) : nat :=
  orElse (opt_limit options) (defaultLimit (config self)).

(** [canUseSemanticSearch]. *)
Definition canUseSemanticSearch (options : RetrievalOptions) : bool :=
  isSemanticSearchAvailable self && Js.ltb 0 (semanticWeight_of options).

(** [actualSemanticWeight], [actualKeywordWeight] and the recency weight
    handed to [mergeAndScore]. *)
Definition actual_weights (options : RetrievalOptions) : Weights :=
  mkWeights
    (if canUseSemanticSearch options then semanticWeight_of options else 0)
    (if canUseSemanticSearch options then keywordWeight_of options
     else (keywordWeight_of options + semanticWeight_of options)%Q)
    (if orElse (opt_boostRecent options) false
     then recencyWeight (config self) else 0).

(** [retrieve(query, options)]. *)
Definition retrieve (query : string) (options : RetrievalOptions)
    (now : time) : Db RetrievalResult :=
  let limit := limit_of options in
  keywordResults <-
    keywordSearch fts5 query (opt_types options)
      (orElse (opt_minConfidence options) 0.5%Q)
      (orElse (opt_includeExpired options) false) (limit * 2) ;;
  semanticResults <-
    (if canUseSemanticSearch options && negb (blank query)
     then match embeddingManager self with
          | Some m => findSimilar m query (limit * 2) 0.3%Q
          | None => throw (JsError "embeddingManager is undefined")
          end
     else ret []) ;;
  scoredClauses <-
    mergeAndScore keywordResults semanticResults query
      (actual_weights options) now ;;
  let topResults := firstn limit scoredClauses in
  for_each topResults
    (fun clause => logAccess (id (scored clause)) retrieval query now) ;;;
  ret (mkResult topResults
         (Nat.max (List.length keywordResults) (List.length semanticResults))
         (if canUseSemanticSearch options then hybrid else keyword)).

End Retrieve.

(** *** Vocabulary for the properties *)

(** Each entry of a score map is filed under the id of its clause. *)
Definition keyed (m : list (uuid * ScoreEntry)) : Prop :=
  forall kv, In kv m -> id (entry_clause (snd kv)) = fst kv.

(** The characters [prepareFtsQuery] blanks. *)
Definition fts_special (a : ascii) : bool :=
  existsb (Ascii.eqb a)
    ["'"; ascii_of_nat 34; "("; ")"; "{"; "}"; "["; "]"; ":"; "*"; "^"; "~"]%char.

End Retriever.

(** ** Conflict resolution and search ([src/core/clauses.ts], continued) *)

Module ConflictResolver.
Import Database ClauseStore.

Inductive ConflictResolutionStrategy :=
  | newest_wins | highest_confidence | merge_history | manual.

Record ConflictResolutionConfig := mkConflictConfig {
  strategy : ConflictResolutionStrategy;
  autoResolveThreshold : Q;
  preserveHistory : bool;
}.

Definition DEFAULT_CONFLICT_CONFIG : ConflictResolutionConfig :=
  mkConflictConfig merge_history 0.2%Q true.

(** [status = 'pending']. *)
Definition is_pending (c : Conflict) : bool :=
  match status c with pending => true | _ => false end.

(** [getPendingConflicts()]: pending rows, latest detection first (rows
    detected at the same time stay in rowid order). *)
Definition getPendingConflicts : Db (list Conflict) :=
  fun db =>
    (db,
     inr (Retriever.sort_by
            (fun a b => Z.leb (detected_at b) (detected_at a))
            (List.filter is_pending (conflicts db)))).

Record ResolveResult := mkResolveResult {
  resolved : bool;
  action : string;
  keptClauseId : option uuid;
}.

(** A clause id as it appears in text. *)
Definition uuid_text (i : uuid) : string :=
  String_of_number (Some (Z.of_nat i)).

(** [if (cond) { kept = A; invalidated = B } else { kept = B; invalidated = A }]. *)
Definition keep_first (cond : bool) (clauseA clauseB : Clause)
  : Clause * Clause :=
  if cond then (clauseA, clauseB) else (clauseB, clauseA).

(** The [switch (useStrategy)] of [resolveConflict]: the kept clause, the
    invalidated one and the resolution text; [None] for [manual], which
    returns from the function. *)
Definition pick (useStrategy : ConflictResolutionStrategy)
    (clauseA clauseB : Clause) : option (Clause * Clause * string) :=
  match useStrategy with
  | newest_wins =>
      let '(kept, invalidated) :=
        keep_first (Z.ltb (recorded_at clauseB) (recorded_at clauseA))
          clauseA clauseB in
      Some (kept, invalidated, "newest_wins: kept " ++ uuid_text (id kept))
  | highest_confidence =>
      let '(kept, invalidated) :=
        keep_first (Js.leb (confidence clauseB) (confidence clauseA))
          clauseA clauseB in
      Some (kept, invalidated,
            "highest_confidence: kept " ++ uuid_text (id kept))
  | merge_history =>
      let '(kept, invalidated) :=
        keep_first (Z.ltb (recorded_at clauseB) (recorded_at clauseA))
          clauseA clauseB in
      Some (kept, invalidated,
            "merge_history: kept " ++ uuid_text (id kept) ++ ", archived "
              ++ uuid_text (id invalidated))
  | manual => None
  end.

(** The JSON texts of the falsy values: [null], [false], [0] and the
    empty string. *)
Definition json_falsy (t : string) : bool :=
  existsb (String.eqb t) ["null"; "false"; "0"; dquote ++ dquote].

(** [arr.push(s)] on the JSON text of an array. *)
Definition json_push (t s : string) : string :=
  if String.eqb t "[]" then "[" ++ dquote ++ s ++ dquote ++ "]"
  else Js.slice0 (String.length t - 1) t ++ "," ++ dquote ++ s ++ dquote ++ "]".

(** [metadata.supersedes = metadata.supersedes || [];
     metadata.supersedes.push(id)] on the JSON text of the value: a missing
    or falsy value becomes the one-element array, an array gets the id
    appended, and any other value has no [push]. *)
Definition push_supersedes (m : gmap string string) (i : uuid)
  : Exn + gmap string string :=
  let t :=
    match m !! "supersedes" with
    | Some t => if json_falsy t then "[]" else t
    | None => "[]"
    end in
  if Js.prefixb "[" t
  then inr (<["supersedes" := json_push t (uuid_text i)]> m)
  else inl (JsError "metadata.supersedes.push is not a function").

(** [UPDATE conflicts SET status = 'auto_resolved', resolution = ?,
     resolved_at = datetime('now') WHERE id = ?]. *)
Definition auto_resolved_row (resolution_ : string) (now : time) (c : Conflict)
  : Conflict :=
  mkConflict (conflict_id c) (clause_a_id c) (clause_b_id c)
    (conflict_type c) (description c) auto_resolved (Some resolution_)
    (Some now) (detected_at c).

Definition mark_resolved (conflictId : uuid) (resolution_ : string)
    (now : time) : Db unit :=
  update_conflicts (fun c => Nat.eqb (conflict_id c) conflictId)
    (auto_resolved_row resolution_ now).

(** [resolveConflict(conflictId, strategy)] under the settings [cfg]. *)
Definition resolveConflict (cfg : ConflictResolutionConfig)
    (conflictId : uuid) (strategy_ : option ConflictResolutionStrategy)
    (now : time) : Db ResolveResult :=
  let useStrategy := orElse strategy_ (strategy cfg) in
  conflict <- get_conflict conflictId ;;
  match conflict with
  | None => ret (mkResolveResult false "not_found_or_already_resolved" None)
  | Some conflict =>
      if negb (is_pending conflict)
      then ret (mkResolveResult false "not_found_or_already_resolved" None)
      else
        clauseA <- get (clause_a_id conflict) now ;;
        clauseB <- get (clause_b_id conflict) now ;;
        match clauseA, clauseB with
        | Some clauseA, Some clauseB =>
            match pick useStrategy clauseA clauseB with
            | None =>
                ret (mkResolveResult false "requires_manual_resolution" None)
            | Some (keptClause, invalidatedClause, resolution_) =>
                invalidate (id invalidatedClause)
                  (Some ("superseded_by:" ++ uuid_text (id keptClause))) now ;;;
                (if preserveHistory cfg then
                   match push_supersedes (metadata keptClause)
                           (id invalidatedClause) with
                   | inr metadata_ =>
                       update (id keptClause)
                         (mkUpdates None None None (Some metadata_) None) now ;;;
                       ret tt
                   | inl e => throw e
                   end
                 else ret tt) ;;;
                mark_resolved conflictId resolution_ now ;;;
                ret (mkResolveResult true resolution_ (Some (id keptClause)))
            end
        | _, _ =>
            mark_resolved conflictId "clause_deleted" now ;;;
            ret (mkResolveResult true "clause_deleted"
                   (match clauseA with
                    | Some a => Some (id a)
                    | None => option_map id clauseB
                    end))
        end
  end.

Record ResolveAllResult := mkResolveAll {
  all_resolved : nat;
  all_skipped : nat;
  all_errors : nat;
}.

(** The [for] loop of [resolveAllConflicts] over the conflicts fetched
    before it starts. *)
Fixpoint resolve_loop (cfg : ConflictResolutionConfig)
    (strategy_ : option ConflictResolutionStrategy) (now : time)
    (pending_ : list Conflict) (acc : ResolveAllResult)
  : Db ResolveAllResult :=
  match pending_ with
  | [] => ret acc
  | conflict :: rest =>
      acc' <-
        try_catch
          (result <- resolveConflict cfg (conflict_id conflict) strategy_ now ;;
           if resolved result
           then ret (mkResolveAll (S (all_resolved acc)) (all_skipped acc)
                       (all_errors acc))
           else ret (mkResolveAll (all_resolved acc) (S (all_skipped acc))
                       (all_errors acc)))
          (fun _ =>
             ret (mkResolveAll (all_resolved acc) (all_skipped acc)
                    (S (all_errors acc)))) ;;
      resolve_loop cfg strategy_ now rest acc'
  end.

(** [resolveAllConflicts(strategy)]. *)
Definition resolveAllConflicts (cfg : ConflictResolutionConfig)
    (strategy_ : option ConflictResolutionStrategy) (now : time)
  : Db ResolveAllResult :=
  conflicts_ <- getPendingConflicts ;;
  resolve_loop cfg strategy_ now conflicts_ (mkResolveAll 0 0 0).

(** *** Vocabulary for the properties *)

(** The conflict table is [cs]. *)
Definition conflicts_are (cs : list Conflict) (db : DB) : Prop :=
  conflicts db = cs.

(** The conflict table after an UPDATE of the row with id [i]. *)
Definition marked (i : uuid) (set_ : Conflict -> Conflict)
    (cs : list Conflict) : list Conflict :=
  map (fun c => if Nat.eqb (conflict_id c) i then set_ c else c) cs.

(** The clause table after [get(a)] and [get(b)]. *)
Definition read_twice (a b : uuid) (now : time) (rows : list ClauseRow)
  : list ClauseRow :=
  updated (fun r => Nat.eqb (id r) b) (touch now)
    (updated (fun r => Nat.eqb (id r) a) (touch now) rows).

(** Whether a strategy keeps the first clause of a conflict. *)
Definition keeps_first (s : ConflictResolutionStrategy) (A B : Clause) : bool :=
  match s with
  | highest_confidence => Js.leb (confidence B) (confidence A)
  | _ => Z.ltb (recorded_at B) (recorded_at A)
  end.

(** The clause table when [resolveConflict] reaches its history link:
    both clauses read, the loser invalidated. *)
Definition loser_retired (a b loser kept : uuid) (now : time)
    (rows : list ClauseRow) : list ClauseRow :=
  updated (fun r => Nat.eqb (id r) loser)
    (invalidated_row (Some ("superseded_by:" ++ uuid_text kept)) now)
    (read_twice a b now rows).

(** The number of pending rows of the conflict table. *)
Definition pending_count (db : DB) : nat :=
  List.length (List.filter is_pending (conflicts db)).

End ConflictResolver.

Module ClauseSearch.
Import Database ClauseStore.

Inductive OrderBy := by_confidence | by_last_accessed | by_recorded_at.
Inductive OrderDir := asc | desc.

Record SearchOptions := mkSearchOptions {
  s_types : option (list ClauseType);
  s_minConfidence : option Q;
  s_includeExpired : option bool;
  s_limit : option nat;
  s_offset : option nat;
  s_orderBy : option OrderBy;
  s_orderDir : option OrderDir;
}.

Definition no_search_options : SearchOptions :=
  mkSearchOptions None None None None None None None.

(** The WHERE conditions [search] appends to either SELECT. *)
Definition search_filter (options : SearchOptions) (r : ClauseRow) : bool :=
  let minConfidence := orElse (s_minConfidence options) 0%Q in
  (orElse (s_includeExpired options) false || is_active r)
  && (if Js.ltb 0 minConfidence then Js.leb minConfidence (confidence r)
      else true)
  && Retriever.type_filter (s_types options) r.

(** [a.field <= b.field] for the ORDER BY column.  The two time columns
    are compared as clock readings; SQLite compares the stored text,
    which agrees with it for [recorded_at] (always the ISO stamp of
    [create]) and need not for [last_accessed] (the ISO stamp of
    [create], or the [datetime('now')] text of a later access bump). *)
Definition field_leb (o : OrderBy) (a b : ClauseRow) : bool :=
  match o with
  | by_confidence => Js.leb (confidence a) (confidence b)
  | by_last_accessed => Z.leb (last_accessed a) (last_accessed b)
  | by_recorded_at => Z.leb (recorded_at a) (recorded_at b)
  end.

(** [ORDER BY ... ASC|DESC] for a comparison of the sort keys. *)
Definition ordered {A} (dir : OrderDir) (key_leb : A -> A -> bool)
    (l : list A) : list A :=
  match dir with
  | asc => Retriever.sort_by (fun a b => key_leb a b) l
  | desc => Retriever.sort_by (fun a b => key_leb b a) l
  end.

(** The MATCH argument of [search]: hyphens, quotes and parentheses
    blanked, the rest trimmed and wrapped in double quotes. *)
Definition search_fts_query (query : string) : string :=
  dquote
  ++ Js.trim
       (Js.replace_class
          (fun a => existsb (Ascii.eqb a)
                      ["-"; "'"; ascii_of_nat 34; "("; ")"]%char)
          " "%char query)
  ++ dquote.

Section WithTextIndex.

Variable fts5 : TextIndex.

(** [search(query, options)].  The MATCH argument is one quoted phrase
    free of quotes, which FTS5 accepts whatever it holds: this SELECT
    does not raise. *)
Definition search (query : string) (options : SearchOptions)
  : Db (list Clause) :=
  fun db =>
    let limit := orElse (s_limit options) 20 in
    let offset := orElse (s_offset options) 0 in
    let orderBy := orElse (s_orderBy options) by_confidence in
    let orderDir := orElse (s_orderDir options) desc in
    let rows :=
      if negb (Retriever.blank query) then
        let scored :=
          flat_map
            (fun r =>
               match fts5 (clauses db) (search_fts_query query) r with
               | Some s => if search_filter options r then [(r, s)] else []
               | None => []
               end)
            (clauses db) in
        map fst
          (ordered orderDir (fun a b => Js.leb (snd a) (snd b)) scored)
      else
        ordered orderDir (field_leb orderBy)
          (List.filter (search_filter options) (clauses db)) in
    (db, inr (map rowToClause (firstn limit (skipn offset rows)))).

End WithTextIndex.

(** *** Vocabulary for the properties *)

(** The characters [search] blanks. *)
Definition search_special (a : ascii) : bool :=
  existsb (Ascii.eqb a) ["-"; "'"; ascii_of_nat 34; "("; ")"]%char.

End ClauseSearch.

(** ** The write operations of the engine, as one transition system *)

Module Engine.
Import Database.

Inductive Write :=
  | W_create (input : ClauseInput)
  | W_get (i : uuid)
  | W_update (i : uuid) (updates : ClauseStore.ClauseUpdates)
  | W_invalidate (i : uuid) (reason_ : option string)
  | W_reinforce (i : uuid) (amount : Q)
  | W_processNewClause (input : ClauseInput)
  | W_decay_run (config : DecayRunner.DecayConfig) (dryRun : bool)
  | W_decay_reinforce (i : uuid) (amount : Q)
  | W_adjustConfidence (config : DecayRunner.DecayConfig) (i : uuid)
      (newConfidence : Q) (reason_ : string)
  | W_retrieve (fts5 : TextIndex) (self : Retriever.Retriever)
      (query : string) (options : Retriever.RetrievalOptions).

(** The database after a write at clock reading [now], whether the write
    returned or raised. *)
Definition exec (w : Write) (now : time) (db : DB) : DB :=
  match w with
  | W_create input => fst (ClauseStore.create input now db)
  | W_get i => fst (ClauseStore.get i now db)
  | W_update i updates => fst (ClauseStore.update i updates now db)
  | W_invalidate i reason_ => fst (ClauseStore.invalidate i reason_ now db)
  | W_reinforce i amount => fst (ClauseStore.reinforce i amount now db)
  | W_processNewClause input => fst (ClauseStore.processNewClause input now db)
  | W_decay_run config dryRun => fst (DecayRunner.run config dryRun now db)
  | W_decay_reinforce i amount => fst (DecayRunner.reinforce i amount now db)
  | W_adjustConfidence config i c reason_ =>
      fst (DecayRunner.adjustConfidence config i c reason_ now db)
  | W_retrieve fts5 self query options =>
      fst (Retriever.retrieve fts5 self query options now db)
  end.

(** The states the engine can be in: the freshly initialised database,
    and whatever a write makes of a reachable one. *)
Inductive reachable : DB -> Prop :=
  | reach_init : reachable init
  | reach_step db w now : reachable db -> reachable (exec w now db).

(** The writes that leave it to conflict detection which clauses are
    visible: all but [create], which stores a clause without looking for
    conflicts, and the writes that can raise a stored confidence. *)
Definition guarded (w : Write) : bool :=
  match w with
  | W_create _ | W_reinforce _ _ | W_decay_reinforce _ _
  | W_adjustConfidence _ _ _ _ => false
  | W_update _ updates =>
      match ClauseStore.up_confidence updates with
      | Some _ => false
      | None => true
      end
  | W_get _ | W_invalidate _ _ | W_processNewClause _ | W_decay_run _ _
  | W_retrieve _ _ _ _ => true
  end.

(** The states reached by guarded writes alone. *)
Inductive guarded_reachable : DB -> Prop :=
  | guarded_init : guarded_reachable init
  | guarded_step db w now :
      guarded w = true -> guarded_reachable db ->
      guarded_reachable (exec w now db).

End Engine.

(** ** Concrete stores used to exercise the operations *)

Module Scenario.
Import Database.

Definition day : Z := 86400000.

(** An active clause with confidence 0.15 and decay rate 0.05, never
    reinforced, last accessed at time 0. *)
Definition stale_clause : Clause :=
  mkClause 0 context "user" "is_at" "the office" "User is at the office"
    0 None 0 0.15%Q 0.05%Q 0 "manual" "manual" 0 0 [] ∅.

Definition stale_db : DB :=
  mkDB [stale_clause] [] [] [] (system_metadata init) 1.

(** Decay enabled, floor 0.1. *)
Definition floor_config : DecayRunner.DecayConfig :=
  DecayRunner.mkDecayConfig true 0.001%Q 0.1%Q.

(** A candidate whose confidence is outside [0,1]. *)
Definition over_confident : ClauseInput :=
  mkInput fact "user" "lives_in" "Seattle" "User lives in Seattle"
    (Some 1.5%Q) None None None None None None.

(** A candidate that states where the user lives. *)
Definition lives_in (city : string) (conf : option Q) : ClauseInput :=
  mkInput fact "user" "lives_in" city ("User lives in " ++ city)
    conf None None None None None None.

(** The store after the user's home was recorded at time 0 and the clause
    invalidated at time 100. *)
Definition retired_db : DB :=
  fst (ClauseStore.invalidate 0 (Some "User moved") 100
         (fst (ClauseStore.create (lives_in "Seattle" (Some 0.9%Q)) 0 init))).

(** A candidate about the car the user drives; the predicate is in
    neither predicate list. *)
Definition drives (car : string) (conf : option Q) : ClauseInput :=
  mkInput fact "user" "drives" car ("User drives " ++ car)
    conf None None None None None None.

(** A store whose only clause was recorded with confidence 0.2. *)
Definition hesitant_db : DB :=
  fst (ClauseStore.create (drives "a Volvo" (Some 0.2%Q)) 0 init).

(** A store whose only clause was recorded with confidence 0.9. *)
Definition confident_db : DB :=
  fst (ClauseStore.create (drives "a Volvo" (Some 0.9%Q)) 0 init).

(** Characters that FTS5 takes neither for part of a word nor for an
    operator: outside a quoted phrase each of them is a syntax error. *)
Definition stray (a : ascii) : bool :=
  existsb (Ascii.eqb a) ["?"; "@"; "."; ","]%char.

(** A query word [w] against an indexed word [h]: [w] itself, or a
    prefix of [h] when [w] ends with a star. *)
Definition word_matches (w h : string) : bool :=
  match Js.rev_string w with
  | String "*"%char p => Js.prefixb (Js.rev_string p) h
  | _ => String.eqb w h
  end.

(** A plain text index: a row matches when every word of the expression
    matches, case-folded, one of the words of its four indexed columns;
    every match scores -1.  An expression that is not a quoted phrase and
    holds a stray character is rejected. *)
Definition plain_index : TextIndex :=
  mkTextIndex
    (fun _ query r =>
       let have :=
         flat_map (fun s => Js.split_ws (Js.toLowerCase s))
           [natural_form r; subject r; predicate r; object r] in
       if forallb (fun w => existsb (word_matches w) have)
            (Js.split_ws (Js.toLowerCase query))
       then Some (-1)%Q else None)
    (fun query =>
       negb (Js.prefixb ClauseStore.dquote query)
       && negb (Js.string_forall (fun a => negb (stray a)) query)).

(** A store that holds one clause about the tea the user likes. *)
Definition tea_input : ClauseInput :=
  mkInput preference "user" "likes" "green tea" "User likes green tea"
    (Some 0.9%Q) None None None None None None.

Definition tea_clause : Clause := ClauseStore.new_clause tea_input 0 0.

Definition tea_db : DB := fst (ClauseStore.create tea_input 0 init).

(** A candidate whose wording holds an e-mail address. *)
Definition email_input : ClauseInput :=
  mkInput fact "user" "email_address" "a@b.com" "User email is a@b.com"
    (Some 0.9%Q) None None None None None None.

(** A candidate with the same wording about another subject and
    predicate. *)
Definition tea_elsewhere : ClauseInput :=
  mkInput preference "customer" "orders" "tea" "User likes green tea"
    (Some 0.9%Q) None None None None None None.

(** A candidate with the same subject, predicate and wording and another
    object. *)
Definition tea_again : ClauseInput :=
  mkInput preference "user" "likes" "tea" "user likes GREEN tea"
    (Some 0.9%Q) None None None None None None.

(** The store after the user's home was recorded through the engine. *)
Definition home_db : DB :=
  Engine.exec (Engine.W_create (lives_in "Seattle" (Some 0.9%Q))) 0 init.

(** The clause [confident_db] holds. *)
Definition volvo_clause : Clause :=
  ClauseStore.new_clause (drives "a Volvo" (Some 0.9%Q)) 0 0.

(** A retriever without an embedding manager, and one whose manager has
    a 384-dimensional provider that finds nothing similar. *)
Definition offline : Retriever.Retriever :=
  Retriever.mkRetriever Retriever.default_config None.

Definition online : Retriever.Retriever :=
  Retriever.mkRetriever Retriever.default_config
    (Some (Retriever.mkEmbeddingManager 384 (fun _ _ _ _ => inr []))).

(** A retriever whose manager has a 384-dimensional provider that cannot
    be reached: every similarity search raises. *)
Definition unreachable : Retriever.Retriever :=
  Retriever.mkRetriever Retriever.default_config
    (Some (Retriever.mkEmbeddingManager 384
             (fun _ _ _ _ => inl (JsError "fetch failed")))).

(** The initial store after two candidates about the user's home were
    processed, the first with confidence 0.2. *)
Definition first_home_db : DB :=
  fst (ClauseStore.processNewClause (lives_in "Seattle" (Some 0.2%Q)) 10 init).

Definition two_homes_db : DB :=
  fst (ClauseStore.processNewClause (lives_in "Denver" (Some 0.9%Q)) 20
         first_home_db).

(** The store of [home_db] after a second home was recorded through the
    engine's [create]. *)
Definition two_created_homes_db : DB :=
  Engine.exec (Engine.W_create (lives_in "Denver" (Some 0.9%Q))) 20 home_db.

(** The store of [two_homes_db] after one more write, and four writes
    that lift the confidence of its first clause from 0.2 to 0.7. *)
Definition lifted_db (w : Engine.Write) : DB := Engine.exec w 30 two_homes_db.

Definition lifts : list Engine.Write :=
  [Engine.W_update 0
     (ClauseStore.mkUpdates (Some 0.7%Q) None None None None);
   Engine.W_reinforce 0 0.5%Q;
   Engine.W_decay_reinforce 0 0.5%Q;
   Engine.W_adjustConfidence floor_config 0 0.7%Q "manual_adjustment"].

(** A store that holds one car clause, processed at time 0 and read at
    time 5. *)
Definition seen_db : DB :=
  Engine.exec (Engine.W_get 0) 5
    (Engine.exec (Engine.W_processNewClause (drives "a Volvo" (Some 0.9%Q)))
       0 init).

(** The store of [confident_db] after a second car was recorded at time
    10: two clauses and one pending conflict between them. *)
Definition rival_db : DB :=
  fst (ClauseStore.processNewClause (drives "a Saab" (Some 0.5%Q)) 10
         confident_db).

(** Its second clause and its conflict. *)
Definition saab_clause : Clause :=
  ClauseStore.new_clause (drives "a Saab" (Some 0.5%Q)) 10 1.

Definition rival_conflict : Conflict :=
  mkConflict 2 0 1 contradiction
    ("Conflicting values for user.drives: " ++ ClauseStore.dquote ++ "a Volvo"
       ++ ClauseStore.dquote ++ " vs " ++ ClauseStore.dquote ++ "a Saab"
       ++ ClauseStore.dquote)
    pending None None 10.

(** The same history, for a first clause whose metadata carries a
    [supersedes] value that is not an array. *)
Definition drives_flagged : ClauseInput :=
  mkInput fact "user" "drives" "a Volvo" "User drives a Volvo"
    (Some 0.9%Q) None None None (Some {["supersedes" := "true"]}) None None.

Definition flagged_clause : Clause := ClauseStore.new_clause drives_flagged 0 0.

Definition flagged_db : DB :=
  fst (ClauseStore.processNewClause (drives "a Saab" (Some 0.5%Q)) 10
         (fst (ClauseStore.processNewClause drives_flagged 0 init))).

End Scenario.

(** * Properties *)

(** ** Numbers *)

Module JsFacts.
Import Js.

Lemma leb_spec (x y : Q) : leb x y = true <-> (x <= y)%Q.
Proof. unfold leb. apply Qle_bool_iff. Qed.

Lemma ltb_spec (x y : Q) : ltb x y = true <-> (x < y)%Q.
Proof.
  unfold ltb. rewrite negb_true_iff.
  split; intros H.
  - apply Qnot_le_lt. intros Hle. apply Qle_bool_iff in Hle. congruence.
  - destruct (Qle_bool y x) eqn:E; [|reflexivity].
    apply Qle_bool_iff in E. exfalso. eapply Qlt_not_le; eauto.
Qed.

Lemma ltb_false (x y : Q) : ltb x y = false <-> (y <= x)%Q.
Proof.
  unfold ltb. rewrite negb_false_iff. apply Qle_bool_iff.
Qed.

Lemma leb_false (x y : Q) : leb x y = false <-> (y < x)%Q.
Proof.
  split; intros H.
  - apply Qnot_le_lt. intros Hle. apply leb_spec in Hle. congruence.
  - destruct (leb x y) eqn:E; [|reflexivity].
    apply leb_spec in E. exfalso. eapply Qlt_not_le; eauto.
Qed.

Lemma Math_max_lb_l (a b : Q) : (a <= Math_max a b)%Q.
Proof. apply Q.le_max_l. Qed.

Lemma Math_max_lb_r (a b : Q) : (b <= Math_max a b)%Q.
Proof. apply Q.le_max_r. Qed.

Lemma Math_max_lub (a b c : Q) :
  (a <= c)%Q -> (b <= c)%Q -> (Math_max a b <= c)%Q.
Proof. intros. apply Q.max_lub; assumption. Qed.

Lemma Math_min_le_l (a b : Q) : (Math_min a b <= a)%Q.
Proof. apply Q.le_min_l. Qed.

Lemma Math_min_glb (a b c : Q) :
  (c <= a)%Q -> (c <= b)%Q -> (c <= Math_min a b)%Q.
Proof. intros. apply Q.min_glb; assumption. Qed.

(** The clamp of [adjustConfidence] lands in [0,1]. *)
Lemma clamp_range (x : Q) :
  (0 <= Math_max 0 (Math_min 1 x) <= 1)%Q.
Proof.
  split.
  - apply Math_max_lb_l.
  - apply Math_max_lub; [discriminate | apply Math_min_le_l].
Qed.

Lemma artanh_series_nonneg (terms : nat) :
  forall (k : positive) (ypow ysq : Q),
    (0 <= ypow)%Q -> (0 <= ysq)%Q ->
    (0 <= artanh_series terms k ypow ysq)%Q.
Proof.
  induction terms as [|t IH]; intros k ypow ysq Hy Hs; simpl.
  - apply Qle_refl.
  - assert (H1 : (0 <= ypow / inject_Z (Z.pos k))%Q).
    { apply Qle_shift_div_l; [reflexivity | ].
      rewrite Qmult_0_l. exact Hy. }
    assert (H2 : (0 <= artanh_series t (k + 2) (ypow * ysq) ysq)%Q).
    { apply IH; [apply Qmult_le_0_compat; assumption | assumption]. }
    lra.
Qed.

(** [Math.log(count + 1) >= 0]. *)
Lemma Math_log_nonneg (n : nat) : (0 <= Math_log (n + 1))%Q.
Proof.
  unfold Math_log.
  set (x := inject_Z (Z.of_nat (n + 1))).
  assert (Hx : (1 <= x)%Q).
  { unfold x. rewrite <- (Zle_Qle 1). lia. }
  assert (Hy : (0 <= (x - 1) / (x + 1))%Q).
  { apply Qle_shift_div_l; [lra | lra]. }
  assert (Hs := artanh_series_nonneg 12 1 _ _ Hy
                  (Qmult_le_0_compat _ _ Hy Hy)).
  lra.
Qed.

(** [Math.log(1) = 0]. *)
Lemma Math_log_1 : (Math_log 1 == 0)%Q.
Proof. reflexivity. Qed.

End JsFacts.

(** ** Reasoning about database computations *)

Module DatabaseFacts.
Import Database.

Lemma succeeds_ret {A} (a : A) db (post : DB -> A -> Prop) :
  post db a -> succeeds (ret a) db post.
Proof. intros H. exists db, a. split; [reflexivity | exact H]. Qed.

Lemma succeeds_bind {A B} (m : Db A) (k : A -> Db B) db
    (post : DB -> B -> Prop) :
  succeeds m db (fun db' a => succeeds (k a) db' post) ->
  succeeds (bind m k) db post.
Proof.
  intros (db1 & a & Hm & db2 & b & Hk & Hpost).
  exists db2, b. split; [| exact Hpost].
  unfold bind. rewrite Hm. exact Hk.
Qed.

Lemma succeeds_weaken {A} (m : Db A) db (post post' : DB -> A -> Prop) :
  succeeds m db post ->
  (forall db' a, post db' a -> post' db' a) ->
  succeeds m db post'.
Proof.
  intros (db1 & a & Hm & Hp) Himp. exists db1, a. split; auto.
Qed.

Lemma succeeds_run {A} (m : Db A) db (post : DB -> A -> Prop) db' a :
  m db = (db', inr a) -> post db' a -> succeeds m db post.
Proof. intros. exists db', a. auto. Qed.

Lemma preserves_ret P {A} (a : A) : preserves P (ret a).
Proof. intros db H. exact H. Qed.

Lemma preserves_throw P {A} e : preserves P (@throw A e).
Proof. intros db H. exact H. Qed.

Lemma preserves_bind P {A B} (m : Db A) (k : A -> Db B) :
  preserves P m -> (forall a, preserves P (k a)) -> preserves P (bind m k).
Proof.
  intros Hm Hk db H. unfold bind.
  specialize (Hm db H). destruct (m db) as [db1 [e | a]]; simpl in *.
  - exact Hm.
  - apply Hk. exact Hm.
Qed.

Lemma preserves_for_each P {A} (xs : list A) (body : A -> Db unit) :
  (forall x, preserves P (body x)) -> preserves P (for_each xs body).
Proof.
  intros Hb. induction xs as [|x xs IH]; simpl.
  - apply preserves_ret.
  - apply preserves_bind; [apply Hb | intros _; exact IH].
Qed.

(** *** What each statement does when it is accepted *)

Lemma update_clauses_run where_ set_ db :
  (forall r, In r (clauses db) -> where_ r = true ->
             row_check (set_ r) = true) ->
  update_clauses where_ set_ db
  = (set_clauses (updated where_ set_ (clauses db)) db, inr tt).
Proof.
  intros H. unfold update_clauses.
  replace (forallb _ (clauses db)) with true; [reflexivity |].
  symmetry. apply forallb_forall. intros r Hr.
  destruct (where_ r) eqn:E; simpl; [apply H; assumption | reflexivity].
Qed.

Lemma update_clauses_cases where_ set_ db :
  (exists e, update_clauses where_ set_ db = (db, inl e))
  \/ (update_clauses where_ set_ db
      = (set_clauses (updated where_ set_ (clauses db)) db, inr tt)
      /\ forall r, In r (clauses db) -> where_ r = true ->
                   row_check (set_ r) = true).
Proof.
  unfold update_clauses.
  destruct (forallb _ (clauses db)) eqn:E.
  - right. split; [reflexivity |].
    intros r Hr Hw. rewrite forallb_forall in E.
    specialize (E r Hr). rewrite Hw in E. exact E.
  - left. eexists. reflexivity.
Qed.

Lemma insert_clause_run r db :
  row_check r = true ->
  insert_clause r db = (set_clauses (clauses db ++ [r]) db, inr tt).
Proof. intros H. unfold insert_clause. rewrite H. reflexivity. Qed.

Lemma has_clause_In i db :
  has_clause i db = true <-> exists r, In r (clauses db) /\ id r = i.
Proof.
  unfold has_clause. rewrite existsb_exists.
  split; intros (r & Hr & E); exists r; split; auto.
  - apply Nat.eqb_eq. exact E.
  - apply Nat.eqb_eq. exact E.
Qed.

Lemma existsb_ids i (rows : list ClauseRow) :
  existsb (fun r => Nat.eqb (id r) i) rows
  = existsb (fun n => Nat.eqb n i) (map id rows).
Proof.
  induction rows as [|r rows IH]; simpl; [reflexivity |].
  rewrite IH. reflexivity.
Qed.

Lemma has_clause_ids i db db' :
  map id (clauses db') = map id (clauses db) ->
  has_clause i db' = has_clause i db.
Proof.
  unfold has_clause. intros H. rewrite !existsb_ids, H. reflexivity.
Qed.

Lemma updated_ids where_ set_ rows :
  (forall r, id (set_ r) = id r) ->
  map id (updated where_ set_ rows) = map id rows.
Proof.
  intros H. unfold updated. rewrite map_map. apply map_ext.
  intros r. destruct (where_ r); auto.
Qed.

Lemma find_some_has i db r :
  List.find (fun r => Nat.eqb (id r) i) (clauses db) = Some r ->
  has_clause i db = true /\ In r (clauses db) /\ id r = i.
Proof.
  intros H. apply find_some in H. destruct H as [Hin E].
  apply Nat.eqb_eq in E. repeat split; auto.
  apply has_clause_In. exists r. auto.
Qed.

Lemma has_clause_find i db :
  has_clause i db = true ->
  exists r, List.find (fun r => Nat.eqb (id r) i) (clauses db) = Some r.
Proof.
  intros H. apply has_clause_In in H. destruct H as (r & Hr & E).
  destruct (List.find (fun r => Nat.eqb (id r) i) (clauses db)) eqn:F;
    [eauto |].
  exfalso. apply (find_none _ _ F) in Hr.
  apply Nat.eqb_neq in Hr. congruence.
Qed.

Lemma find_updated i set_ rows :
  (forall r, id (set_ r) = id r) ->
  List.find (fun r => Nat.eqb (id r) i)
    (updated (fun r => Nat.eqb (id r) i) set_ rows)
  = option_map set_ (List.find (fun r => Nat.eqb (id r) i) rows).
Proof.
  intros Hid. induction rows as [|r rows IH]; simpl; [reflexivity |].
  destruct (Nat.eqb (id r) i) eqn:E.
  - rewrite Hid, E. reflexivity.
  - rewrite E. exact IH.
Qed.

Lemma updated_updated where_ f g rows :
  (forall r, where_ (f r) = where_ r) ->
  updated where_ g (updated where_ f rows)
  = updated where_ (fun r => g (f r)) rows.
Proof.
  intros H. unfold updated. rewrite map_map. apply map_ext. intros r.
  destruct (where_ r) eqn:E.
  - rewrite H, E. reflexivity.
  - rewrite E. reflexivity.
Qed.

Lemma In_updated where_ set_ rows r' :
  In r' (updated where_ set_ rows) ->
  exists r, In r rows /\ r' = (if where_ r then set_ r else r).
Proof.
  unfold updated. intros H. apply in_map_iff in H.
  destruct H as (r & E & Hr). exists r. auto.
Qed.

Lemma row_check_spec r :
  row_check r = true
  <-> (0 <= confidence r)%Q /\ (confidence r <= 1)%Q /\ (0 <= decay_rate r)%Q.
Proof.
  unfold row_check. rewrite !andb_true_iff, !JsFacts.leb_spec. tauto.
Qed.

Lemma NoDup_ids_inj (rows : list ClauseRow) a b :
  List.NoDup (map id rows) -> In a rows -> In b rows -> id a = id b -> a = b.
Proof.
  induction rows as [|r rows IH]; simpl; intros Hnd Ha Hb E; [contradiction |].
  inversion Hnd as [|? ? Hnotin Hnd']; subst.
  destruct Ha as [-> | Ha], Hb as [-> | Hb]; auto.
  - exfalso. apply Hnotin. rewrite E. apply in_map. exact Hb.
  - exfalso. apply Hnotin. rewrite <- E. apply in_map. exact Ha.
Qed.

Lemma Forall2_updated (P : ClauseRow -> ClauseRow -> Prop) where_ set_ :
  forall l0 l,
    Forall2 P l0 l ->
    (forall r0 r, In r0 l0 -> P r0 r -> where_ r = true -> P r0 (set_ r)) ->
    Forall2 P l0 (updated where_ set_ l).
Proof.
  intros l0 l H. induction H as [|r0 r l0 l Hr Hl IH]; intros Hset; simpl.
  - constructor.
  - constructor.
    + destruct (where_ r) eqn:E; [| exact Hr].
      apply Hset; simpl; auto.
    + apply IH. intros r0' r' Hin. apply Hset. simpl. auto.
Qed.

Lemma firstn_In {A} n (l : list A) x : In x (firstn n l) -> In x l.
Proof.
  revert l. induction n as [|n IH]; intros [|y l]; simpl; try tauto.
  intros [-> | H]; auto.
Qed.

(** *** The CHECK constraints survive every statement *)

Lemma checks_update where_ set_ :
  preserves checks_hold (update_clauses where_ set_).
Proof.
  intros db H.
  destruct (update_clauses_cases where_ set_ db) as [[e E] | [E Hc]];
    rewrite E; simpl; [exact H |].
  unfold checks_hold in *. simpl. unfold updated.
  apply List.Forall_forall. intros r' Hr'. apply in_map_iff in Hr'.
  destruct Hr' as (r & <- & Hr). rewrite List.Forall_forall in H.
  destruct (where_ r) eqn:Ew; auto.
Qed.

Lemma checks_insert r : preserves checks_hold (insert_clause r).
Proof.
  intros db H. unfold insert_clause.
  destruct (row_check r) eqn:E; simpl; [| exact H].
  unfold checks_hold in *. simpl. apply Forall_app. split; auto.
Qed.

Lemma checks_frame {A} (m : Db A) :
  (forall db, clauses (fst (m db)) = clauses db) ->
  preserves checks_hold m.
Proof. intros H db Hc. unfold checks_hold. rewrite H. exact Hc. Qed.

Lemma clauses_uuidv7 db : clauses (fst (uuidv7 db)) = clauses db.
Proof. reflexivity. Qed.

Lemma clauses_select w db : clauses (fst (select_clauses w db)) = clauses db.
Proof. reflexivity. Qed.

Lemma clauses_get_clause i db : clauses (fst (get_clause i db)) = clauses db.
Proof. reflexivity. Qed.

Lemma clauses_insert_conflict c db :
  clauses (fst (insert_conflict c db)) = clauses db.
Proof. unfold insert_conflict, fk_error. destruct (_ && _); reflexivity. Qed.

Lemma clauses_insert_decay_log e db :
  clauses (fst (insert_decay_log e db)) = clauses db.
Proof. unfold insert_decay_log, fk_error. destruct (has_clause _ _); reflexivity. Qed.

Lemma clauses_insert_access_log e db :
  clauses (fst (insert_access_log e db)) = clauses db.
Proof. unfold insert_access_log, fk_error. destruct (has_clause _ _); reflexivity. Qed.

Lemma clauses_getMetadata k db : clauses (fst (getMetadata k db)) = clauses db.
Proof. reflexivity. Qed.

Lemma clauses_setMetadata k v db :
  clauses (fst (setMetadata k v db)) = clauses db.
Proof. reflexivity. Qed.

Lemma clauses_bump_counter k db :
  clauses (fst (bump_counter k db)) = clauses db.
Proof. reflexivity. Qed.

Create HintDb checks.

#[export] Hint Resolve preserves_ret preserves_throw checks_update
  checks_insert : checks.
#[export] Hint Extern 1 (preserves checks_hold uuidv7) =>
  apply checks_frame, clauses_uuidv7 : checks.
#[export] Hint Extern 1 (preserves checks_hold (select_clauses _)) =>
  apply checks_frame, clauses_select : checks.
#[export] Hint Extern 1 (preserves checks_hold (get_clause _)) =>
  apply checks_frame, clauses_get_clause : checks.
#[export] Hint Extern 1 (preserves checks_hold (insert_conflict _)) =>
  apply checks_frame, clauses_insert_conflict : checks.
#[export] Hint Extern 1 (preserves checks_hold (insert_decay_log _)) =>
  apply checks_frame, clauses_insert_decay_log : checks.
#[export] Hint Extern 1 (preserves checks_hold (insert_access_log _)) =>
  apply checks_frame, clauses_insert_access_log : checks.
#[export] Hint Extern 1 (preserves checks_hold (getMetadata _)) =>
  apply checks_frame, clauses_getMetadata : checks.
#[export] Hint Extern 1 (preserves checks_hold (setMetadata _ _)) =>
  apply checks_frame, clauses_setMetadata : checks.
#[export] Hint Extern 1 (preserves checks_hold (bump_counter _)) =>
  apply checks_frame, clauses_bump_counter : checks.

(** Walks a computation built from [bind], [match] and [if]. *)
Ltac preserve_checks :=
  repeat first
    [ apply preserves_bind; [| intros ? ]
    | apply preserves_for_each; intros ?
    | solve [ auto with checks ]
    | progress cbv zeta
    | match goal with
      | |- preserves _ (match ?x with _ => _ end) => destruct x
      | |- preserves _ (if ?b then _ else _) => destruct b
      end ].

(** Projections out of explicitly built database states. *)
Ltac db_simpl :=
  cbn [clauses conflicts decay_log access_log system_metadata uuid_counter
       set_clauses fst snd].

End DatabaseFacts.

(** ** The decay runner *)

Module DecayFacts.
Import Database DatabaseFacts DecayRunner.

Lemma decay_logDecay_run clauseId prev new_ reason_ now db :
  has_clause clauseId db = true ->
  logDecay clauseId prev new_ reason_ now db
  = (mkDB (clauses db) (conflicts db)
       (decay_log db
        ++ [mkDecayLog (uuid_counter db) clauseId prev new_ reason_ now])
       (access_log db) (system_metadata db) (S (uuid_counter db)),
     inr tt).
Proof.
  intros H. unfold logDecay, bind, uuidv7, insert_decay_log. simpl.
  unfold has_clause in *. simpl. rewrite H. reflexivity.
Qed.

(** The loop of a dry run leaves the database alone and tallies the rows
    it was given. *)
Lemma run_loop_dry config now rows :
  forall report db,
    run_loop config true now rows report db
    = (db,
       inr (mkReport
              (processed report + List.length rows)
              (decayed report
               + List.length (List.filter (decays config now) rows))
              (archived report
               + List.length (List.filter (archives config now) rows))
              (reinforced report) (timestamp report))).
Proof.
  induction rows as [|r rows IH]; intros report db; simpl.
  - unfold ret. rewrite !Nat.add_0_r. destruct report; reflexivity.
  - unfold decays, archives.
    destruct (Js.ltb (newConfidence now r) (minConfidence config)) eqn:Ea;
      simpl.
    + unfold bind. simpl. rewrite IH. simpl. unfold decays, archives.
      do 2 f_equal. f_equal; lia.
    + destruct (Js.ltb (newConfidence now r) (confidence r - 0.001)) eqn:Ed;
        simpl.
      * unfold bind. simpl. rewrite IH. simpl. unfold decays, archives.
        do 2 f_equal. f_equal; lia.
      * rewrite IH. simpl. unfold decays, archives.
        do 2 f_equal. f_equal; lia.
Qed.

(** C5.  A dry run returns its report and leaves the whole database (the
    clause rows, the conflict, decay and access logs, the metadata table
    and the id supply) exactly as it was, whatever the clock reads and
    whether or not decay is enabled; the report still counts every
    selected row and what a real run would have archived or decayed. *)
Theorem dry_run_changes_nothing (config : DecayConfig) (now : time) (db : DB) :
  exists report,
    run config true now db = (db, inr report)
    /\ processed report
       = List.length (List.filter (decaying config) (clauses db))
    /\ archived report
       = List.length (List.filter (archives config now)
                        (List.filter (decaying config) (clauses db)))
    /\ decayed report
       = List.length (List.filter (decays config now)
                        (List.filter (decaying config) (clauses db))).
Proof.
  unfold run. rewrite andb_false_r.
  unfold bind, select_clauses. rewrite run_loop_dry. simpl.
  eexists. split; [reflexivity |]. simpl. auto.
Qed.

(** C10.  For a clause that exists, [adjustConfidence] with a target whose
    clamp to [0,1] is below the configured floor returns normally, stores
    the clamped confidence, logs it under the caller's reason, and in the
    same call archives the clause: every row with that id gets
    [valid_to = now] (and the archive marker), and a second log entry
    with reason [archived_decay] is appended. *)
Theorem adjustConfidence_below_floor_archives
    (config : DecayConfig) (i : uuid) (x : Q) (reason_ : string) (now : time)
    (db : DB) (r0 : ClauseRow) :
  checks_hold db ->
  List.find (fun r => Nat.eqb (id r) i) (clauses db) = Some r0 ->
  (clamp x < minConfidence config)%Q ->
  exists db',
    adjustConfidence config i x reason_ now db = (db', inr tt)
    /\ clauses db'
       = updated (fun r => Nat.eqb (id r) i)
           (fun r => archived_row (clamp x) now (set_confidence (clamp x) r))
           (clauses db)
    /\ has_clause i db' = true
    /\ (forall r', In r' (clauses db') -> id r' = i ->
          valid_to r' = Some now /\ confidence r' = clamp x)
    /\ decay_log db'
       = (decay_log db
          ++ [mkDecayLog (uuid_counter db) i (confidence r0) (clamp x)
                reason_ now;
              mkDecayLog (S (uuid_counter db)) i (clamp x) (clamp x)
                "archived_decay" now])%list.
Proof.
  intros Hchecks Hfind Hlow.
  destruct (find_some_has _ _ _ Hfind) as (Hhas & Hin0 & Hid0).
  assert (Hrange := JsFacts.clamp_range x). fold (clamp x) in Hrange.
  assert (Hrow : forall r, In r (clauses db) -> (0 <= decay_rate r)%Q).
  { intros r Hr. unfold checks_hold in Hchecks.
    rewrite List.Forall_forall in Hchecks.
    apply Hchecks, row_check_spec in Hr. tauto. }
  unfold adjustConfidence. fold (clamp x).
  unfold bind at 1. unfold get_clause at 1. rewrite Hfind.
  unfold bind at 1.
  rewrite update_clauses_run.
  2:{ intros r Hr _. apply row_check_spec. simpl. split; [|split]; try tauto.
      apply Hrow, Hr. }
  unfold bind at 1.
  rewrite decay_logDecay_run.
  2:{ erewrite has_clause_ids; [exact Hhas |]. simpl.
      apply updated_ids. reflexivity. }
  apply JsFacts.ltb_spec in Hlow. rewrite Hlow.
  db_simpl. unfold archiveClause.
  unfold bind at 1.
  rewrite update_clauses_run.
  2:{ db_simpl. intros r Hr _. apply In_updated in Hr.
      destruct Hr as (r1 & Hr1 & ->). apply row_check_spec.
      destruct (Nat.eqb (id r1) i); simpl; (split; [|split]); try tauto;
        apply Hrow, Hr1. }
  db_simpl.
  rewrite updated_updated by reflexivity.
  unfold bind at 1. unfold get_clause at 1. db_simpl.
  rewrite find_updated by reflexivity. rewrite Hfind. cbn [option_map].
  rewrite decay_logDecay_run.
  2:{ erewrite has_clause_ids; [exact Hhas |]. db_simpl.
      apply updated_ids. reflexivity. }
  eexists. split; [reflexivity |]. db_simpl.
  split; [reflexivity |].
  split.
  { erewrite has_clause_ids; [exact Hhas |]. db_simpl.
    apply updated_ids. reflexivity. }
  split.
  { intros r' Hr' Hid'. apply In_updated in Hr'.
    destruct Hr' as (r1 & Hr1 & ->).
    destruct (Nat.eqb (id r1) i) eqn:E.
    - simpl. auto.
    - apply Nat.eqb_neq in E. contradiction. }
  rewrite <- app_assoc. reflexivity.
Qed.

(** C4 (as stated).  With confidence 0.15, decay rate 0.05, 90 days since
    the last access, no reinforcement and floor 0.1, a real run does not
    archive the clause. *)
Lemma scenario_90_days_not_archived :
  ~ (exists db' report,
       run Scenario.floor_config false (90 * Scenario.day)%Z Scenario.stale_db
       = (db', inr report)
       /\ archived report = 1
       /\ (forall r, In r (clauses db') -> valid_to r <> None)).
Proof.
  intros (db' & report & Hrun & Harch & _).
  vm_compute in Hrun. injection Hrun as _ <-. discriminate Harch.
Qed.

(** C4 (amended).  In that scenario the new confidence is
    [0.15 - 0.15 * 0.05 * 3 = 0.1275], not below the floor 0.1: the run
    counts the clause in [decayed], stores 0.1275 and leaves [valid_to]
    null.  With 210 days since the last access the new confidence is
    0.0975, and then the clause is archived: [valid_to] is set and the
    report counts it in [archived]. *)
Theorem decay_scenario :
  (exists db' r,
     run Scenario.floor_config false (90 * Scenario.day)%Z Scenario.stale_db
     = (db', inr (mkReport 1 1 0 0 (90 * Scenario.day)%Z))
     /\ clauses db' = [r]
     /\ valid_to r = None
     /\ (confidence r == 0.1275)%Q)
  /\ (exists db' r,
        run Scenario.floor_config false (210 * Scenario.day)%Z
          Scenario.stale_db
        = (db', inr (mkReport 1 0 1 0 (210 * Scenario.day)%Z))
        /\ clauses db' = [r]
        /\ valid_to r = Some (210 * Scenario.day)%Z
        /\ (confidence r == 0.0975)%Q).
Proof.
  split.
  - eexists. eexists. split; [vm_compute; reflexivity |].
    split; [reflexivity |]. split; [reflexivity |].
    vm_compute. reflexivity.
  - eexists. eexists. split; [vm_compute; reflexivity |].
    split; [reflexivity |]. split; [reflexivity |].
    vm_compute. reflexivity.
Qed.

(** *** Monotonicity of decay *)

Lemma newConfidence_bounds now r :
  (0 <= confidence r)%Q -> (0 <= decay_rate r)%Q ->
  (0 <= newConfidence now r)%Q /\ (newConfidence now r <= confidence r)%Q.
Proof.
  intros Hc Hd. unfold newConfidence.
  set (days := Js.Math_max 0 (inject_Z (now - last_accessed r) / ms_per_day)).
  set (den := (1 + Js.Math_log (reinforcement_count r + 1))%Q).
  assert (Hdays : (0 <= days)%Q) by apply JsFacts.Math_max_lb_l.
  assert (Hden : (0 < den)%Q).
  { unfold den. pose proof (JsFacts.Math_log_nonneg (reinforcement_count r)).
    lra. }
  assert (Hrate : (0 <= decay_rate r / den)%Q).
  { apply Qle_shift_div_l; [exact Hden | lra]. }
  assert (Htf : (0 <= days / 30)%Q).
  { apply Qle_shift_div_l; [reflexivity | lra]. }
  assert (Hamount : (0 <= confidence r * (decay_rate r / den) * (days / 30))%Q).
  { apply Qmult_le_0_compat; [apply Qmult_le_0_compat |]; assumption. }
  split.
  - apply JsFacts.Math_max_lb_l.
  - apply JsFacts.Math_max_lub; lra.
Qed.

Lemma decayed_from_ids l0 l :
  Forall2 decayed_from l0 l -> map id l = map id l0.
Proof.
  induction 1 as [|r0 r l0 l (E & _) _ IH]; simpl; [reflexivity |].
  rewrite E, IH. reflexivity.
Qed.

Lemma decayed_from_checks l0 l :
  Forall (fun r => row_check r = true) l0 ->
  Forall2 decayed_from l0 l ->
  Forall (fun r => row_check r = true) l.
Proof.
  intros H0 H. induction H as [|r0 r l0 l (E & Ed & Hc0 & Hc) _ IH].
  - constructor.
  - inversion H0 as [|? ? Hr0 H0']; subst. constructor; [| auto].
    apply row_check_spec in Hr0. apply row_check_spec.
    rewrite Ed. split; [exact Hc0 |]. split; [lra | tauto].
Qed.

Lemma decayed_from_refl l :
  Forall (fun r => row_check r = true) l -> Forall2 decayed_from l l.
Proof.
  induction 1 as [|r l Hr _ IH]; constructor; [| exact IH].
  apply row_check_spec in Hr. unfold decayed_from.
  repeat split; try tauto. apply Qle_refl.
Qed.

(** One write of the loop: the rows with the fetched row's id get a
    confidence no larger than the fetched one. *)
Lemma decay_write_keeps db0 db s c set_ :
  wf db0 -> In s (clauses db0) ->
  Forall2 decayed_from (clauses db0) (clauses db) ->
  (0 <= c)%Q -> (c <= confidence s)%Q ->
  (forall r, id (set_ r) = id r /\ decay_rate (set_ r) = decay_rate r
             /\ confidence (set_ r) = c) ->
  update_clauses (fun r => Nat.eqb (id r) (id s)) set_ db
  = (set_clauses (updated (fun r => Nat.eqb (id r) (id s)) set_ (clauses db)) db,
     inr tt)
  /\ Forall2 decayed_from (clauses db0)
       (updated (fun r => Nat.eqb (id r) (id s)) set_ (clauses db))
  /\ has_clause (id s) db = true.
Proof.
  intros Hwf Hs Hinv Hc0 Hc Hset.
  destruct Hwf as [Hchecks Hnd _].
  assert (Hs1 : (confidence s <= 1)%Q).
  { unfold checks_hold in Hchecks. rewrite List.Forall_forall in Hchecks.
    apply Hchecks, row_check_spec in Hs. tauto. }
  assert (Hchecks' := decayed_from_checks _ _ Hchecks Hinv).
  split; [| split].
  - apply update_clauses_run. intros r Hr _.
    rewrite List.Forall_forall in Hchecks'.
    apply Hchecks', row_check_spec in Hr.
    destruct (Hset r) as (_ & Ed & Ec).
    apply row_check_spec. rewrite Ed, Ec. split; [exact Hc0 |].
    split; [lra | tauto].
  - apply Forall2_updated; [exact Hinv |].
    intros r0 r Hr0 (E & Ed & H0 & Hle) Hw.
    apply Nat.eqb_eq in Hw.
    destruct (Hset r) as (Ei & Ed' & Ec).
    assert (r0 = s) as ->.
    { eapply NoDup_ids_inj; eauto. congruence. }
    unfold decayed_from. rewrite Ei, Ed', Ec. auto.
  - apply has_clause_In.
    assert (Hids := decayed_from_ids _ _ Hinv).
    assert (Hin : In (id s) (map id (clauses db))).
    { rewrite Hids. apply in_map. exact Hs. }
    apply in_map_iff in Hin. destruct Hin as (r & E & Hr). eauto.
Qed.

Lemma archiveClause_keeps db0 db s c now :
  wf db0 -> In s (clauses db0) ->
  Forall2 decayed_from (clauses db0) (clauses db) ->
  (0 <= c)%Q -> (c <= confidence s)%Q ->
  exists db',
    archiveClause (id s) c now db = (db', inr tt)
    /\ Forall2 decayed_from (clauses db0) (clauses db')
    /\ uuid_counter db <= uuid_counter db'.
Proof.
  intros Hwf Hs Hinv Hc0 Hc.
  destruct (decay_write_keeps db0 db s c (archived_row c now)
              Hwf Hs Hinv Hc0 Hc) as (Hupd & Hinv' & Hhas).
  { intros r. repeat split. }
  unfold archiveClause. unfold bind at 1.
  change (fun r : ClauseRow =>
            set_metadata
              (<["archived_reason" := "confidence_decay"]> (metadata r))
              (set_confidence c (set_valid_to (Some now) r)))
    with (archived_row c now).
  rewrite Hupd. unfold bind at 1. unfold get_clause at 1. db_simpl.
  assert (Hhas' :
    has_clause (id s)
      (set_clauses
         (updated (fun r => Nat.eqb (id r) (id s)) (archived_row c now)
            (clauses db)) db) = true).
  { erewrite has_clause_ids; [exact Hhas |]. db_simpl.
    apply updated_ids. reflexivity. }
  destruct (has_clause_find _ _ Hhas') as (r & Hfind).
  cbn [clauses set_clauses] in Hfind. rewrite Hfind.
  rewrite decay_logDecay_run by exact Hhas'.
  eexists. split; [reflexivity |]. db_simpl. split; [exact Hinv' | lia].
Qed.

Lemma applyDecay_keeps db0 db s c now :
  wf db0 -> In s (clauses db0) ->
  Forall2 decayed_from (clauses db0) (clauses db) ->
  (0 <= c)%Q -> (c <= confidence s)%Q ->
  exists db',
    applyDecay (id s) (confidence s) c now db = (db', inr tt)
    /\ Forall2 decayed_from (clauses db0) (clauses db')
    /\ uuid_counter db <= uuid_counter db'.
Proof.
  intros Hwf Hs Hinv Hc0 Hc.
  destruct (decay_write_keeps db0 db s c (set_confidence c)
              Hwf Hs Hinv Hc0 Hc) as (Hupd & Hinv' & Hhas).
  { intros r. repeat split. }
  unfold applyDecay. unfold bind at 1. rewrite Hupd.
  rewrite decay_logDecay_run.
  2:{ erewrite has_clause_ids; [exact Hhas |]. db_simpl.
      apply updated_ids. reflexivity. }
  eexists. split; [reflexivity |]. db_simpl. split; [exact Hinv' | lia].
Qed.

(** The loop of a real run over rows fetched from [db0]. *)
Lemma run_loop_keeps config now db0 rows :
  wf db0 ->
  Forall (fun s => In s (clauses db0)) rows ->
  forall report db,
    Forall2 decayed_from (clauses db0) (clauses db) ->
    exists db' report',
      run_loop config false now rows report db = (db', inr report')
      /\ Forall2 decayed_from (clauses db0) (clauses db')
      /\ uuid_counter db <= uuid_counter db'.
Proof.
  intros Hwf Hrows.
  induction Hrows as [|s rows Hs _ IH]; intros report db Hinv.
  - exists db, report. simpl. auto.
  - assert (Hb : (0 <= newConfidence now s)%Q
                 /\ (newConfidence now s <= confidence s)%Q).
    { destruct Hwf as [Hchecks _ _]. unfold checks_hold in Hchecks.
      rewrite List.Forall_forall in Hchecks.
      apply Hchecks, row_check_spec in Hs.
      apply newConfidence_bounds; tauto. }
    destruct Hb as [Hb0 Hb1].
    cbn [run_loop].
    destruct (Js.ltb (newConfidence now s) (minConfidence config)).
    + destruct (archiveClause_keeps db0 db s _ now Hwf Hs Hinv Hb0 Hb1)
        as (db1 & Harch & Hinv1 & Hle1).
      unfold bind at 1. cbn [unless_dry]. rewrite Harch.
      destruct (IH (incr_archived (incr_processed report)) db1 Hinv1)
        as (db2 & report2 & Hrun & Hinv2 & Hle2).
      exists db2, report2. split; [exact Hrun |]. split; [exact Hinv2 | lia].
    + destruct (Js.ltb (newConfidence now s) (confidence s - 0.001)).
      * destruct (applyDecay_keeps db0 db s _ now Hwf Hs Hinv Hb0 Hb1)
          as (db1 & Happ & Hinv1 & Hle1).
        unfold bind at 1. cbn [unless_dry]. rewrite Happ.
        destruct (IH (incr_decayed (incr_processed report)) db1 Hinv1)
          as (db2 & report2 & Hrun & Hinv2 & Hle2).
        exists db2, report2. split; [exact Hrun |]. split; [exact Hinv2 | lia].
      * apply IH. exact Hinv.
Qed.

(** C9.  On a store that satisfies the schema's constraints, a real decay
    run returns its report and leaves every clause row with a confidence
    no larger than before (rows keep their position and id); the
    constraints hold again afterwards, so the same is true of every
    further run. *)
Theorem decay_run_never_raises_confidence
    (config : DecayConfig) (now : time) (db : DB) :
  wf db ->
  exists db' report,
    run config false now db = (db', inr report)
    /\ wf db'
    /\ Forall2
         (fun r r' => id r' = id r /\ (confidence r' <= confidence r)%Q)
         (clauses db) (clauses db').
Proof.
  intros Hwf.
  assert (Hrefl : Forall2 decayed_from (clauses db) (clauses db)).
  { apply decayed_from_refl. apply Hwf. }
  assert (Hgoal : forall db' (report : DecayReport),
            Forall2 decayed_from (clauses db) (clauses db') ->
            uuid_counter db <= uuid_counter db' ->
            wf db'
            /\ Forall2
                 (fun r r' => id r' = id r /\ (confidence r' <= confidence r)%Q)
                 (clauses db) (clauses db')).
  { intros db' _ Hinv Hle. split.
    - destruct Hwf as [Hchecks Hnd Hfresh]. constructor.
      + eapply decayed_from_checks; eauto.
      + rewrite (decayed_from_ids _ _ Hinv). exact Hnd.
      + clear - Hinv Hfresh Hle.
        induction Hinv as [|r0 r l0 l (E & _) _ IH]; [constructor |].
        inversion Hfresh; subst. constructor; [lia | auto].
    - eapply Forall2_impl; [exact Hinv |].
      intros r0 r (E & _ & _ & Hc). auto. }
  unfold run. destruct (negb (enabled config) && negb false) eqn:Eoff.
  - exists db, (mkReport 0 0 0 0 now). split; [reflexivity |].
    apply (Hgoal db (mkReport 0 0 0 0 now)); auto.
  - unfold bind at 1. unfold select_clauses at 1.
    destruct (run_loop_keeps config now db
                (List.filter (decaying config) (clauses db)) Hwf)
      with (report := mkReport 0 0 0 0 now) (db := db)
      as (db1 & report1 & Hrun & Hinv1 & Hle1).
    { apply List.Forall_forall. intros s Hs. apply filter_In in Hs. tauto. }
    { exact Hrefl. }
    unfold bind at 1. rewrite Hrun.
    exists (fst (setMetadata "last_decay_run" (toISOString now) db1)), report1.
    split; [reflexivity |].
    apply (Hgoal _ report1); [exact Hinv1 | exact Hle1].
Qed.

(** *** The CHECK constraints survive the runner's operations *)

Lemma checks_decay_logDecay i p n r now :
  preserves checks_hold (logDecay i p n r now).
Proof. unfold logDecay. preserve_checks. Qed.

Lemma checks_archiveClause i c now :
  preserves checks_hold (archiveClause i c now).
Proof.
  unfold archiveClause. apply preserves_bind; [auto with checks | intros _].
  apply preserves_bind; [auto with checks |].
  intros [clause |]; [apply checks_decay_logDecay | auto with checks].
Qed.

Lemma checks_applyDecay i o n now :
  preserves checks_hold (applyDecay i o n now).
Proof.
  unfold applyDecay. apply preserves_bind; [auto with checks | intros _].
  apply checks_decay_logDecay.
Qed.

Lemma checks_run_loop config dryRun now rows :
  forall report, preserves checks_hold (run_loop config dryRun now rows report).
Proof.
  induction rows as [|s rows IH]; intros report; cbn [run_loop].
  - auto with checks.
  - destruct (Js.ltb _ _).
    + apply preserves_bind; [| intros _; apply IH].
      unfold unless_dry. destruct dryRun;
        [auto with checks | apply checks_archiveClause].
    + destruct (Js.ltb _ _); [| apply IH].
      apply preserves_bind; [| intros _; apply IH].
      unfold unless_dry. destruct dryRun;
        [auto with checks | apply checks_applyDecay].
Qed.

Lemma checks_run config dryRun now :
  preserves checks_hold (run config dryRun now).
Proof.
  unfold run. destruct (_ && _); [auto with checks |].
  apply preserves_bind; [auto with checks | intros rows].
  apply preserves_bind; [apply checks_run_loop | intros report].
  apply preserves_bind; [| auto with checks].
  unfold unless_dry. destruct dryRun; auto with checks.
Qed.

Lemma checks_decay_reinforce i a now : preserves checks_hold (reinforce i a now).
Proof.
  unfold reinforce. apply preserves_bind; [auto with checks |].
  intros [clause |]; [| auto with checks].
  apply preserves_bind; [auto with checks | intros _].
  apply preserves_bind; [apply checks_decay_logDecay | auto with checks].
Qed.

Lemma checks_adjustConfidence config i c r now :
  preserves checks_hold (adjustConfidence config i c r now).
Proof.
  unfold adjustConfidence. apply preserves_bind; [auto with checks |].
  intros [clause |]; [| auto with checks].
  apply preserves_bind; [auto with checks | intros _].
  apply preserves_bind; [apply checks_decay_logDecay | intros _].
  destruct (Js.ltb _ _); [apply checks_archiveClause | auto with checks].
Qed.

(** The stale clause's store satisfies the schema's constraints. *)
Lemma stale_db_wf : wf Scenario.stale_db.
Proof.
  constructor.
  - constructor; [reflexivity | constructor].
  - constructor; [intros [] | constructor].
  - constructor; [simpl; lia | constructor].
Qed.

(** The monotonicity theorem at the stale clause's store, 90 days on. *)
Lemma decay_run_never_raises_confidence_witness :
  wf Scenario.stale_db
  /\ exists db' report,
       run Scenario.floor_config false (90 * Scenario.day)%Z Scenario.stale_db
       = (db', inr report)
       /\ wf db'
       /\ Forall2
            (fun r r' => id r' = id r /\ (confidence r' <= confidence r)%Q)
            (clauses Scenario.stale_db) (clauses db').
Proof.
  split.
  - exact stale_db_wf.
  - exact (decay_run_never_raises_confidence Scenario.floor_config
             (90 * Scenario.day)%Z Scenario.stale_db stale_db_wf).
Defined.

(** Adjusting the stale clause's confidence to -1 (clamped to 0, below the
    floor 0.1) archives it. *)
Lemma adjustConfidence_below_floor_archives_witness :
  checks_hold Scenario.stale_db
  /\ List.find (fun r => Nat.eqb (id r) 0) (clauses Scenario.stale_db)
     = Some Scenario.stale_clause
  /\ (clamp (-1) < minConfidence Scenario.floor_config)%Q
  /\ exists db',
       adjustConfidence Scenario.floor_config 0 (-1) "manual_adjustment" 50
         Scenario.stale_db = (db', inr tt)
       /\ has_clause 0 db' = true
       /\ (forall r', In r' (clauses db') -> id r' = 0 ->
             valid_to r' = Some 50%Z /\ confidence r' = clamp (-1)).
Proof.
  assert (H1 : checks_hold Scenario.stale_db).
  { constructor; [reflexivity | constructor]. }
  assert (H2 : List.find (fun r => Nat.eqb (id r) 0)
                 (clauses Scenario.stale_db) = Some Scenario.stale_clause).
  { reflexivity. }
  assert (H3 : (clamp (-1) < minConfidence Scenario.floor_config)%Q).
  { reflexivity. }
  split; [exact H1 |]. split; [exact H2 |]. split; [exact H3 |].
  destruct (adjustConfidence_below_floor_archives Scenario.floor_config 0
              (-1) "manual_adjustment" 50 Scenario.stale_db
              Scenario.stale_clause H1 H2 H3)
    as (db' & Hrun & _ & Hhas & Hrows & _).
  exists db'. auto.
Defined.

End DecayFacts.

(** ** The clause store *)

Module ClauseFacts.
Import Database DatabaseFacts ClauseStore.

Lemma checks_logDecay i p n r now : preserves checks_hold (logDecay i p n r now).
Proof. unfold logDecay. preserve_checks. Qed.

Lemma checks_logAccess i t c now : preserves checks_hold (logAccess i t c now).
Proof. unfold logAccess. preserve_checks. Qed.

Lemma checks_create input now : preserves checks_hold (create input now).
Proof. unfold create. preserve_checks. Qed.

Lemma checks_get i now : preserves checks_hold (get i now).
Proof. unfold get. preserve_checks. Qed.

Lemma checks_update_op i u now : preserves checks_hold (update i u now).
Proof.
  unfold update. apply preserves_bind; [apply checks_get |].
  intros [existing |]; [| auto with checks].
  destruct (no_updates u); [auto with checks |].
  apply preserves_bind; [auto with checks | intros _; apply checks_get].
Qed.

Lemma checks_invalidate i r now : preserves checks_hold (invalidate i r now).
Proof. unfold invalidate. auto with checks. Qed.

Lemma checks_reinforce i a now : preserves checks_hold (reinforce i a now).
Proof.
  unfold reinforce. apply preserves_bind; [apply checks_get |].
  intros [clause |]; [| auto with checks].
  apply preserves_bind; [auto with checks | intros _].
  apply preserves_bind; [apply checks_logDecay | intros _].
  apply checks_logAccess.
Qed.

Lemma checks_createConflict a b now :
  preserves checks_hold (createConflict a b now).
Proof. unfold createConflict. preserve_checks. Qed.

Lemma checks_processNewClause input now :
  preserves checks_hold (processNewClause input now).
Proof.
  unfold processNewClause.
  apply preserves_bind; [auto with checks |].
  intros [| oldRow rest].
  - apply preserves_bind; [apply checks_create | auto with checks].
  - destruct (analyzeRelation (rowToClause oldRow) input).
    + apply preserves_bind; [apply checks_reinforce | auto with checks].
    + apply preserves_bind; [apply checks_invalidate | intros _].
      apply preserves_bind; [apply checks_create | auto with checks].
    + apply preserves_bind; [apply checks_create | intros c].
      apply preserves_bind; [apply checks_createConflict | auto with checks].
    + apply preserves_bind; [apply checks_create | auto with checks].
Qed.

(** *** What [create] does *)

Lemma create_accepted input now db :
  row_check (new_clause input now (uuid_counter db)) = true ->
  exists db',
    create input now db = (db', inr (new_clause input now (uuid_counter db)))
    /\ clauses db' = (clauses db ++ [new_clause input now (uuid_counter db)])%list
    /\ uuid_counter db' = S (uuid_counter db)
    /\ conflicts db' = conflicts db.
Proof.
  intros H. unfold create, bind, uuidv7, insert_clause. db_simpl.
  rewrite H. eexists. split; [reflexivity |]. db_simpl. auto.
Qed.

Lemma create_rejected input now db :
  row_check (new_clause input now (uuid_counter db)) = false ->
  exists db' e,
    create input now db = (db', inl e)
    /\ clauses db' = clauses db
    /\ uuid_counter db' = S (uuid_counter db)
    /\ conflicts db' = conflicts db.
Proof.
  intros H. unfold create, bind, uuidv7, insert_clause. db_simpl.
  rewrite H. eexists. eexists. split; [reflexivity |]. db_simpl. auto.
Qed.

(** *** [invalidate] *)

(** C3 (as stated).  Invalidating a clause that is already invalid does
    not leave [valid_to] unchanged: the clause retired at time 100 carries
    [valid_to = 200] after a second [invalidate] at time 200. *)
Lemma second_invalidate_moves_valid_to :
  map valid_to (clauses Scenario.retired_db) = [Some 100%Z]
  /\ map valid_to
       (clauses (fst (invalidate 0 (Some "again") 200 Scenario.retired_db)))
     = [Some 200%Z].
Proof. split; vm_compute; reflexivity. Qed.

(** C3 (amended).  [invalidate] is a one-way transition: on a store that
    satisfies the schema's constraints it returns normally, every row with
    the given id ends with [valid_to = now] and the given reason (default
    ["invalidated"]), all other rows are untouched, and no row that was
    invalid becomes active again.  It is not idempotent: an already
    invalid clause has its [valid_to] and reason overwritten. *)
Theorem invalidate_is_one_way
    (i : uuid) (reason_ : option string) (now : time) (db : DB) :
  checks_hold db ->
  exists db',
    invalidate i reason_ now db = (db', inr tt)
    /\ Forall2
         (fun r r' =>
            id r' = id r
            /\ (valid_to r <> None -> valid_to r' <> None)
            /\ (id r = i ->
                valid_to r' = Some now
                /\ metadata r' !! "invalidation_reason"
                   = Some (orElse reason_ "invalidated"))
            /\ (id r <> i -> r' = r))
         (clauses db) (clauses db').
Proof.
  intros Hchecks. unfold invalidate.
  rewrite update_clauses_run.
  2:{ intros r Hr _. unfold checks_hold in Hchecks.
      rewrite List.Forall_forall in Hchecks. apply Hchecks in Hr.
      exact Hr. }
  eexists. split; [reflexivity |]. db_simpl.
  clear Hchecks. induction (clauses db) as [|r rows IH]; simpl.
  - constructor.
  - constructor; [| exact IH].
    destruct (Nat.eqb (id r) i) eqn:E.
    + apply Nat.eqb_eq in E. simpl. repeat split; try congruence.
      apply lookup_insert_eq.
    + apply Nat.eqb_neq in E. repeat split; try congruence; tauto.
Qed.

(** *** The operations on a store that satisfies the constraints *)

Lemma checks_In db r : checks_hold db -> In r (clauses db) -> row_check r = true.
Proof.
  unfold checks_hold. rewrite List.Forall_forall. auto.
Qed.

Lemma invalidate_run i reason_ now db :
  checks_hold db ->
  invalidate i reason_ now db
  = (set_clauses
       (updated (fun r => Nat.eqb (id r) i) (invalidated_row reason_ now)
          (clauses db)) db,
     inr tt).
Proof.
  intros H. unfold invalidate. apply update_clauses_run.
  intros r Hr _. exact (checks_In db r H Hr).
Qed.

Lemma get_run i now db r0 :
  checks_hold db ->
  List.find (fun r => Nat.eqb (id r) i) (clauses db) = Some r0 ->
  get i now db
  = (set_clauses
       (updated (fun r => Nat.eqb (id r) i) (touch now) (clauses db)) db,
     inr (Some r0)).
Proof.
  intros H Hfind. unfold get. unfold bind at 1. unfold get_clause.
  rewrite Hfind. unfold bind.
  rewrite update_clauses_run; [reflexivity |].
  intros r Hr _. exact (checks_In db r H Hr).
Qed.

Lemma logDecay_run clauseId prev new_ reason_ now db :
  has_clause clauseId db = true ->
  logDecay clauseId prev new_ reason_ now db
  = (mkDB (clauses db) (conflicts db)
       (decay_log db
        ++ [mkDecayLog (uuid_counter db) clauseId prev new_ reason_ now])
       (access_log db) (system_metadata db) (S (uuid_counter db)),
     inr tt).
Proof.
  intros H. unfold logDecay, bind, uuidv7, insert_decay_log. simpl.
  unfold has_clause in *. simpl. rewrite H. reflexivity.
Qed.

Lemma logAccess_run clauseId accessType context_ now db :
  has_clause clauseId db = true ->
  logAccess clauseId accessType context_ now db
  = (mkDB (clauses db) (conflicts db) (decay_log db)
       (access_log db
        ++ [mkAccessLog (uuid_counter db) clauseId accessType context_ now])
       (system_metadata db) (S (uuid_counter db)),
     inr tt).
Proof.
  intros H. unfold logAccess, bind, uuidv7, insert_access_log. simpl.
  unfold has_clause in *. simpl. rewrite H. reflexivity.
Qed.

Lemma reinforce_run i amount now db r0 :
  checks_hold db ->
  List.find (fun r => Nat.eqb (id r) i) (clauses db) = Some r0 ->
  (0 <= confidence r0 + amount)%Q ->
  exists db',
    reinforce i amount now db = (db', inr tt)
    /\ clauses db'
       = updated (fun r => Nat.eqb (id r) i)
           (fun r =>
              reinforced_row (Js.Math_min 1 (confidence r0 + amount)) now
                (touch now r))
           (clauses db)
    /\ uuid_counter db' = S (S (uuid_counter db))
    /\ conflicts db' = conflicts db.
Proof.
  intros Hchecks Hfind Hpos.
  destruct (find_some_has _ _ _ Hfind) as (Hhas & _ & _).
  unfold reinforce. unfold bind at 1. rewrite (get_run _ _ _ _ Hchecks Hfind).
  unfold bind at 1.
  rewrite update_clauses_run.
  2:{ db_simpl. intros r Hr _. apply In_updated in Hr.
      destruct Hr as (r1 & Hr1 & ->).
      assert (H1 := checks_In db r1 Hchecks Hr1).
      apply row_check_spec in H1. apply row_check_spec.
      assert (Hmin : (0 <= Js.Math_min 1 (confidence r0 + amount))%Q)
        by (apply JsFacts.Math_min_glb; [discriminate | exact Hpos]).
      assert (Hmax : (Js.Math_min 1 (confidence r0 + amount) <= 1)%Q)
        by apply JsFacts.Math_min_le_l.
      destruct (Nat.eqb (id r1) i); simpl; tauto. }
  db_simpl. rewrite updated_updated by reflexivity.
  unfold bind at 1.
  rewrite logDecay_run.
  2:{ erewrite has_clause_ids; [exact Hhas |]. db_simpl.
      apply updated_ids. reflexivity. }
  rewrite logAccess_run.
  2:{ erewrite has_clause_ids; [exact Hhas |]. db_simpl.
      apply updated_ids. reflexivity. }
  eexists. split; [reflexivity |]. db_simpl. auto.
Qed.

Lemma createConflict_run a b now db :
  has_clause (id a) db = true -> has_clause (id b) db = true ->
  exists db' conflict,
    createConflict a b now db = (db', inr conflict)
    /\ conflict
       = mkConflict (uuid_counter db) (id a) (id b) contradiction
           ("Conflicting values for " ++ subject a ++ "." ++ predicate a
              ++ ": " ++ dquote ++ object a ++ dquote ++ " vs " ++ dquote
              ++ object b ++ dquote)
           pending None None now
    /\ clauses db' = clauses db
    /\ conflicts db' = (conflicts db ++ [conflict])%list
    /\ uuid_counter db' = S (uuid_counter db).
Proof.
  intros Ha Hb. unfold createConflict, bind, uuidv7, insert_conflict.
  db_simpl. unfold has_clause in *. db_simpl. cbn [clause_a_id clause_b_id].
  rewrite Ha, Hb. cbn [andb].
  eexists. eexists. split; [reflexivity |]. db_simpl. auto.
Qed.

Lemma filter_head_In {A} (f : A -> bool) l x rest :
  List.filter f l = x :: rest -> In x l /\ f x = true.
Proof.
  intros H. apply filter_In. rewrite H. left. reflexivity.
Qed.

Lemma conflicting_spec input r :
  conflicting input r = true ->
  subject r = in_subject input /\ predicate r = in_predicate input
  /\ valid_to r = None /\ (0.3 < confidence r)%Q.
Proof.
  unfold conflicting, visible, active_for, is_active.
  rewrite !andb_true_iff, !String.eqb_eq, JsFacts.ltb_spec.
  destruct (valid_to r); intuition congruence.
Qed.



(** *** What [processNewClause] does to the clause table *)

Lemma create_effect input now db :
  let k := new_clause input now (uuid_counter db) in
  uuid_counter (fst (create input now db)) = S (uuid_counter db)
  /\ clauses (fst (create input now db))
     = (clauses db ++ (if row_check k then [k] else []))%list.
Proof.
  cbv zeta.
  destruct (row_check (new_clause input now (uuid_counter db))) eqn:E.
  - destruct (create_accepted input now db E) as (db' & -> & Hcl & Hc & _).
    cbn [fst]. auto.
  - destruct (create_rejected input now db E)
      as (db' & e & -> & Hcl & Hc & _).
    cbn [fst]. rewrite app_nil_r. auto.
Qed.

Lemma createConflict_effect a b now db :
  uuid_counter (fst (createConflict a b now db)) = S (uuid_counter db)
  /\ clauses (fst (createConflict a b now db)) = clauses db.
Proof.
  unfold createConflict, bind, uuidv7, insert_conflict, fk_error. db_simpl.
  destruct (_ && _); db_simpl; auto.
Qed.

Lemma processNewClause_unfold input now db :
  processNewClause input now db
  = match List.filter (conflicting input) (clauses db) with
    | [] => (clause <- create input now ;; ret (action_insert clause)) db
    | old :: _ =>
        match analyzeRelation old input with
        | identical =>
            (reinforce (id old) 0.05%Q now ;;;
             ret (action_reinforced (id old))) db
        | rel_supersession =>
            (invalidate (id old) (Some "superseded") now ;;;
             clause <- create input now ;;
             ret (action_superseded clause (id old))) db
        | rel_contradiction =>
            (newClause <- create input now ;;
             conflict <- createConflict old newClause now ;;
             ret (action_conflict newClause conflict)) db
        | coexistent =>
            (coexistClause <- create input now ;;
             ret (action_insert coexistClause)) db
        end
    end.
Proof.
  unfold processNewClause. unfold bind at 1. unfold select_clauses.
  destruct (List.filter (conflicting input) (clauses db)) as [| old rest];
    [reflexivity |].
  unfold rowToClause. destruct (analyzeRelation old input); reflexivity.
Qed.

Lemma processNewClause_effect input now db :
  wf db ->
  let db' := fst (processNewClause input now db) in
  let k := new_clause input now (uuid_counter db) in
  uuid_counter db < uuid_counter db'
  /\ match List.filter (conflicting input) (clauses db) with
     | [] => clauses db' = (clauses db ++ (if row_check k then [k] else []))%list
     | old :: _ =>
         match analyzeRelation old input with
         | identical =>
             exists c,
               (0.3 < c)%Q
               /\ clauses db'
                  = updated (fun r => Nat.eqb (id r) (id old))
                      (fun r => reinforced_row c now (touch now r))
                      (clauses db)
         | rel_supersession =>
             clauses db'
             = (updated (fun r => Nat.eqb (id r) (id old))
                  (invalidated_row (Some "superseded") now) (clauses db)
                ++ (if row_check k then [k] else []))%list
         | _ => clauses db' = (clauses db ++ (if row_check k then [k] else []))%list
         end
     end.
Proof.
  intros Hwf. cbv zeta. destruct Hwf as [Hchecks Hnd Hfresh].
  rewrite processNewClause_unfold.
  destruct (List.filter (conflicting input) (clauses db))
    as [| old rest] eqn:Hsel.
  - destruct (create_effect input now db) as (Hc & Hcl).
    unfold bind. destruct (create input now db) as [db1 [e | k]];
      cbn [fst ret] in *; rewrite Hc, Hcl; auto.
  - destruct (filter_head_In _ _ _ _ Hsel) as (Hin & Hconf).
    destruct (conflicting_spec _ _ Hconf) as (_ & _ & _ & Hvis).
    destruct (analyzeRelation old input).
    + (* identical: reinforce *)
      assert (Hhas : has_clause (id old) db = true).
      { apply has_clause_In. eauto. }
      destruct (has_clause_find _ _ Hhas) as (r0 & Hfind).
      destruct (find_some_has _ _ _ Hfind) as (_ & Hin0 & Hid0).
      assert (r0 = old) as ->.
      { eapply NoDup_ids_inj; eauto. }
      destruct (reinforce_run (id old) 0.05%Q now db old Hchecks Hfind)
        as (db1 & Hrun & Hcl & Hc & _).
      { apply (checks_In _ _ Hchecks), row_check_spec in Hin. lra. }
      unfold bind. rewrite Hrun. cbn [fst ret]. rewrite Hc.
      split; [lia |].
      exists (Js.Math_min 1 (confidence old + 0.05)). split; [| exact Hcl].
      apply Qlt_le_trans with (y := Js.Math_min 1 (confidence old)).
      * unfold Js.Math_min. apply Q.min_glb_lt; [reflexivity | exact Hvis].
      * unfold Js.Math_min. apply Q.min_le_compat_l. lra.
    + (* supersession: invalidate, then create *)
      unfold bind at 1 3. rewrite (invalidate_run _ _ _ _ Hchecks).
      set (db1 := set_clauses _ db).
      destruct (create_effect input now db1) as (Hc & Hcl).
      unfold bind. destruct (create input now db1) as [db2 [e | k]];
        cbn [fst ret] in *; rewrite Hc, Hcl; unfold db1; db_simpl; auto.
    + (* contradiction: create, then createConflict *)
      destruct (create_effect input now db) as (Hc & Hcl).
      unfold bind at 1 3.
      destruct (create input now db) as [db1 [e | k]]; cbn [fst] in *.
      * rewrite Hc, Hcl. auto.
      * destruct (createConflict_effect old k now db1) as (Hc2 & Hcl2).
        unfold bind.
        destruct (createConflict old k now db1) as [db2 [e | c]];
          cbn [fst ret] in *; rewrite Hc2, Hcl2, Hc, Hcl; auto.
    + (* coexistent: create *)
      destruct (create_effect input now db) as (Hc & Hcl).
      unfold bind. destruct (create input now db) as [db1 [e | k]];
        cbn [fst ret] in *; rewrite Hc, Hcl; auto.
Qed.

(** *** The schema's invariants and the singleton invariant *)

Lemma wf_step db db' rows1 extra :
  wf db -> checks_hold db' ->
  map id rows1 = map id (clauses db) ->
  clauses db' = (rows1 ++ extra)%list ->
  (extra = [] \/ exists k, extra = [k] /\ id k = uuid_counter db) ->
  uuid_counter db < uuid_counter db' ->
  wf db'.
Proof.
  intros [Hchecks Hnd Hfresh] Hchecks' Hids Hcl Hextra Hlt.
  assert (Hfresh_ids : Forall (fun n => n < uuid_counter db)
                         (map id (clauses db))).
  { apply List.Forall_forall. intros n Hn. apply in_map_iff in Hn.
    destruct Hn as (r & <- & Hr). rewrite List.Forall_forall in Hfresh.
    auto. }
  assert (Hids' : map id (clauses db')
                  = (map id (clauses db) ++ map id extra)%list).
  { rewrite Hcl, map_app, Hids. reflexivity. }
  constructor.
  - exact Hchecks'.
  - rewrite Hids'. destruct Hextra as [-> | (k & -> & Hk)]; simpl.
    + rewrite app_nil_r. exact Hnd.
    + apply List.NoDup_app.
      * exact Hnd.
      * constructor; [intros [] | constructor].
      * intros n Hn [<- | []]. rewrite List.Forall_forall in Hfresh_ids.
        apply Hfresh_ids in Hn. lia.
  - apply List.Forall_forall. intros r Hr.
    assert (Hn : In (id r) (map id (clauses db'))) by (apply in_map; exact Hr).
    rewrite Hids' in Hn. apply in_app_or in Hn.
    rewrite List.Forall_forall in Hfresh_ids.
    destruct Hn as [Hn | Hn].
    + apply Hfresh_ids in Hn. lia.
    + destruct Hextra as [-> | (k & -> & Hk)]; simpl in Hn;
        [contradiction |].
      destruct Hn as [<- | []]. lia.
Qed.

Lemma extra_cases (k : ClauseRow) (b : bool) i :
  id k = i ->
  (if b then [k] else []) = []
  \/ exists k', (if b then [k] else []) = [k'] /\ id k' = i.
Proof. intros H. destruct b; [right; eauto | left; reflexivity]. Qed.

Lemma processNewClause_wf input now db :
  wf db -> wf (fst (processNewClause input now db)).
Proof.
  intros Hwf.
  assert (Hchecks' := checks_processNewClause input now db (wf_checks _ Hwf)).
  destruct (processNewClause_effect input now db Hwf) as (Hlt & Hcase).
  set (k := new_clause input now (uuid_counter db)) in *.
  assert (Hk := extra_cases k (row_check k) (uuid_counter db) eq_refl).
  destruct (List.filter (conflicting input) (clauses db)) as [| old rest].
  - eapply wf_step; eauto.
  - destruct (analyzeRelation old input).
    + destruct Hcase as (c & _ & Hcl).
      apply (wf_step db _
               (updated (fun r => Nat.eqb (id r) (id old))
                  (fun r => reinforced_row c now (touch now r)) (clauses db))
               [] Hwf Hchecks').
      * apply updated_ids. reflexivity.
      * rewrite app_nil_r. exact Hcl.
      * left. reflexivity.
      * exact Hlt.
    + apply (wf_step db _ _ _ Hwf Hchecks') with (3 := Hk) (2 := Hcase);
        [apply updated_ids; reflexivity | exact Hlt].
    + eapply wf_step; eauto.
    + eapply wf_step; eauto.
Qed.

Lemma filter_map_le {A} (f : A -> bool) (g : A -> A) (l : list A) :
  (forall r, In r l -> f (g r) = true -> f r = true) ->
  List.length (List.filter f (map g l)) <= List.length (List.filter f l).
Proof.
  induction l as [|r l IH]; intros H; simpl; [lia |].
  assert (IH' := IH (fun r' Hr' => H r' (or_intror Hr'))).
  destruct (f (g r)) eqn:E.
  - rewrite (H r (or_introl eq_refl) E). simpl. lia.
  - destruct (f r); simpl; lia.
Qed.

Lemma filter_map_nil {A} (f : A -> bool) (g : A -> A) (l : list A) :
  (forall r, In r l -> f (g r) = false) ->
  List.filter f (map g l) = [].
Proof.
  induction l as [|r l IH]; intros H; simpl; [reflexivity |].
  rewrite (H r (or_introl eq_refl)). apply IH. intros r' Hr'.
  apply H. right. exact Hr'.
Qed.

Lemma visible_new_clause s p input now i :
  visible s p (new_clause input now i) = true ->
  s = in_subject input /\ p = in_predicate input.
Proof.
  unfold visible, active_for. cbn [subject predicate new_clause].
  rewrite !andb_true_iff, !String.eqb_eq. intuition congruence.
Qed.

Lemma includes_str_In l s : includes_str l s = true <-> In s l.
Proof.
  unfold includes_str. rewrite existsb_exists. split.
  - intros (x & Hx & E). apply String.eqb_eq in E. subst. exact Hx.
  - intros H. exists s. split; [exact H | apply String.eqb_refl].
Qed.

Lemma analyzeRelation_singleton old input :
  match analyzeRelation old input with
  | identical => Js.toLowerCase (object old) = Js.toLowerCase (in_object input)
  | rel_supersession => In (predicate old) SINGLETON_PREDICATES
  | _ => ~ In (predicate old) SINGLETON_PREDICATES
  end.
Proof.
  unfold analyzeRelation.
  destruct (String.eqb_spec (Js.toLowerCase (object old))
              (Js.toLowerCase (in_object input))); [assumption |].
  destruct (includes_str SINGLETON_PREDICATES (predicate old)) eqn:E.
  - apply includes_str_In. exact E.
  - assert (H : ~ In (predicate old) SINGLETON_PREDICATES).
    { intros H. apply includes_str_In in H. congruence. }
    destruct (includes_str MULTI_VALUE_PREDICATES (predicate old)); exact H.
Qed.

Lemma count_app (f : ClauseRow -> bool) l1 l2 :
  List.length (List.filter f (l1 ++ l2))
  = List.length (List.filter f l1) + List.length (List.filter f l2).
Proof. rewrite List.filter_app, List.length_app. reflexivity. Qed.

Lemma processNewClause_singleton input now db :
  wf db -> singleton_inv db ->
  singleton_inv (fst (processNewClause input now db)).
Proof.
  intros Hwf Hinv s p Hp.
  destruct (processNewClause_effect input now db Hwf) as (_ & Hcase).
  set (k := new_clause input now (uuid_counter db)) in *.
  assert (Hextra : forall rows1,
            (List.length (List.filter (visible s p) rows1) <= 1) ->
            ((s = in_subject input /\ p = in_predicate input) ->
             List.filter (visible s p) rows1 = []) ->
            List.length
              (List.filter (visible s p)
                 (rows1 ++ (if row_check k then [k] else []))) <= 1).
  { intros rows1 Hle Hnil. rewrite count_app.
    destruct (row_check k); [| simpl; lia].
    simpl. destruct (visible s p k) eqn:Ek; [| simpl; lia].
    apply visible_new_clause in Ek. rewrite (Hnil Ek). simpl. lia. }
  specialize (Hinv s p Hp) as Hsp.
  destruct (List.filter (conflicting input) (clauses db))
    as [| old rest] eqn:Hsel.
  - rewrite Hcase. apply Hextra; [exact Hsp |].
    intros [-> ->]. exact Hsel.
  - destruct (filter_head_In _ _ _ _ Hsel) as (Hin & Hconf).
    destruct (conflicting_spec _ _ Hconf) as (Hs & Hpr & Hact & Hvis).
    pose proof (analyzeRelation_singleton old input) as Hrel.
    destruct (analyzeRelation old input).
    + (* identical *)
      destruct Hcase as (c & Hc & ->).
      etransitivity; [| exact Hsp]. apply filter_map_le.
      intros r Hr. destruct (Nat.eqb (id r) (id old)) eqn:E; [| auto].
      apply Nat.eqb_eq in E.
      assert (r = old) as ->.
      { eapply NoDup_ids_inj; eauto. apply Hwf. }
      unfold visible, active_for, is_active.
      cbn [subject predicate valid_to confidence reinforced_row touch
           bump_reinforcement set_confidence].
      rewrite !andb_true_iff. intros [Ha _]. split; [exact Ha |].
      apply JsFacts.ltb_spec. exact Hvis.
    + (* supersession *)
      rewrite Hcase.
      assert (Hle : List.length
                      (List.filter (visible s p)
                         (updated (fun r => Nat.eqb (id r) (id old))
                            (invalidated_row (Some "superseded") now)
                            (clauses db))) <= 1).
      { etransitivity; [| exact Hsp]. apply filter_map_le.
        intros r Hr. destruct (Nat.eqb (id r) (id old)); [| auto].
        unfold visible, active_for, is_active.
        cbn [valid_to invalidated_row set_metadata set_valid_to].
        rewrite !andb_false_r. discriminate. }
      apply Hextra; [exact Hle |].
      intros [-> ->].
      assert (Hone : List.filter (conflicting input) (clauses db) = [old]).
      { rewrite Hsel. specialize (Hinv (in_subject input) (in_predicate input)).
        rewrite <- Hpr in Hinv at 1. specialize (Hinv Hrel).
        change (visible (in_subject input) (in_predicate input))
          with (conflicting input) in Hinv.
        rewrite Hsel in Hinv. destruct rest; [reflexivity |].
        simpl in Hinv. lia. }
      apply filter_map_nil. intros r Hr.
      destruct (Nat.eqb (id r) (id old)) eqn:E.
      * unfold visible, active_for, is_active.
        cbn [valid_to invalidated_row set_metadata set_valid_to].
        rewrite !andb_false_r. reflexivity.
      * destruct (visible (in_subject input) (in_predicate input) r) eqn:Ev;
          [| reflexivity].
        exfalso.
        assert (Hr' : In r (List.filter (conflicting input) (clauses db))).
        { apply filter_In. split; [exact Hr | exact Ev]. }
        rewrite Hone in Hr'. destruct Hr' as [<- | []].
        rewrite Nat.eqb_refl in E. discriminate.
    + (* contradiction *)
      rewrite Hcase. apply Hextra; [exact Hsp |].
      intros [_ ->]. exfalso. apply Hrel. rewrite Hpr. exact Hp.
    + (* coexistent *)
      rewrite Hcase. apply Hextra; [exact Hsp |].
      intros [_ ->]. exfalso. apply Hrel. rewrite Hpr. exact Hp.
Qed.

Lemma init_wf : wf init.
Proof. constructor; constructor. Qed.

Lemma ingested_wf db : ingested db -> wf db.
Proof.
  induction 1 as [| db input now _ IH];
    [apply init_wf | apply processNewClause_wf; exact IH].
Qed.

Lemma filter_nil_In {A} (f : A -> bool) l r :
  List.filter f l = [] -> In r l -> f r = false.
Proof.
  intros Hnil Hr. destruct (f r) eqn:E; [| reflexivity].
  assert (H : In r (List.filter f l)) by (apply filter_In; auto).
  rewrite Hnil in H. contradiction.
Qed.

Lemma no_active_no_visible s p rows :
  List.filter (active_for s p) rows = [] ->
  List.filter (visible s p) rows = [].
Proof.
  intros H. induction rows as [|r rows IH]; [reflexivity |].
  simpl in *. unfold visible at 1.
  destruct (active_for s p r); [discriminate |]. simpl. auto.
Qed.

Lemma updated_app where_ set_ (l1 l2 : list ClauseRow) :
  updated where_ set_ (l1 ++ l2)
  = (updated where_ set_ l1 ++ updated where_ set_ l2)%list.
Proof. unfold updated. apply map_app. Qed.

(** Two candidates for the same subject and singleton predicate, ingested
    one after the other into a store with no active clause for them. *)
Lemma supersession_scenario c1 c2 now1 now2 db :
  wf db ->
  List.filter (active_for (in_subject c1) (in_predicate c1)) (clauses db) = [] ->
  in_subject c2 = in_subject c1 ->
  in_predicate c2 = in_predicate c1 ->
  In (in_predicate c1) SINGLETON_PREDICATES ->
  Js.toLowerCase (in_object c1) <> Js.toLowerCase (in_object c2) ->
  let k1 := new_clause c1 now1 (uuid_counter db) in
  let k2 := new_clause c2 now2 (S (uuid_counter db)) in
  row_check k1 = true ->
  (0.3 < confidence k1)%Q ->
  row_check k2 = true ->
  exists db1 db2,
    processNewClause c1 now1 db = (db1, inr (action_insert k1))
    /\ processNewClause c2 now2 db1
       = (db2, inr (action_superseded k2 (id k1)))
    /\ List.filter (active_for (in_subject c1) (in_predicate c1)) (clauses db2)
       = [k2]
    /\ In (invalidated_row (Some "superseded") now2 k1) (clauses db2).
Proof.
  intros Hwf Hnone Hs Hp Hsingle Hobj k1 k2 Hrow1 Hconf1 Hrow2.
  (* first candidate *)
  destruct (create_accepted c1 now1 db Hrow1)
    as (db1 & Hcreate1 & Hcl1 & Hctr1 & _).
  fold k1 in Hcreate1, Hcl1.
  assert (Hrun1 : processNewClause c1 now1 db = (db1, inr (action_insert k1))).
  { assert (Hsel1 : List.filter (conflicting c1) (clauses db) = [])
      by exact (no_active_no_visible _ _ _ Hnone).
    rewrite processNewClause_unfold, Hsel1.
    unfold bind. rewrite Hcreate1. reflexivity. }
  assert (Hwf1 : wf db1).
  { replace db1 with (fst (processNewClause c1 now1 db))
      by (rewrite Hrun1; reflexivity).
    apply processNewClause_wf. exact Hwf. }
  (* second candidate *)
  assert (Hvis1 : visible (in_subject c1) (in_predicate c1) k1 = true).
  { unfold visible, active_for, is_active. unfold k1 at 1 2 3.
    cbn [subject predicate valid_to new_clause].
    rewrite !String.eqb_refl. apply JsFacts.ltb_spec. exact Hconf1. }
  assert (Hsel2 : List.filter (conflicting c2) (clauses db1) = [k1]).
  { assert (Hsel1 : List.filter (visible (in_subject c2) (in_predicate c2))
                      (clauses db) = []).
    { rewrite Hs, Hp. exact (no_active_no_visible _ _ _ Hnone). }
    change (List.filter (visible (in_subject c2) (in_predicate c2))
              (clauses db1) = [k1]).
    rewrite Hcl1, List.filter_app, Hsel1. simpl.
    rewrite Hs, Hp, Hvis1. reflexivity. }
  assert (Hrel : analyzeRelation k1 c2 = rel_supersession).
  { unfold analyzeRelation. unfold k1 at 1 2.
    cbn [object predicate new_clause].
    destruct (String.eqb_spec (Js.toLowerCase (in_object c1))
                (Js.toLowerCase (in_object c2))); [contradiction |].
    apply includes_str_In in Hsingle. rewrite Hsingle. reflexivity. }
  set (db1' :=
         set_clauses
           (updated (fun r => Nat.eqb (id r) (id k1))
              (invalidated_row (Some "superseded") now2) (clauses db1)) db1).
  assert (Hctr1' : uuid_counter db1' = S (uuid_counter db)).
  { unfold db1'. db_simpl. exact Hctr1. }
  assert (Hrow2' : row_check (new_clause c2 now2 (uuid_counter db1')) = true).
  { rewrite Hctr1'. exact Hrow2. }
  destruct (create_accepted c2 now2 db1' Hrow2')
    as (db2 & Hcreate2 & Hcl2 & _ & _).
  rewrite Hctr1' in Hcreate2, Hcl2. fold k2 in Hcreate2, Hcl2.
  exists db1, db2. split; [exact Hrun1 |]. split.
  { rewrite processNewClause_unfold, Hsel2, Hrel.
    unfold bind at 1. rewrite (invalidate_run _ _ _ _ (wf_checks _ Hwf1)).
    fold db1'. unfold bind. rewrite Hcreate2. reflexivity. }
  assert (Hfresh : forall r, In r (clauses db) -> Nat.eqb (id r) (id k1) = false).
  { intros r Hr. apply Nat.eqb_neq. destruct Hwf as [_ _ Hfresh].
    rewrite List.Forall_forall in Hfresh. apply Hfresh in Hr.
    unfold k1. cbn [id new_clause]. lia. }
  assert (Hrows : clauses db1'
                  = (clauses db ++ [invalidated_row (Some "superseded") now2 k1])%list).
  { unfold db1'. db_simpl. rewrite Hcl1, updated_app. f_equal.
    - unfold updated. rewrite <- (map_id (clauses db)) at 2.
      apply map_ext_in. intros r Hr. rewrite (Hfresh r Hr). reflexivity.
    - simpl. rewrite Nat.eqb_refl. reflexivity. }
  rewrite Hcl2, Hrows. split.
  - rewrite !List.filter_app, Hnone. simpl.
    unfold active_for at 1.
    cbn [is_active valid_to invalidated_row set_metadata set_valid_to].
    rewrite andb_false_r.
    assert (Hk2 : active_for (in_subject c1) (in_predicate c1) k2 = true).
    { unfold active_for, is_active, k2.
      cbn [subject predicate valid_to new_clause].
      rewrite Hs, Hp, !String.eqb_refl. reflexivity. }
    rewrite Hk2. reflexivity.
  - apply in_or_app. left. apply in_or_app. right. left. reflexivity.
Qed.

(** *** Deduplication *)

Lemma first_similar_spec threshold natural rows clause sim :
  first_similar threshold natural rows = Some (clause, sim) ->
  In clause rows
  /\ sim = calculateSimilarity (natural_form clause) natural
  /\ (threshold <= sim)%Q.
Proof.
  induction rows as [|row rows IH]; simpl; [discriminate |].
  unfold rowToClause.
  destruct (Js.leb threshold (calculateSimilarity (natural_form row) natural))
    eqn:E.
  - intros H. injection H as <- <-. apply JsFacts.leb_spec in E. auto.
  - intros H. destruct (IH H) as (Hin & Hs & Hle). auto.
Qed.



(** *** The theorems at concrete stores *)

(** A second [invalidate] of the retired clause. *)
Lemma invalidate_is_one_way_witness :
  checks_hold Scenario.retired_db
  /\ exists db',
       invalidate 0 (Some "again") 200 Scenario.retired_db = (db', inr tt)
       /\ Forall2
            (fun r r' =>
               id r' = id r
               /\ (valid_to r <> None -> valid_to r' <> None)
               /\ (id r = 0 ->
                   valid_to r' = Some 200%Z
                   /\ metadata r' !! "invalidation_reason" = Some "again")
               /\ (id r <> 0 -> r' = r))
            (clauses Scenario.retired_db) (clauses db').
Proof.
  assert (H : checks_hold Scenario.retired_db).
  { unfold checks_hold. vm_compute. repeat constructor. }
  split; [exact H |].
  exact (invalidate_is_one_way 0 (Some "again") 200 Scenario.retired_db H).
Defined.



End ClauseFacts.

(** ** The retriever *)

Module RetrieverFacts.
Import Database DatabaseFacts Retriever.

Lemma checks_retriever_logAccess i t c now : preserves checks_hold (logAccess i t c now).
Proof. unfold logAccess. preserve_checks. Qed.

Lemma checks_retrieve fts5 self query options now :
  preserves checks_hold (retrieve fts5 self query options now).
Proof.
  unfold retrieve.
  apply preserves_bind.
  { apply checks_frame. intros db. unfold keywordSearch.
    destruct (blank query); [reflexivity |].
    destruct (fts_rejects fts5 _); reflexivity. }
  intros keywordResults.
  apply preserves_bind.
  { destruct (_ && _); [| auto with checks].
    destruct (embeddingManager self) as [m |]; [| auto with checks].
    apply checks_frame. intros db. unfold findSimilar.
    destruct (Nat.eqb _ _); reflexivity. }
  intros semanticResults.
  apply preserves_bind; [apply checks_frame; reflexivity |].
  intros scoredClauses.
  apply preserves_bind; [| auto with checks].
  apply preserves_for_each. intros c. apply checks_retriever_logAccess.
Qed.

(** *** Where the scored clauses come from *)

Lemma insert_sorted_In {A} (before : A -> A -> bool) x l y :
  In y (insert_sorted before x l) -> y = x \/ In y l.
Proof.
  induction l as [|z l IH]; simpl.
  - intros [<- | []]. auto.
  - destruct (before x z); simpl.
    + intros [<- | H]; auto.
    + intros [<- | H]; auto. destruct (IH H); auto.
Qed.

Lemma sort_by_In {A} (before : A -> A -> bool) l y :
  In y (sort_by before l) -> In y l.
Proof.
  induction l as [|x l IH]; simpl; [tauto |].
  intros H. apply insert_sorted_In in H. destruct H as [-> | H]; auto.
Qed.

Lemma insert_sorted_In_rev {A} (before : A -> A -> bool) x l y :
  y = x \/ In y l -> In y (insert_sorted before x l).
Proof.
  induction l as [|z l IH]; simpl.
  - intros [-> | []]. auto.
  - destruct (before x z); simpl.
    + intros [-> | H]; auto.
    + intros [-> | [-> | H]]; auto.
Qed.

Lemma sort_by_In_rev {A} (before : A -> A -> bool) l y :
  In y l -> In y (sort_by before l).
Proof.
  induction l as [|x l IH]; simpl; [tauto |].
  intros [-> | H]; apply insert_sorted_In_rev; auto.
Qed.

Lemma insert_sorted_length {X} (before : X -> X -> bool) x l :
  List.length (insert_sorted before x l) = S (List.length l).
Proof.
  induction l as [| y l IH]; simpl; [reflexivity |].
  destruct (before x y); simpl; [reflexivity | rewrite IH; reflexivity].
Qed.

Lemma sort_by_length {X} (before : X -> X -> bool) l :
  List.length (sort_by before l) = List.length l.
Proof.
  induction l as [| x l IH]; simpl; [reflexivity |].
  rewrite insert_sorted_length, IH. reflexivity.
Qed.

(** [keywordSearch] returns rows of the store when the query is blank or
    the index accepts what [prepareFtsQuery] made of it ... *)
Lemma keywordSearch_run fts5 query types minConfidence includeExpired limit db :
  blank query = true \/ fts_rejects fts5 (prepareFtsQuery query) = false ->
  exists rows,
    keywordSearch fts5 query types minConfidence includeExpired limit db
    = (db, inr rows)
    /\ forall row, In row rows -> In (fst row) (clauses db).
Proof.
  intros Hok. unfold keywordSearch. destruct (blank query).
  - eexists. split; [reflexivity |].
    intros row Hrow. apply in_map_iff in Hrow.
    destruct Hrow as (r & <- & Hr). simpl.
    apply firstn_In, sort_by_In, filter_In in Hr. tauto.
  - destruct Hok as [Hok | ->]; [discriminate |].
    eexists. split; [reflexivity |].
    intros row Hrow. apply firstn_In, sort_by_In, in_flat_map in Hrow.
    destruct Hrow as (r & Hr & Hrow).
    destruct (fts5 (clauses db) (prepareFtsQuery query) r); [| contradiction].
    destruct (_ && _); [| contradiction].
    destruct Hrow as [<- | []]. exact Hr.
Qed.

(** ... and raises otherwise, without a write. *)
Lemma keywordSearch_raises fts5 query types minConfidence includeExpired limit
    db :
  blank query = false ->
  fts_rejects fts5 (prepareFtsQuery query) = true ->
  keywordSearch fts5 query types minConfidence includeExpired limit db
  = (db, inl fts_syntax_error).
Proof. intros Hb Hr. unfold keywordSearch. rewrite Hb, Hr. reflexivity. Qed.

Lemma map_set_In k v m kv :
  In kv (map_set k v m) -> kv = (k, v) \/ In kv m.
Proof.
  induction m as [|[k' v'] m IH]; simpl.
  - intros [<- | []]. auto.
  - destruct (Nat.eqb k' k); simpl.
    + intros [<- | H]; auto.
    + intros [<- | H]; auto. destruct (IH H); auto.
Qed.

Lemma map_get_In k m e : map_get k m = Some e -> In (k, e) m.
Proof.
  unfold map_get.
  destruct (List.find (fun kv => Nat.eqb (fst kv) k) m) as [[k' e'] |] eqn:F;
    [| discriminate].
  simpl. intros H. injection H as <-.
  apply find_some in F. destruct F as [Hin E].
  apply Nat.eqb_eq in E. simpl in E. subst. exact Hin.
Qed.

Lemma map_set_length k v m :
  List.length (map_set k v m) <= S (List.length m).
Proof.
  induction m as [|[k' v'] m IH]; simpl; [lia |].
  destruct (Nat.eqb k' k); simpl; lia.
Qed.

(** A key of the map stays a key when an entry is set. *)
Lemma map_set_has_key k v m k' :
  k' = k \/ In k' (map fst m) -> In k' (map fst (map_set k v m)).
Proof.
  induction m as [|[k0 v0] m IH]; simpl.
  - intros [-> | []]. auto.
  - destruct (Nat.eqb_spec k0 k) as [-> | Hne]; simpl.
    + intros [-> | [-> | H]]; auto.
    + intros [-> | [-> | H]]; auto.
Qed.

(** Every entry built from keyword rows alone holds a row of the store
    and has semantic score 0. *)
Lemma add_keyword_entries db rows :
  (forall row, In row rows -> In (fst row) (clauses db)) ->
  forall m,
    (forall kv, In kv m ->
       In (entry_clause (snd kv)) (clauses db) /\ semanticScore (snd kv) = 0%Q) ->
    forall kv, In kv (fold_left add_keyword rows m) ->
      In (entry_clause (snd kv)) (clauses db) /\ semanticScore (snd kv) = 0%Q.
Proof.
  induction rows as [|row rows IH]; intros Hrows m Hm; simpl; [exact Hm |].
  apply IH.
  - intros r Hr. apply Hrows. right. exact Hr.
  - intros kv Hkv. unfold add_keyword in Hkv. apply map_set_In in Hkv.
    destruct Hkv as [-> | Hkv]; [| auto].
    simpl. split; [| reflexivity]. apply Hrows. left. reflexivity.
Qed.

Lemma add_semantic_entries db results :
  forall m,
    (forall kv, In kv m -> In (entry_clause (snd kv)) (clauses db)) ->
    forall kv, In kv (fold_left (add_semantic db) results m) ->
      In (entry_clause (snd kv)) (clauses db).
Proof.
  induction results as [|res results IH]; intros m Hm; simpl; [exact Hm |].
  apply IH. intros kv Hkv. unfold add_semantic in Hkv.
  destruct (map_get (fst res) m) as [existing |] eqn:G.
  - apply map_set_In in Hkv. destruct Hkv as [-> | Hkv]; [| auto].
    simpl. apply map_get_In in G. apply (Hm _ G).
  - destruct (List.find (fun r => Nat.eqb (id r) (fst res)) (clauses db))
      as [row |] eqn:F; [| auto].
    apply map_set_In in Hkv. destruct Hkv as [-> | Hkv]; [| auto].
    simpl. apply find_some in F. tauto.
Qed.

Lemma add_keyword_keys rows :
  forall m,
    keyed m ->
    keyed (fold_left add_keyword rows m)
    /\ (forall k,
          In k (map fst m) \/ In k (map (fun row => id (fst row)) rows) ->
          In k (map fst (fold_left add_keyword rows m)))
    /\ List.length (fold_left add_keyword rows m)
       <= List.length m + List.length rows.
Proof.
  induction rows as [|row rows IH]; intros m Hm; simpl.
  - split; [exact Hm |]. split; [intros k [H | []]; exact H | lia].
  - assert (Hm' : keyed (add_keyword m row)).
    { intros kv Hkv. unfold add_keyword in Hkv. apply map_set_In in Hkv.
      destruct Hkv as [-> | Hkv]; [reflexivity | auto]. }
    destruct (IH _ Hm') as (H1 & H2 & H3).
    split; [exact H1 |]. split.
    + intros k Hk. apply H2.
      destruct Hk as [Hk | [<- | Hk]]; [left | left | right; exact Hk];
        unfold add_keyword; apply map_set_has_key; auto.
    + assert (Hl : List.length (add_keyword m row) <= S (List.length m))
        by (unfold add_keyword; apply map_set_length).
      cbn [List.length]. lia.
Qed.

Lemma add_semantic_keys db results :
  forall m,
    keyed m ->
    keyed (fold_left (add_semantic db) results m)
    /\ (forall k,
          In k (map fst m) ->
          In k (map fst (fold_left (add_semantic db) results m)))
    /\ List.length (fold_left (add_semantic db) results m)
       <= List.length m + List.length results.
Proof.
  induction results as [|res results IH]; intros m Hm; simpl.
  - split; [exact Hm |]. split; [auto | lia].
  - assert (Hstep : keyed (add_semantic db m res)
                    /\ (forall k, In k (map fst m) ->
                          In k (map fst (add_semantic db m res)))
                    /\ List.length (add_semantic db m res)
                       <= S (List.length m)).
    { unfold add_semantic.
      destruct (map_get (fst res) m) as [existing |] eqn:G.
      - split; [| split; [| apply map_set_length]].
        + intros kv Hkv. apply map_set_In in Hkv.
          destruct Hkv as [-> | Hkv]; [| auto].
          simpl. apply map_get_In in G. apply (Hm _ G).
        + intros k Hk. apply map_set_has_key. auto.
      - destruct (List.find (fun r => Nat.eqb (id r) (fst res)) (clauses db))
          as [row |] eqn:F.
        + split; [| split; [| apply map_set_length]].
          * intros kv Hkv. apply map_set_In in Hkv.
            destruct Hkv as [-> | Hkv]; [| auto].
            simpl. apply find_some in F. destruct F as [_ F].
            apply Nat.eqb_eq in F. exact F.
          * intros k Hk. apply map_set_has_key. auto.
        + split; [exact Hm |]. split; [auto | lia]. }
    destruct Hstep as (S1 & S2 & S3).
    destruct (IH _ S1) as (H1 & H2 & H3).
    split; [exact H1 |]. split; [intros k Hk; apply H2, S2, Hk | lia].
Qed.

(** [mergeAndScore] reads only.  Its entries hold rows of the store, every
    keyword row is scored under its id, and there are no more entries
    than rows handed in. *)
Lemma mergeAndScore_run keywordResults semanticResults query weights now db :
  (forall row, In row keywordResults -> In (fst row) (clauses db)) ->
  exists scoredClauses,
    mergeAndScore keywordResults semanticResults query weights now db
    = (db, inr scoredClauses)
    /\ (forall sc, In sc scoredClauses ->
          exists e,
            In (entry_clause e) (clauses db)
            /\ scored sc = entry_clause e
            /\ score sc = final_score now query weights e
            /\ (semanticResults = [] -> semanticScore e = 0%Q))
    /\ (forall row, In row keywordResults ->
          exists sc, In sc scoredClauses /\ id (scored sc) = id (fst row))
    /\ List.length scoredClauses
       <= List.length keywordResults + List.length semanticResults.
Proof.
  intros Hrows. unfold mergeAndScore. eexists. split; [reflexivity |].
  assert (Hkw := add_keyword_entries db keywordResults Hrows []).
  destruct (add_keyword_keys keywordResults []) as (K1 & K2 & K3);
    [intros ? [] |].
  destruct (add_semantic_keys db semanticResults _ K1) as (S1 & S2 & S3).
  split; [| split].
  - intros sc Hsc. apply sort_by_In, in_map_iff in Hsc.
    destruct Hsc as (kv & <- & Hkv). exists (snd kv). simpl.
    split; [| split; [reflexivity | split; [reflexivity |]]].
    + apply (add_semantic_entries db semanticResults _) in Hkv; [exact Hkv |].
      intros kv' Hkv'. apply Hkw in Hkv'; [tauto |]. intros ? [].
    + intros ->. simpl in Hkv. apply Hkw in Hkv; [tauto |]. intros ? [].
  - intros row Hrow.
    assert (Hk : In (id (fst row))
                   (map fst
                      (fold_left (add_semantic db) semanticResults
                         (fold_left add_keyword keywordResults [])))).
    { apply S2, K2. right.
      apply in_map_iff. exists row. split; [reflexivity | exact Hrow]. }
    apply in_map_iff in Hk. destruct Hk as (kv & Hfst & Hkv).
    exists (mkScored (entry_clause (snd kv))
              (final_score now query weights (snd kv))).
    split.
    + apply sort_by_In_rev, in_map_iff. exists kv. split; [reflexivity | exact Hkv].
    + cbn [scored]. rewrite (S1 _ Hkv). exact Hfst.
  - rewrite sort_by_length, length_map. cbn [List.length] in K3. lia.
Qed.

(** *** Access logging never fails on rows of the store *)

Lemma retriever_logAccess_run clauseId accessType context_ now db :
  checks_hold db ->
  has_clause clauseId db = true ->
  exists db',
    logAccess clauseId accessType context_ now db = (db', inr tt)
    /\ checks_hold db'
    /\ map id (clauses db') = map id (clauses db).
Proof.
  intros Hchecks Hhas. unfold logAccess. unfold bind at 1.
  unfold uuidv7 at 1. unfold bind at 1.
  rewrite update_clauses_run.
  2:{ db_simpl. intros r Hr _. unfold checks_hold in Hchecks.
      rewrite List.Forall_forall in Hchecks. apply (Hchecks r Hr). }
  db_simpl. unfold insert_access_log. cbn [access_clause_id].
  replace (has_clause clauseId _) with true.
  2:{ symmetry. erewrite has_clause_ids; [exact Hhas |]. db_simpl.
      apply updated_ids. reflexivity. }
  eexists. split; [reflexivity |]. db_simpl. split.
  - unfold checks_hold. db_simpl. apply List.Forall_forall.
    intros r Hr. apply In_updated in Hr. destruct Hr as (r1 & Hr1 & ->).
    unfold checks_hold in Hchecks. rewrite List.Forall_forall in Hchecks.
    destruct (Nat.eqb (id r1) clauseId); apply (Hchecks r1 Hr1).
  - apply updated_ids. reflexivity.
Qed.

Lemma for_each_logAccess_run (top : list ScoredClause) query now :
  forall db,
    checks_hold db ->
    (forall sc, In sc top -> has_clause (id (scored sc)) db = true) ->
    exists db',
      for_each top
        (fun clause => logAccess (id (scored clause)) retrieval query now) db
      = (db', inr tt).
Proof.
  induction top as [|sc top IH]; intros db Hchecks Hhas; simpl.
  - exists db. reflexivity.
  - destruct (retriever_logAccess_run (id (scored sc)) retrieval query now db Hchecks)
      as (db1 & Hrun & Hchecks1 & Hids1).
    { apply Hhas. left. reflexivity. }
    unfold bind. rewrite Hrun. apply IH; [exact Hchecks1 |].
    intros sc' Hsc'. erewrite has_clause_ids; [| exact Hids1].
    apply Hhas. right. exact Hsc'.
Qed.

(** *** [retrieve] *)

Lemma bind_inr {A B} (m : Db A) (k : A -> Db B) db db' b :
  bind m k db = (db', inr b) ->
  exists db1 a, m db = (db1, inr a) /\ k a db1 = (db', inr b).
Proof.
  unfold bind. destruct (m db) as [db1 [e | a]]; intros H;
    [discriminate | eauto].
Qed.

Lemma retrieve_method fts5 self query options now db db' result :
  retrieve fts5 self query options now db = (db', inr result) ->
  retrievalMethod result
  = (if canUseSemanticSearch self options then hybrid else keyword).
Proof.
  unfold retrieve. intros H.
  apply bind_inr in H. destruct H as (db1 & kw & _ & H).
  apply bind_inr in H. destruct H as (db2 & sem & _ & H).
  apply bind_inr in H. destruct H as (db3 & scoredClauses & _ & H).
  apply bind_inr in H. destruct H as (db4 & [] & _ & H).
  unfold ret in H. injection H as _ <-. reflexivity.
Qed.

(** [retrieve] returns once the keyword step and the semantic step have
    returned. *)
Lemma retrieve_returns fts5 self query options now db sem :
  checks_hold db ->
  blank query = true \/ fts_rejects fts5 (prepareFtsQuery query) = false ->
  (if canUseSemanticSearch self options && negb (blank query)
   then match embeddingManager self with
        | Some m => findSimilar m query (limit_of self options * 2) 0.3%Q
        | None => throw (JsError "embeddingManager is undefined")
        end
   else ret []) db = (db, inr sem) ->
  exists db' result kw,
    keywordSearch fts5 query (opt_types options)
      (orElse (opt_minConfidence options) 0.5%Q)
      (orElse (opt_includeExpired options) false)
      (limit_of self options * 2) db = (db, inr kw)
    /\ retrieve fts5 self query options now db = (db', inr result)
    /\ totalMatches result = Nat.max (List.length kw) (List.length sem)
    /\ (List.length kw + List.length sem <= limit_of self options ->
        forall row,
          In row kw ->
          exists sc,
            In sc (result_clauses result) /\ id (scored sc) = id (fst row))
    /\ forall sc, In sc (result_clauses result) ->
         exists e,
           scored sc = entry_clause e
           /\ score sc = final_score now query (actual_weights self options) e
           /\ (sem = [] -> semanticScore e = 0%Q).
Proof.
  intros Hchecks Hok Hsem. unfold retrieve.
  destruct (keywordSearch_run fts5 query (opt_types options)
              (orElse (opt_minConfidence options) 0.5%Q)
              (orElse (opt_includeExpired options) false)
              (limit_of self options * 2) db Hok) as (kw & Hkw & Hrows).
  unfold bind at 1. rewrite Hkw.
  unfold bind at 1. rewrite Hsem.
  destruct (mergeAndScore_run kw sem query (actual_weights self options)
              now db Hrows) as (scoredClauses & Hmerge & Hscored & Hcover & Hlen).
  unfold bind at 1. rewrite Hmerge.
  destruct (for_each_logAccess_run
              (firstn (limit_of self options) scoredClauses) query now db
              Hchecks) as (db' & Hlog).
  { intros sc Hsc. apply firstn_In, Hscored in Hsc.
    destruct Hsc as (e & He & -> & _). apply has_clause_In. eauto. }
  unfold bind at 1. rewrite Hlog.
  eexists. eexists. exists kw. split; [reflexivity |].
  split; [reflexivity |]. cbn [result_clauses totalMatches].
  split; [reflexivity |]. split.
  - intros Hfit row Hrow. rewrite firstn_all2 by lia. apply Hcover, Hrow.
  - intros sc Hsc. apply firstn_In, Hscored in Hsc.
    destruct Hsc as (e & _ & H1 & H2 & H3). eauto.
Qed.

(** [retrieve] raises what its keyword step raises. *)
Lemma retrieve_rejected fts5 self query options now db :
  blank query = false ->
  fts_rejects fts5 (prepareFtsQuery query) = true ->
  retrieve fts5 self query options now db = (db, inl fts_syntax_error).
Proof.
  intros Hb Hr. unfold retrieve. unfold bind at 1.
  rewrite (keywordSearch_raises _ _ _ _ _ _ _ Hb Hr). reflexivity.
Qed.




End RetrieverFacts.

(** ** The engine as a whole *)

Module EngineFacts.
Import Database DatabaseFacts Engine.

Lemma exec_checks w now db : checks_hold db -> checks_hold (exec w now db).
Proof.
  destruct w; cbn [exec].
  - apply ClauseFacts.checks_create.
  - apply ClauseFacts.checks_get.
  - apply ClauseFacts.checks_update_op.
  - apply ClauseFacts.checks_invalidate.
  - apply ClauseFacts.checks_reinforce.
  - apply ClauseFacts.checks_processNewClause.
  - apply DecayFacts.checks_run.
  - apply DecayFacts.checks_decay_reinforce.
  - apply DecayFacts.checks_adjustConfidence.
  - apply RetrieverFacts.checks_retrieve.
Qed.

Lemma reachable_checks db : reachable db -> checks_hold db.
Proof.
  induction 1 as [| db w now _ IH].
  - constructor.
  - apply exec_checks. exact IH.
Qed.

Lemma touch_checks now r : row_check (touch now r) = row_check r.
Proof. reflexivity. Qed.

Lemma apply_updates_confidence u c r :
  ClauseStore.up_confidence u = Some c ->
  confidence (ClauseStore.apply_updates u r) = c.
Proof.
  destruct u as [uc ud ut um un]. simpl. intros ->.
  unfold ClauseStore.apply_updates. simpl.
  destruct ud, ut, um, un; reflexivity.
Qed.

(** C1 (as stated).  [create] does not clamp: for an input confidence of
    1.5 it raises on the schema's CHECK and persists no row at all. *)
Lemma create_out_of_range_persists_nothing :
  snd (ClauseStore.create Scenario.over_confident 0 init)
  = inl (SqliteConstraint "CHECK constraint failed: clauses")
  /\ clauses (fst (ClauseStore.create Scenario.over_confident 0 init)) = [].
Proof. split; vm_compute; reflexivity. Qed.

(** C1 (amended).  In every state the engine can reach, every clause has
    [0 <= confidence <= 1].  The range is kept by the schema's CHECK
    constraint, not by clamping in [create] or [update]: [create] stores
    the given confidence (0.8 when absent) unchanged when the row passes
    the CHECKs and otherwise raises and adds no row; [update] with an
    out-of-range confidence for an existing clause raises and changes no
    stored confidence. *)
Theorem confidence_in_range_at_all_times (db : DB) :
  reachable db ->
  Forall (fun r => (0 <= confidence r)%Q /\ (confidence r <= 1)%Q)
    (clauses db)
  /\ (forall input now,
        let c := ClauseStore.orElse (in_confidence input) 0.8%Q in
        let d := ClauseStore.orElse (in_decay_rate input)
                   (ClauseStore.DEFAULT_DECAY_RATES (in_type input)) in
        match ClauseStore.create input now db with
        | (db', inr clause) =>
            (0 <= c)%Q /\ (c <= 1)%Q /\ confidence clause = c
            /\ clauses db' = (clauses db ++ [clause])%list
        | (db', inl _) =>
            ~ ((0 <= c)%Q /\ (c <= 1)%Q /\ (0 <= d)%Q)
            /\ clauses db' = clauses db
        end)
  /\ (forall i updates c now,
        ClauseStore.up_confidence updates = Some c ->
        ~ ((0 <= c)%Q /\ (c <= 1)%Q) ->
        has_clause i db = true ->
        exists db' e,
          ClauseStore.update i updates now db = (db', inl e)
          /\ map confidence (clauses db') = map confidence (clauses db)).
Proof.
  intros Hreach. assert (Hchecks := reachable_checks db Hreach).
  split; [| split].
  - unfold checks_hold in Hchecks.
    eapply List.Forall_impl; [| exact Hchecks].
    intros r Hr. apply row_check_spec in Hr. tauto.
  - intros input now c d.
    destruct (row_check (ClauseStore.new_clause input now (uuid_counter db)))
      eqn:E.
    + destruct (ClauseFacts.create_accepted input now db E)
        as (db' & Hrun & Hcl & _).
      rewrite Hrun. apply row_check_spec in E. simpl in E.
      repeat split; first [tauto | exact Hcl | reflexivity].
    + destruct (ClauseFacts.create_rejected input now db E)
        as (db' & e & Hrun & Hcl & _).
      rewrite Hrun. split; [| exact Hcl].
      intros H.
      assert (H' : row_check
                     (ClauseStore.new_clause input now (uuid_counter db))
                   = true).
      { apply row_check_spec. exact H. }
      congruence.
  - intros i updates c now Hc Hout Hhas.
    destruct (has_clause_find _ _ Hhas) as (r0 & Hfind).
    unfold ClauseStore.update. unfold bind at 1.
    unfold ClauseStore.get. unfold bind at 1. unfold get_clause at 1.
    rewrite Hfind. unfold bind at 1.
    rewrite update_clauses_run.
    2:{ intros r Hr _. rewrite touch_checks.
        unfold checks_hold in Hchecks. rewrite List.Forall_forall in Hchecks.
        auto. }
    cbn [ret].
    assert (Hnone : ClauseStore.no_updates updates = false).
    { destruct updates as [uc ud ut um un]. simpl in Hc. subst uc.
      reflexivity. }
    rewrite Hnone. unfold bind at 1.
    set (db1 := set_clauses _ db).
    assert (Hhas1 : has_clause i db1 = true).
    { erewrite has_clause_ids; [exact Hhas |]. unfold db1. db_simpl.
      apply updated_ids. reflexivity. }
    destruct (update_clauses_cases (fun r => Nat.eqb (id r) i)
                (ClauseStore.apply_updates updates) db1)
      as [[e E] | [E Hall]].
    + rewrite E. exists db1, e. split; [reflexivity |].
      unfold db1. db_simpl. unfold updated. rewrite map_map.
      apply map_ext. intros r. destruct (Nat.eqb (id r) i); reflexivity.
    + exfalso. apply has_clause_In in Hhas1.
      destruct Hhas1 as (r & Hr & Hid).
      specialize (Hall r Hr). rewrite Hid, Nat.eqb_refl in Hall.
      specialize (Hall eq_refl). apply row_check_spec in Hall.
      rewrite (apply_updates_confidence _ _ _ Hc) in Hall. tauto.
Qed.

(** The invariant at the store reached by one [create]. *)
Lemma confidence_in_range_at_all_times_witness :
  reachable Scenario.home_db
  /\ Forall (fun r => (0 <= confidence r)%Q /\ (confidence r <= 1)%Q)
       (clauses Scenario.home_db).
Proof.
  assert (H : reachable Scenario.home_db).
  { apply reach_step, reach_init. }
  split; [exact H |].
  exact (proj1 (confidence_in_range_at_all_times Scenario.home_db H)).
Defined.

End EngineFacts.

(** ** The clause store: reads, updates and reinforcement *)

Module StoreFacts.
Import Database DatabaseFacts ClauseStore ClauseFacts.

Lemma find_touch_twice i now now' rows :
  List.find (fun r => Nat.eqb (id r) i)
    (updated (fun r => Nat.eqb (id r) i) (touch now) rows)
  = option_map (touch now) (List.find (fun r => Nat.eqb (id r) i) rows)
  /\ updated (fun r => Nat.eqb (id r) i) (touch now')
       (updated (fun r => Nat.eqb (id r) i) (touch now) rows)
     = updated (fun r => Nat.eqb (id r) i)
         (fun r => touch now' (touch now r)) rows.
Proof.
  split.
  - apply find_updated. reflexivity.
  - apply updated_updated. reflexivity.
Qed.

Lemma checks_touched i now db :
  checks_hold db ->
  checks_hold
    (set_clauses (updated (fun r => Nat.eqb (id r) i) (touch now) (clauses db))
       db).
Proof.
  intros H. unfold checks_hold in *. db_simpl.
  apply List.Forall_forall. intros r Hr. apply In_updated in Hr.
  destruct Hr as (r1 & Hr1 & ->). rewrite List.Forall_forall in H.
  specialize (H r1 Hr1). destruct (Nat.eqb (id r1) i); exact H.
Qed.

Lemma set_clauses_twice rows rows' db :
  set_clauses rows (set_clauses rows' db) = set_clauses rows db.
Proof. reflexivity. Qed.

Lemma get_missing i now db :
  List.find (fun r => Nat.eqb (id r) i) (clauses db) = None ->
  get i now db = (db, inr None).
Proof.
  intros H. unfold get, bind, get_clause. rewrite H. reflexivity.
Qed.

(** X1.  [get] returns the row as it was stored before the call and then
    stamps it: a second [get] returns the same clause with the first call's
    time as [last_accessed] and an [access_count] one higher.  A [get] of an
    unknown id returns nothing and writes nothing. *)
Theorem get_returns_the_row_before_its_own_bump
    (i : uuid) (now now' : time) (db : DB) :
  checks_hold db ->
  match List.find (fun r => Nat.eqb (id r) i) (clauses db) with
  | None => get i now db = (db, inr None)
  | Some r0 =>
      exists db1 db2,
        get i now db = (db1, inr (Some r0))
        /\ get i now' db1 = (db2, inr (Some (touch now r0)))
        /\ access_count (touch now r0) = S (access_count r0)
        /\ last_accessed (touch now r0) = now
        /\ clauses db2
           = updated (fun r => Nat.eqb (id r) i)
               (fun r => touch now' (touch now r)) (clauses db)
  end.
Proof.
  intros Hchecks.
  destruct (List.find (fun r => Nat.eqb (id r) i) (clauses db)) as [r0 |] eqn:F.
  - destruct (find_touch_twice i now now' (clauses db)) as (F1 & U2).
    rewrite F in F1. cbn [option_map] in F1.
    eexists. eexists. split; [exact (get_run i now db r0 Hchecks F) |].
    split.
    + apply get_run; [apply checks_touched; exact Hchecks | exact F1].
    + db_simpl. repeat split. exact U2.
  - apply get_missing. exact F.
Qed.

Lemma find_In_id i (rows : list ClauseRow) r0 :
  List.find (fun r => Nat.eqb (id r) i) rows = Some r0 ->
  In r0 rows /\ id r0 = i.
Proof.
  intros H. apply find_some in H. destruct H as [Hin E].
  apply Nat.eqb_eq in E. auto.
Qed.

Lemma only_row i db r0 r :
  wf db ->
  List.find (fun r => Nat.eqb (id r) i) (clauses db) = Some r0 ->
  In r (clauses db) -> Nat.eqb (id r) i = true -> r = r0.
Proof.
  intros Hwf F Hr E. apply Nat.eqb_eq in E.
  destruct (find_In_id _ _ _ F) as (Hin0 & E0).
  eapply NoDup_ids_inj; [exact (wf_primary_key _ Hwf) | | | congruence]; auto.
Qed.

Lemma apply_updates_touch u now r :
  apply_updates u (touch now r) = touch now (apply_updates u r).
Proof.
  unfold apply_updates, apply_opt.
  destruct (up_natural_form u), (up_metadata u), (up_tags u),
    (up_decay_rate u), (up_confidence u); reflexivity.
Qed.

Lemma apply_updates_fixed u r :
  id (apply_updates u r) = id r
  /\ type (apply_updates u r) = type r
  /\ subject (apply_updates u r) = subject r
  /\ predicate (apply_updates u r) = predicate r
  /\ object (apply_updates u r) = object r
  /\ valid_from (apply_updates u r) = valid_from r
  /\ valid_to (apply_updates u r) = valid_to r
  /\ recorded_at (apply_updates u r) = recorded_at r
  /\ reinforcement_count (apply_updates u r) = reinforcement_count r
  /\ source_id (apply_updates u r) = source_id r
  /\ extraction_method (apply_updates u r) = extraction_method r
  /\ last_accessed (apply_updates u r) = last_accessed r
  /\ access_count (apply_updates u r) = access_count r.
Proof.
  unfold apply_updates, apply_opt.
  destruct (up_natural_form u), (up_metadata u), (up_tags u),
    (up_decay_rate u), (up_confidence u); cbn; repeat split.
Qed.

Lemma row_check_touch now r : row_check (touch now r) = row_check r.
Proof. reflexivity. Qed.

Lemma update_run i u now db r0 :
  wf db ->
  List.find (fun r => Nat.eqb (id r) i) (clauses db) = Some r0 ->
  no_updates u = false ->
  row_check (apply_updates u r0) = true ->
  update i u now db
  = (set_clauses
       (updated (fun r => Nat.eqb (id r) i)
          (fun r => touch now (apply_updates u (touch now r))) (clauses db))
       db,
     inr (Some (apply_updates u (touch now r0)))).
Proof.
  intros Hwf F Hsome Hrow. assert (Hchecks := wf_checks _ Hwf).
  unfold update. unfold bind at 1. rewrite (get_run i now db r0 Hchecks F).
  rewrite Hsome. unfold bind at 1.
  rewrite update_clauses_run.
  2:{ db_simpl. intros r Hr E. apply In_updated in Hr.
      destruct Hr as (r1 & Hr1 & ->).
      destruct (Nat.eqb (id r1) i) eqn:E1.
      - rewrite (only_row i db r0 r1 Hwf F Hr1 E1).
        rewrite apply_updates_touch. exact Hrow.
      - rewrite E1 in E. discriminate. }
  db_simpl. rewrite updated_updated by reflexivity.
  rewrite set_clauses_twice. set (db1 := set_clauses _ db).
  assert (F1 : List.find (fun r => Nat.eqb (id r) i) (clauses db1)
               = Some (apply_updates u (touch now r0))).
  { unfold db1. db_simpl. rewrite find_updated.
    - rewrite F. reflexivity.
    - intros r. destruct (apply_updates_fixed u (touch now r)) as (E & _).
      exact E. }
  assert (Hchecks1 : checks_hold db1).
  { unfold db1, checks_hold. db_simpl.
    apply List.Forall_forall. intros r Hr. apply In_updated in Hr.
    destruct Hr as (r1 & Hr1 & ->).
    destruct (Nat.eqb (id r1) i) eqn:E1.
    - rewrite (only_row i db r0 r1 Hwf F Hr1 E1).
      rewrite apply_updates_touch. exact Hrow.
    - exact (checks_In db r1 Hchecks Hr1). }
  rewrite (get_run i now db1 _ Hchecks1 F1).
  unfold db1. db_simpl. rewrite set_clauses_twice, updated_updated.
  - reflexivity.
  - intros r. destruct (apply_updates_fixed u (touch now r)) as (E & _).
    rewrite E. reflexivity.
Qed.

(** X2.  An accepted [update] returns the clause with the requested fields
    replaced; whatever is asked, the clause keeps its id, type, subject,
    predicate, object, validity interval, recording time, reinforcement
    count and provenance.  The clause returned was read before the call's
    last access bump: the stored row has been accessed once more. *)
Theorem update_rewrites_only_the_five_fields
    (i : uuid) (u : ClauseUpdates) (now : time) (db : DB) (r0 : ClauseRow) :
  wf db ->
  List.find (fun r => Nat.eqb (id r) i) (clauses db) = Some r0 ->
  no_updates u = false ->
  row_check (apply_updates u r0) = true ->
  exists db' c,
    update i u now db = (db', inr (Some c))
    /\ List.find (fun r => Nat.eqb (id r) i) (clauses db') = Some (touch now c)
    /\ (id c = id r0 /\ type c = type r0 /\ subject c = subject r0
        /\ predicate c = predicate r0 /\ object c = object r0
        /\ valid_from c = valid_from r0 /\ valid_to c = valid_to r0
        /\ recorded_at c = recorded_at r0
        /\ reinforcement_count c = reinforcement_count r0
        /\ source_id c = source_id r0
        /\ extraction_method c = extraction_method r0)
    /\ access_count c = S (access_count r0)
    /\ confidence c = orElse (up_confidence u) (confidence r0)
    /\ decay_rate c = orElse (up_decay_rate u) (decay_rate r0)
    /\ tags c = orElse (up_tags u) (tags r0)
    /\ metadata c = orElse (up_metadata u) (metadata r0)
    /\ natural_form c = orElse (up_natural_form u) (natural_form r0)
    /\ forall r, In r (clauses db) -> id r <> i -> In r (clauses db').
Proof.
  intros Hwf F Hsome Hrow.
  eexists. eexists. split; [exact (update_run i u now db r0 Hwf F Hsome Hrow) |].
  db_simpl. split.
  { rewrite find_updated.
    - rewrite F. reflexivity.
    - intros r. destruct (apply_updates_fixed u (touch now r)) as (E & _).
      exact E. }
  destruct (apply_updates_fixed u (touch now r0))
    as (E1 & E2 & E3 & E4 & E5 & E6 & E7 & E8 & E9 & E10 & E11 & E12 & E13).
  split; [repeat split; assumption |].
  split; [exact E13 |].
  unfold apply_updates, apply_opt, orElse.
  repeat split;
    try (destruct (up_natural_form u), (up_metadata u), (up_tags u),
           (up_decay_rate u), (up_confidence u); reflexivity).
  intros r Hr Hne. unfold updated. apply in_map_iff. exists r. split; auto.
  destruct (Nat.eqb (id r) i) eqn:E; [| reflexivity].
  apply Nat.eqb_eq in E. contradiction.
Qed.

(** X3.  An [update] that would break a CHECK constraint raises, and the
    clause keeps every field it had, except that the access bump of the
    read that precedes the UPDATE statement stays. *)
Theorem update_rejected_keeps_the_row_but_counts_the_access
    (i : uuid) (u : ClauseUpdates) (now : time) (db : DB) (r0 : ClauseRow) :
  checks_hold db ->
  List.find (fun r => Nat.eqb (id r) i) (clauses db) = Some r0 ->
  no_updates u = false ->
  row_check (apply_updates u r0) = false ->
  exists e,
    update i u now db
    = (set_clauses
         (updated (fun r => Nat.eqb (id r) i) (touch now) (clauses db)) db,
       inl e).
Proof.
  intros Hchecks F Hsome Hrow.
  unfold update. unfold bind at 1. rewrite (get_run i now db r0 Hchecks F).
  rewrite Hsome. unfold bind at 1. unfold update_clauses.
  replace (forallb _ _) with false; [eexists; reflexivity |].
  symmetry. apply not_true_is_false. intros Hall.
  rewrite forallb_forall in Hall.
  destruct (find_In_id _ _ _ F) as (Hin & E).
  specialize (Hall (touch now r0)).
  assert (Hin' : In (touch now r0)
                   (clauses (set_clauses
                      (updated (fun r => Nat.eqb (id r) i) (touch now)
                         (clauses db)) db))).
  { db_simpl. unfold updated. apply in_map_iff. exists r0. split; auto.
    rewrite E, Nat.eqb_refl. reflexivity. }
  specialize (Hall Hin'). cbn [id touch] in Hall.
  rewrite E, Nat.eqb_refl in Hall. cbn [negb orb] in Hall.
  rewrite apply_updates_touch, row_check_touch in Hall. congruence.
Qed.

Lemma reinforce_missing i amount now db :
  List.find (fun r => Nat.eqb (id r) i) (clauses db) = None ->
  reinforce i amount now db = (db, inr tt).
Proof.
  intros H. unfold reinforce. unfold bind at 1. rewrite (get_missing _ _ _ H).
  reflexivity.
Qed.

Lemma reinforce_full_run i amount now db r0 :
  checks_hold db ->
  List.find (fun r => Nat.eqb (id r) i) (clauses db) = Some r0 ->
  (0 <= confidence r0 + amount)%Q ->
  let c := Js.Math_min 1 (confidence r0 + amount) in
  reinforce i amount now db
  = (mkDB
       (updated (fun r => Nat.eqb (id r) i)
          (fun r => reinforced_row c now (touch now r)) (clauses db))
       (conflicts db)
       (decay_log db
        ++ [mkDecayLog (uuid_counter db) i (confidence r0) c
              "reinforcement" now])
       (access_log db
        ++ [mkAccessLog (S (uuid_counter db)) i reinforcement
              "successful_use" now])
       (system_metadata db) (S (S (uuid_counter db))),
     inr tt).
Proof.
  intros Hchecks Hfind Hpos. cbv zeta.
  destruct (find_some_has _ _ _ Hfind) as (Hhas & _ & _).
  unfold reinforce. unfold bind at 1. rewrite (get_run _ _ _ _ Hchecks Hfind).
  unfold bind at 1.
  rewrite update_clauses_run.
  2:{ db_simpl. intros r Hr _. apply In_updated in Hr.
      destruct Hr as (r1 & Hr1 & ->).
      assert (H1 := checks_In db r1 Hchecks Hr1).
      apply row_check_spec in H1. apply row_check_spec.
      assert (Hmin : (0 <= Js.Math_min 1 (confidence r0 + amount))%Q)
        by (apply JsFacts.Math_min_glb; [discriminate | exact Hpos]).
      assert (Hmax : (Js.Math_min 1 (confidence r0 + amount) <= 1)%Q)
        by apply JsFacts.Math_min_le_l.
      destruct (Nat.eqb (id r1) i); simpl; tauto. }
  db_simpl. rewrite updated_updated by reflexivity.
  rewrite set_clauses_twice.
  unfold bind at 1.
  rewrite logDecay_run.
  2:{ erewrite has_clause_ids; [exact Hhas |]. db_simpl.
      apply updated_ids. reflexivity. }
  rewrite logAccess_run.
  2:{ erewrite has_clause_ids; [exact Hhas |]. db_simpl.
      apply updated_ids. reflexivity. }
  db_simpl. reflexivity.
Qed.

(** X4.  [reinforce] with a non-negative amount raises the confidence to
    [min(1, confidence + amount)], never lowering it and never leaving
    [0,1]; it adds one to the reinforcement count and two to the access
    count (its own read and its UPDATE), and records exactly one decay-log
    and one access-log entry.  Reinforcing an unknown id does nothing. *)
Theorem reinforce_raises_confidence_up_to_one
    (i : uuid) (amount : Q) (now : time) (db : DB) :
  checks_hold db ->
  (0 <= amount)%Q ->
  match List.find (fun r => Nat.eqb (id r) i) (clauses db) with
  | None => reinforce i amount now db = (db, inr tt)
  | Some r0 =>
      exists db' r',
        reinforce i amount now db = (db', inr tt)
        /\ List.find (fun r => Nat.eqb (id r) i) (clauses db') = Some r'
        /\ confidence r' = Js.Math_min 1 (confidence r0 + amount)
        /\ (confidence r0 <= confidence r')%Q /\ (confidence r' <= 1)%Q
        /\ reinforcement_count r' = S (reinforcement_count r0)
        /\ access_count r' = S (S (access_count r0))
        /\ last_accessed r' = now
        /\ valid_to r' = valid_to r0
        /\ decay_log db'
           = (decay_log db
              ++ [mkDecayLog (uuid_counter db) i (confidence r0)
                    (confidence r') "reinforcement" now])%list
        /\ access_log db'
           = (access_log db
              ++ [mkAccessLog (S (uuid_counter db)) i reinforcement
                    "successful_use" now])%list
        /\ forall r, In r (clauses db) -> id r <> i -> In r (clauses db')
  end.
Proof.
  intros Hchecks Hamount.
  destruct (List.find (fun r => Nat.eqb (id r) i) (clauses db)) as [r0 |] eqn:F.
  2:{ apply reinforce_missing. exact F. }
  destruct (find_In_id _ _ _ F) as (Hin & E).
  assert (Hr0 := checks_In db r0 Hchecks Hin). apply row_check_spec in Hr0.
  eexists. eexists. split.
  { apply (reinforce_full_run i amount now db r0 Hchecks F). lra. }
  db_simpl. split.
  { rewrite find_updated by reflexivity. rewrite F. reflexivity. }
  cbn [confidence reinforced_row touch bump_reinforcement set_confidence
       reinforcement_count access_count last_accessed valid_to].
  repeat split.
  - apply JsFacts.Math_min_glb; lra.
  - apply JsFacts.Math_min_le_l.
  - intros r Hr Hne. unfold updated. apply in_map_iff. exists r. split; auto.
    destruct (Nat.eqb (id r) i) eqn:E'; [| reflexivity].
    apply Nat.eqb_eq in E'. contradiction.
Qed.


(** *** [processNewClause]: the branches that add no conflict *)

Lemma first_conflicting_found input db old rest :
  wf db ->
  List.filter (conflicting input) (clauses db) = old :: rest ->
  List.find (fun r => Nat.eqb (id r) (id old)) (clauses db) = Some old
  /\ In old (clauses db) /\ conflicting input old = true.
Proof.
  intros Hwf Hsel.
  destruct (filter_head_In _ _ _ _ Hsel) as (Hin & Hconf).
  assert (Hhas : has_clause (id old) db = true).
  { apply has_clause_In. eauto. }
  destruct (has_clause_find _ _ Hhas) as (r0 & Hfind).
  destruct (find_In_id _ _ _ Hfind) as (Hin0 & Hid0).
  assert (r0 = old) as ->.
  { eapply NoDup_ids_inj; [exact (wf_primary_key _ Hwf) | | |]; eauto. }
  auto.
Qed.

Lemma identical_run input now db old rest :
  wf db ->
  List.filter (conflicting input) (clauses db) = old :: rest ->
  analyzeRelation old input = identical ->
  exists db',
    processNewClause input now db = (db', inr (action_reinforced (id old)))
    /\ clauses db'
       = updated (fun r => Nat.eqb (id r) (id old))
           (fun r =>
              reinforced_row (Js.Math_min 1 (confidence old + 0.05)) now
                (touch now r))
           (clauses db)
    /\ conflicts db' = conflicts db.
Proof.
  intros Hwf Hsel Hrel.
  destruct (first_conflicting_found input db old rest Hwf Hsel)
    as (Hfind & Hin & Hconf).
  assert (Hchecks := wf_checks _ Hwf).
  rewrite processNewClause_unfold, Hsel, Hrel.
  unfold bind. rewrite reinforce_full_run with (r0 := old); auto.
  - eexists. split; [reflexivity |]. db_simpl. auto.
  - apply (checks_In _ _ Hchecks), row_check_spec in Hin. lra.
Qed.

(** X5.  A candidate that restates, up to letter case, the object of the
    first clause conflict detection sees for its subject and predicate is
    not stored: that clause is reinforced by 0.05 instead, nothing is
    inserted, invalidated or flagged, and the candidate's own confidence
    and wording are dropped. *)
Theorem restated_value_reinforces_the_known_clause
    (input : ClauseInput) (now : time) (db : DB) (old : ClauseRow)
    (rest : list ClauseRow) :
  wf db ->
  List.filter (conflicting input) (clauses db) = old :: rest ->
  Js.toLowerCase (object old) = Js.toLowerCase (in_object input) ->
  exists db' r',
    processNewClause input now db = (db', inr (action_reinforced (id old)))
    /\ map id (clauses db') = map id (clauses db)
    /\ map valid_to (clauses db') = map valid_to (clauses db)
    /\ map natural_form (clauses db') = map natural_form (clauses db)
    /\ conflicts db' = conflicts db
    /\ List.find (fun r => Nat.eqb (id r) (id old)) (clauses db') = Some r'
    /\ confidence r' = Js.Math_min 1 (confidence old + 0.05)
    /\ reinforcement_count r' = S (reinforcement_count old).
Proof.
  intros Hwf Hsel Hobj.
  assert (Hrel : analyzeRelation old input = identical).
  { unfold analyzeRelation. rewrite Hobj, String.eqb_refl. reflexivity. }
  destruct (identical_run input now db old rest Hwf Hsel Hrel)
    as (db' & Hrun & Hcl & Hconf).
  destruct (first_conflicting_found input db old rest Hwf Hsel)
    as (Hfind & _ & _).
  exists db'. eexists. split; [exact Hrun |]. rewrite Hcl.
  split; [apply updated_ids; reflexivity |].
  split.
  { unfold updated. rewrite map_map. apply map_ext. intros r.
    destruct (Nat.eqb (id r) (id old)); reflexivity. }
  split.
  { unfold updated. rewrite map_map. apply map_ext. intros r.
    destruct (Nat.eqb (id r) (id old)); reflexivity. }
  split; [exact Hconf |].
  split.
  { rewrite find_updated by reflexivity. rewrite Hfind. reflexivity. }
  split; reflexivity.
Qed.

Lemma multi_value_not_singleton p :
  In p MULTI_VALUE_PREDICATES ->
  includes_str SINGLETON_PREDICATES p = false
  /\ includes_str MULTI_VALUE_PREDICATES p = true.
Proof.
  intros H. split.
  - unfold MULTI_VALUE_PREDICATES in H. simpl in H.
    repeat (destruct H as [<- | H]; [reflexivity |]). contradiction.
  - apply includes_str_In. exact H.
Qed.

(** X6.  For a multi-valued predicate ([likes], [knows], ...) a candidate
    never retires a clause and never opens a conflict: it is either stored
    beside the clauses that are there, or, if it restates the first visible
    one, reinforces it.  (Stated for ASCII objects, of the candidate and of
    the clauses conflict detection selects: on them the case folding of
    the model is JavaScript's.) *)
Theorem multi_valued_candidates_coexist
    (input : ClauseInput) (now : time) (db : DB) :
  wf db ->
  In (in_predicate input) MULTI_VALUE_PREDICATES ->
  Js.is_ascii (in_object input) = true ->
  Forall (fun r => Js.is_ascii (object r) = true)
    (List.filter (conflicting input) (clauses db)) ->
  row_check (new_clause input now (uuid_counter db)) = true ->
  exists db' res,
    processNewClause input now db = (db', inr res)
    /\ conflicts db' = conflicts db
    /\ map valid_to (firstn (List.length (clauses db)) (clauses db'))
       = map valid_to (clauses db)
    /\ ((res = action_insert (new_clause input now (uuid_counter db))
         /\ clauses db'
            = (clauses db ++ [new_clause input now (uuid_counter db)])%list)
        \/ (exists old,
              res = action_reinforced (id old)
              /\ In old (clauses db)
              /\ Js.toLowerCase (object old)
                 = Js.toLowerCase (in_object input)
              /\ List.length (clauses db') = List.length (clauses db))).
Proof.
  intros Hwf Hmulti _ _ Hrow.
  destruct (List.filter (conflicting input) (clauses db))
    as [| old rest] eqn:Hsel.
  - rewrite processNewClause_unfold, Hsel.
    destruct (create_accepted input now db Hrow) as (db' & Hrun & Hcl & _ & Hc).
    unfold bind. rewrite Hrun. eexists. eexists.
    split; [reflexivity |]. split; [exact Hc |].
    rewrite Hcl. split; [| left; auto].
    rewrite firstn_app, Nat.sub_diag, firstn_all. simpl.
    rewrite app_nil_r. reflexivity.
  - destruct (first_conflicting_found input db old rest Hwf Hsel)
      as (Hfind & Hin & Hconf).
    destruct (conflicting_spec _ _ Hconf) as (_ & Hpred & _ & _).
    destruct (multi_value_not_singleton _ Hmulti) as (Hns & Hm).
    destruct (analyzeRelation old input) eqn:Hrel.
    + destruct (identical_run input now db old rest Hwf Hsel Hrel)
        as (db' & Hrun & Hcl & Hc).
      assert (Hlen : List.length (clauses db') = List.length (clauses db)).
      { rewrite Hcl. unfold updated. apply length_map. }
      exists db'. eexists. split; [exact Hrun |]. split; [exact Hc |].
      split.
      * rewrite <- Hlen, firstn_all, Hcl. unfold updated.
        rewrite map_map. apply map_ext. intros r.
        destruct (Nat.eqb (id r) (id old)); reflexivity.
      * right. exists old. repeat split; auto.
        pose proof (analyzeRelation_singleton old input) as H.
        rewrite Hrel in H. exact H.
    + exfalso. unfold analyzeRelation in Hrel. rewrite Hpred, Hns, Hm in Hrel.
      destruct (String.eqb _ _); discriminate.
    + exfalso. unfold analyzeRelation in Hrel. rewrite Hpred, Hns, Hm in Hrel.
      destruct (String.eqb _ _); discriminate.
    + rewrite processNewClause_unfold, Hsel, Hrel.
      destruct (create_accepted input now db Hrow)
        as (db' & Hrun & Hcl & _ & Hc).
      unfold bind. rewrite Hrun. eexists. eexists.
      split; [reflexivity |]. split; [exact Hc |].
      rewrite Hcl. split; [| left; auto].
      rewrite firstn_app, Nat.sub_diag, firstn_all. simpl.
      rewrite app_nil_r. reflexivity.
Qed.


(** *** Deduplication *)

Lemma ratio_range n m : n <= m -> 0 < m -> (0 <= ratio n m)%Q /\ (ratio n m <= 1)%Q.
Proof.
  intros Hle Hpos. unfold ratio.
  assert (Hm : (0 < inject_Z (Z.of_nat m))%Q).
  { change 0%Q with (inject_Z 0). rewrite <- Zlt_Qlt. lia. }
  assert (Hn : (0 <= inject_Z (Z.of_nat n))%Q).
  { change 0%Q with (inject_Z 0). rewrite <- Zle_Qle. lia. }
  assert (Hnm : (inject_Z (Z.of_nat n) <= inject_Z (Z.of_nat m))%Q).
  { rewrite <- Zle_Qle. lia. }
  split.
  - apply Qle_shift_div_l; [exact Hm |]. lra.
  - apply Qle_shift_div_r; [exact Hm |]. lra.
Qed.

Lemma ratio_one n m : 0 < m -> (ratio n m == 1)%Q <-> n = m.
Proof.
  intros Hpos. unfold ratio.
  assert (Hm : ~ (inject_Z (Z.of_nat m) == 0)%Q).
  { change 0%Q with (inject_Z 0). rewrite inject_Z_injective. lia. }
  split.
  - intros H.
    assert (E : (inject_Z (Z.of_nat n) == inject_Z (Z.of_nat m))%Q).
    { rewrite <- (Qmult_div_r (inject_Z (Z.of_nat n))
                    (inject_Z (Z.of_nat m)) Hm).
      rewrite H. ring. }
    apply (proj1 (inject_Z_injective _ _)) in E. lia.
  - intros ->. field. exact Hm.
Qed.

Lemma size_zero_empty (X : gset string) : Nat.eqb (size X) 0 = true <-> X = ∅.
Proof.
  rewrite Nat.eqb_eq. split.
  - intros H. apply leibniz_equiv. apply size_empty_inv. exact H.
  - intros ->. apply size_empty.
Qed.

Lemma jaccard_facts (A B : gset string) :
  let sim (X Y : gset string) :=
    if Nat.eqb (size X) 0 && Nat.eqb (size Y) 0 then 1%Q
    else if Nat.eqb (size X) 0 || Nat.eqb (size Y) 0 then 0%Q
    else ratio (size (X ∩ Y)) (size (X ∪ Y)) in
  sim A B = sim B A
  /\ (0 <= sim A B)%Q /\ (sim A B <= 1)%Q
  /\ ((sim A B == 1)%Q <-> A = B).
Proof.
  cbv zeta. split.
  { rewrite (andb_comm (Nat.eqb (size B) 0)), (orb_comm (Nat.eqb (size B) 0)).
    assert (Ei : B ∩ A = A ∩ B) by apply (comm_L (∩)).
    assert (Eu : B ∪ A = A ∪ B) by apply (comm_L (∪)).
    rewrite Ei, Eu. reflexivity. }
  destruct (Nat.eqb (size A) 0) eqn:EA, (Nat.eqb (size B) 0) eqn:EB;
    cbn [andb orb].
  - apply size_zero_empty in EA, EB. rewrite EA, EB.
    repeat split; try discriminate; try reflexivity.
  - repeat split; try discriminate.
    intros H. rewrite <- H in EB. congruence.
  - repeat split; try discriminate.
    intros H. rewrite H in EA. congruence.
  - assert (Hsub : A ∩ B ⊆ A ∪ B).
    { etrans; [apply intersection_subseteq_l | apply union_subseteq_l]. }
    assert (Hle : size (A ∩ B) <= size (A ∪ B))
      by (apply subseteq_size; exact Hsub).
    assert (Hpos : 0 < size (A ∪ B)).
    { apply Nat.eqb_neq in EA.
      assert (size A <= size (A ∪ B))
        by (apply subseteq_size, union_subseteq_l).
      lia. }
    destruct (ratio_range _ _ Hle Hpos) as (H0 & H1).
    repeat split; try assumption.
    + intros H. apply (ratio_one _ _ Hpos) in H.
      assert (Heq : A ∩ B ≡ A ∪ B).
      { apply set_subseteq_size_equiv; [exact Hsub | lia]. }
      apply leibniz_equiv, (anti_symm (⊆)).
      * etrans; [apply (union_subseteq_l A B) |]. rewrite <- Heq.
        apply intersection_subseteq_r.
      * etrans; [apply (union_subseteq_r A B) |]. rewrite <- Heq.
        apply intersection_subseteq_l.
    + intros H. apply (ratio_one _ _ Hpos).
      rewrite H, (idemp_L (∩)), (idemp_L (∪)). reflexivity.
Qed.

(** X7.  The similarity of two texts is symmetric, lies in [0,1], and is 1
    exactly when the texts have the same set of lower-cased words of three
    or more characters (in particular for a text and itself). *)
Theorem calculateSimilarity_is_a_jaccard_index (a b : string) :
  calculateSimilarity a b = calculateSimilarity b a
  /\ (0 <= calculateSimilarity a b)%Q /\ (calculateSimilarity a b <= 1)%Q
  /\ ((calculateSimilarity a b == 1)%Q <-> words a = words b).
Proof. exact (jaccard_facts (words a) (words b)). Qed.

Lemma same_spo_spec input r :
  same_spo input r = true
  <-> valid_to r = None /\ subject r = in_subject input
      /\ predicate r = in_predicate input /\ object r = in_object input.
Proof.
  unfold same_spo, is_active. rewrite !andb_true_iff, !String.eqb_eq.
  destruct (valid_to r); split; intros H; try tauto.
  - destruct H as (((H & _) & _) & _). discriminate.
  - destruct H as (H & _). discriminate.
Qed.

(** X8.  [findDuplicate] only reads: however it ends, the database is as
    it found it.  Switched off it finds nothing.  With the exact pass on,
    the first active clause with the candidate's subject, predicate and
    object is reported as an exact match of similarity 1, whatever its
    wording; and an exact match is always such a clause.  The call raises
    in one case only, with the index's syntax error: the exact pass and
    the pass over the clauses of the same subject and predicate found
    nothing, and the index rejects the candidate's first five words as a
    MATCH expression; whenever the index accepts them the call returns. *)
Theorem findDuplicate_reads_and_matches_exactly
    (fts5 : TextIndex) (cfg : DeduplicationConfig) (input : ClauseInput)
    (db : DB) :
  exists out,
    findDuplicate fts5 cfg input db = (db, out)
    /\ (enabled cfg = false -> out = inr (mkDup false None 0 no_match))
    /\ (enabled cfg = true -> useContentHash cfg = true ->
        forall row rest,
          List.filter (same_spo input) (clauses db) = row :: rest ->
          out = inr (mkDup true (Some row) 1 exact_match))
    /\ (forall res,
          out = inr res ->
          matchType res = exact_match ->
          exists c,
            dup_clause res = Some c /\ In c (clauses db)
            /\ valid_to c = None /\ subject c = in_subject input
            /\ predicate c = in_predicate input
            /\ object c = in_object input)
    /\ (fts_rejects fts5 (dedup_fts_query (in_natural_form input)) = false ->
        exists res, out = inr res)
    /\ (forall e,
          out = inl e <->
          e = fts_syntax_error
          /\ fts_rejects fts5 (dedup_fts_query (in_natural_form input)) = true
          /\ enabled cfg = true
          /\ useFuzzyMatch cfg = true
          /\ (useContentHash cfg = true ->
              List.filter (same_spo input) (clauses db) = [])
          /\ first_similar (similarityThreshold cfg) (in_natural_form input)
               (List.filter (visible (in_subject input) (in_predicate input))
                  (clauses db)) = None).
Proof.
  unfold findDuplicate.
  destruct (enabled cfg) eqn:Hen; cbn [negb].
  2:{ eexists. split; [reflexivity |].
      split; [reflexivity |]. split; [discriminate |].
      split; [intros res E; injection E as <-; discriminate |].
      split; [intros _; eexists; reflexivity |].
      intros e. split; [discriminate |].
      intros (_ & _ & H & _). discriminate. }
  unfold bind at 1.
  assert (Hexact :
    exists existing,
      (if useContentHash cfg then select_clauses (same_spo input) else ret [])
        db = (db, inr existing)
      /\ (useContentHash cfg = true ->
          existing = List.filter (same_spo input) (clauses db))
      /\ (useContentHash cfg = false -> existing = [])).
  { destruct (useContentHash cfg); eexists; split; try reflexivity;
      split; try discriminate; reflexivity. }
  destruct Hexact as (existing & -> & Hex & Hnohash).
  destruct existing as [| row rest].
  2:{ eexists. split; [reflexivity |].
      split; [discriminate |]. split.
      { intros _ Hh row' rest' E. rewrite <- (Hex Hh) in E.
        inversion E. reflexivity. }
      split.
      { intros res E _. injection E as <-. exists row.
        cbn [dup_clause]. unfold rowToClause.
        destruct (useContentHash cfg) eqn:Hh;
          [| specialize (Hnohash eq_refl); discriminate].
        symmetry in Hex. specialize (Hex eq_refl).
        destruct (filter_head_In _ _ _ _ Hex) as (Hin & Hspo).
        apply same_spo_spec in Hspo. tauto. }
      split; [intros _; eexists; reflexivity |].
      intros e. split; [discriminate |].
      intros (_ & _ & _ & _ & Hnil & _).
      destruct (useContentHash cfg) eqn:Hh;
        [| specialize (Hnohash eq_refl); discriminate].
      rewrite (Hnil eq_refl) in Hex. specialize (Hex eq_refl). discriminate. }
  assert (Hnil : useContentHash cfg = true ->
                 List.filter (same_spo input) (clauses db) = []).
  { intros Hh. symmetry. exact (Hex Hh). }
  assert (Hno : forall row rest,
            useContentHash cfg = true ->
            List.filter (same_spo input) (clauses db) <> row :: rest).
  { intros row rest Hh E. rewrite (Hnil Hh) in E. discriminate. }
  destruct (useFuzzyMatch cfg) eqn:Hfz.
  2:{ eexists. split; [reflexivity |].
      split; [discriminate |]. split.
      { intros _ Hh row rest E. destruct (Hno row rest Hh E). }
      split; [intros res E; injection E as <-; discriminate |].
      split; [intros _; eexists; reflexivity |].
      intros e. split; [discriminate |].
      intros (_ & _ & _ & H & _). discriminate. }
  unfold bind at 1. unfold select_clauses at 1.
  destruct (first_similar (similarityThreshold cfg) (in_natural_form input)
              (List.filter (visible (in_subject input) (in_predicate input))
                 (clauses db)))
    as [[c s] |] eqn:Hfirst.
  { eexists. split; [reflexivity |].
    split; [discriminate |]. split.
    { intros _ Hh row rest E. destruct (Hno row rest Hh E). }
    split; [intros res E; injection E as <-; discriminate |].
    split; [intros _; eexists; reflexivity |].
    intros e. split; [discriminate |].
    intros (_ & _ & _ & _ & _ & H). discriminate. }
  unfold bind at 1.
  destruct (fts_rejects fts5 (dedup_fts_query (in_natural_form input)))
    eqn:Hrej.
  { eexists. split; [reflexivity |].
    split; [discriminate |]. split.
    { intros _ Hh row rest E. destruct (Hno row rest Hh E). }
    split; [discriminate |].
    split; [discriminate |].
    intros e. split.
    - intros E. injection E as <-.
      repeat split; first [reflexivity | assumption].
    - intros (-> & _). reflexivity. }
  match goal with
  | |- context [first_similar ?t ?n ?rows] =>
      destruct (first_similar t n rows) as [[c s] |]
  end;
    (eexists; split; [reflexivity |];
     split; [discriminate |]; split;
     [intros _ Hh row rest E; destruct (Hno row rest Hh E) |];
     split; [intros res E; injection E as <-; discriminate |];
     split; [intros _; eexists; reflexivity |];
     intros e; split; [discriminate |];
     intros (_ & H & _); discriminate).
Qed.

(** On the tea store: a candidate whose wording holds an address is
    refused by the index, another one is answered. *)
Lemma findDuplicate_reads_and_matches_exactly_witness :
  findDuplicate Scenario.plain_index DEFAULT_DEDUP_CONFIG Scenario.email_input
    Scenario.tea_db
  = (Scenario.tea_db, inl fts_syntax_error)
  /\ exists res,
       findDuplicate Scenario.plain_index DEFAULT_DEDUP_CONFIG
         Scenario.tea_again Scenario.tea_db
       = (Scenario.tea_db, inr res).
Proof.
  split.
  - destruct (findDuplicate_reads_and_matches_exactly Scenario.plain_index
                DEFAULT_DEDUP_CONFIG Scenario.email_input Scenario.tea_db)
      as (out & Hrun & _ & _ & _ & _ & Hraise).
    rewrite Hrun. f_equal. apply Hraise.
    repeat split; try reflexivity.
  - destruct (findDuplicate_reads_and_matches_exactly Scenario.plain_index
                DEFAULT_DEDUP_CONFIG Scenario.tea_again Scenario.tea_db)
      as (out & Hrun & _ & _ & _ & Hret & _).
    destruct (Hret eq_refl) as (res & ->).
    exists res. exact Hrun.
Defined.


(** X24.  For a singleton predicate ([lives_in], [works_at], ...) a
    candidate whose object differs, case-insensitively, from that of the
    first clause conflict detection sees (both objects ASCII text) retires
    that clause and is stored in its place: the old row gets
    [valid_to = now] and the reason [superseded] and is otherwise
    untouched (it is not even counted as accessed), the candidate is
    appended as a new active row, and no conflict is recorded. *)
Theorem singleton_candidate_supersedes_the_known_clause
    (input : ClauseInput) (now : time) (db : DB) (old : ClauseRow)
    (rest : list ClauseRow) :
  wf db ->
  List.filter (conflicting input) (clauses db) = old :: rest ->
  Js.is_ascii (object old) = true ->
  Js.is_ascii (in_object input) = true ->
  Js.toLowerCase (object old) <> Js.toLowerCase (in_object input) ->
  In (in_predicate input) SINGLETON_PREDICATES ->
  row_check (new_clause input now (uuid_counter db)) = true ->
  exists db',
    let newClause := new_clause input now (uuid_counter db) in
    processNewClause input now db
    = (db', inr (action_superseded newClause (id old)))
    /\ clauses db'
       = (updated (fun r => Nat.eqb (id r) (id old))
            (invalidated_row (Some "superseded") now) (clauses db)
          ++ [newClause])%list
    /\ List.find (fun r => Nat.eqb (id r) (id old)) (clauses db')
       = Some (invalidated_row (Some "superseded") now old)
    /\ valid_to (invalidated_row (Some "superseded") now old) = Some now
    /\ metadata (invalidated_row (Some "superseded") now old)
         !! "invalidation_reason" = Some "superseded"
    /\ access_count (invalidated_row (Some "superseded") now old)
       = access_count old
    /\ valid_to newClause = None
    /\ conflicts db' = conflicts db.
Proof.
  intros Hwf Hsel _ _ Hobj Hsingle Hrow. cbv zeta.
  destruct (first_conflicting_found input db old rest Hwf Hsel)
    as (Hfind & Hin & Hconf).
  destruct (conflicting_spec _ _ Hconf) as (_ & Hp & _ & _).
  assert (Hchecks := wf_checks _ Hwf).
  assert (Hrel : analyzeRelation old input = rel_supersession).
  { unfold analyzeRelation.
    destruct (String.eqb_spec (Js.toLowerCase (object old))
                (Js.toLowerCase (in_object input))); [contradiction |].
    rewrite Hp. apply includes_str_In in Hsingle. rewrite Hsingle.
    reflexivity. }
  rewrite processNewClause_unfold, Hsel, Hrel.
  unfold bind at 1. rewrite (invalidate_run _ _ _ _ Hchecks).
  set (db1 := set_clauses _ db).
  assert (Hrow1 : row_check (new_clause input now (uuid_counter db1)) = true)
    by exact Hrow.
  destruct (create_accepted input now db1 Hrow1)
    as (db' & Hrun & Hcl & _ & Hc).
  unfold bind. rewrite Hrun. exists db'.
  split; [reflexivity |]. split; [exact Hcl |].
  split.
  { rewrite Hcl. unfold db1. db_simpl.
    assert (F : List.find (fun r => Nat.eqb (id r) (id old))
                  (updated (fun r => Nat.eqb (id r) (id old))
                     (invalidated_row (Some "superseded") now) (clauses db))
                = Some (invalidated_row (Some "superseded") now old)).
    { rewrite find_updated by reflexivity. rewrite Hfind. reflexivity. }
    revert F. generalize (updated (fun r => Nat.eqb (id r) (id old))
                            (invalidated_row (Some "superseded") now)
                            (clauses db)).
    intros l F. induction l as [| r l IH]; [discriminate |].
    simpl in *. destruct (Nat.eqb (id r) (id old)); auto. }
  split; [reflexivity |].
  split; [apply lookup_insert_eq |].
  split; [reflexivity |]. split; [reflexivity |]. exact Hc.
Qed.


(** *** The operations on concrete stores *)

Lemma confident_db_wf : wf Scenario.confident_db.
Proof.
  apply ingested_wf.
  change Scenario.confident_db
    with (fst (processNewClause (Scenario.drives "a Volvo" (Some 0.9%Q)) 0
                 init)).
  apply ingested_step, ingested_init.
Qed.

Lemma tea_db_wf : wf Scenario.tea_db.
Proof.
  apply ingested_wf.
  change Scenario.tea_db
    with (fst (processNewClause Scenario.tea_input 0 init)).
  apply ingested_step, ingested_init.
Qed.

Lemma home_db_wf : wf Scenario.home_db.
Proof.
  apply ingested_wf.
  change Scenario.home_db
    with (fst (processNewClause (Scenario.lives_in "Seattle" (Some 0.9%Q)) 0
                 init)).
  apply ingested_step, ingested_init.
Qed.

Lemma get_returns_the_row_before_its_own_bump_witness :
  checks_hold Scenario.stale_db
  /\ exists db1 db2,
       get 0 10 Scenario.stale_db = (db1, inr (Some Scenario.stale_clause))
       /\ get 0 20 db1 = (db2, inr (Some (touch 10 Scenario.stale_clause))).
Proof.
  assert (H : checks_hold Scenario.stale_db)
    by exact (wf_checks _ DecayFacts.stale_db_wf).
  split; [exact H |].
  pose proof (get_returns_the_row_before_its_own_bump 0 10 20
                Scenario.stale_db H) as Hget.
  change (List.find (fun r => Nat.eqb (id r) 0) (clauses Scenario.stale_db))
    with (Some Scenario.stale_clause) in Hget.
  destruct Hget as (db1 & db2 & H1 & H2 & _).
  exists db1, db2. auto.
Defined.

Lemma update_rewrites_only_the_five_fields_witness :
  wf Scenario.stale_db
  /\ List.find (fun r => Nat.eqb (id r) 0) (clauses Scenario.stale_db)
     = Some Scenario.stale_clause
  /\ no_updates (mkUpdates (Some 0.5%Q) None None None None) = false
  /\ row_check
       (apply_updates (mkUpdates (Some 0.5%Q) None None None None)
          Scenario.stale_clause) = true
  /\ exists db' c,
       update 0 (mkUpdates (Some 0.5%Q) None None None None) 10
         Scenario.stale_db = (db', inr (Some c))
       /\ confidence c = 0.5%Q
       /\ subject c = "user".
Proof.
  assert (H1 := DecayFacts.stale_db_wf).
  assert (H2 : List.find (fun r => Nat.eqb (id r) 0)
                 (clauses Scenario.stale_db) = Some Scenario.stale_clause)
    by reflexivity.
  assert (H3 : no_updates (mkUpdates (Some 0.5%Q) None None None None) = false)
    by reflexivity.
  assert (H4 : row_check
                 (apply_updates (mkUpdates (Some 0.5%Q) None None None None)
                    Scenario.stale_clause) = true)
    by reflexivity.
  repeat (split; [assumption |]).
  destruct (update_rewrites_only_the_five_fields 0
              (mkUpdates (Some 0.5%Q) None None None None) 10
              Scenario.stale_db Scenario.stale_clause H1 H2 H3 H4)
    as (db' & c & Hrun & _ & Hfixed & _ & Hconf & _).
  exists db', c. split; [exact Hrun |]. split; [exact Hconf |].
  destruct Hfixed as (_ & _ & Hs & _). exact Hs.
Defined.

Lemma update_rejected_keeps_the_row_but_counts_the_access_witness :
  checks_hold Scenario.stale_db
  /\ List.find (fun r => Nat.eqb (id r) 0) (clauses Scenario.stale_db)
     = Some Scenario.stale_clause
  /\ no_updates (mkUpdates (Some 1.5%Q) None None None None) = false
  /\ row_check
       (apply_updates (mkUpdates (Some 1.5%Q) None None None None)
          Scenario.stale_clause) = false
  /\ exists e,
       update 0 (mkUpdates (Some 1.5%Q) None None None None) 10
         Scenario.stale_db
       = (set_clauses [touch 10 Scenario.stale_clause] Scenario.stale_db,
          inl e).
Proof.
  assert (H1 : checks_hold Scenario.stale_db)
    by exact (wf_checks _ DecayFacts.stale_db_wf).
  assert (H2 : List.find (fun r => Nat.eqb (id r) 0)
                 (clauses Scenario.stale_db) = Some Scenario.stale_clause)
    by reflexivity.
  assert (H3 : no_updates (mkUpdates (Some 1.5%Q) None None None None) = false)
    by reflexivity.
  assert (H4 : row_check
                 (apply_updates (mkUpdates (Some 1.5%Q) None None None None)
                    Scenario.stale_clause) = false)
    by reflexivity.
  repeat (split; [assumption |]).
  exact (update_rejected_keeps_the_row_but_counts_the_access 0
           (mkUpdates (Some 1.5%Q) None None None None) 10
           Scenario.stale_db Scenario.stale_clause H1 H2 H3 H4).
Defined.

Lemma reinforce_raises_confidence_up_to_one_witness :
  checks_hold Scenario.stale_db
  /\ (0 <= 0.05)%Q
  /\ exists db' r',
       reinforce 0 0.05 10 Scenario.stale_db = (db', inr tt)
       /\ List.find (fun r => Nat.eqb (id r) 0) (clauses db') = Some r'
       /\ confidence r' = Js.Math_min 1 (0.15 + 0.05)
       /\ access_count r' = 2.
Proof.
  assert (H1 : checks_hold Scenario.stale_db)
    by exact (wf_checks _ DecayFacts.stale_db_wf).
  assert (H2 : (0 <= 0.05)%Q) by discriminate.
  split; [exact H1 |]. split; [exact H2 |].
  pose proof (reinforce_raises_confidence_up_to_one 0 0.05 10
                Scenario.stale_db H1 H2) as H.
  change (List.find (fun r => Nat.eqb (id r) 0) (clauses Scenario.stale_db))
    with (Some Scenario.stale_clause) in H.
  destruct H as (db' & r' & Hrun & Hfind & Hconf & _ & _ & _ & Hacc & _).
  exists db', r'. auto.
Defined.

Lemma restated_value_reinforces_the_known_clause_witness :
  wf Scenario.confident_db
  /\ List.filter (conflicting (Scenario.drives "A VOLVO" (Some 0.4%Q)))
       (clauses Scenario.confident_db) = [Scenario.volvo_clause]
  /\ Js.toLowerCase (object Scenario.volvo_clause)
     = Js.toLowerCase (in_object (Scenario.drives "A VOLVO" (Some 0.4%Q)))
  /\ exists db',
       processNewClause (Scenario.drives "A VOLVO" (Some 0.4%Q)) 10
         Scenario.confident_db
       = (db', inr (action_reinforced 0))
       /\ map id (clauses db') = [0].
Proof.
  assert (H1 := confident_db_wf).
  assert (H2 : List.filter
                 (conflicting (Scenario.drives "A VOLVO" (Some 0.4%Q)))
                 (clauses Scenario.confident_db) = [Scenario.volvo_clause])
    by (vm_compute; reflexivity).
  assert (H3 : Js.toLowerCase (object Scenario.volvo_clause)
               = Js.toLowerCase
                   (in_object (Scenario.drives "A VOLVO" (Some 0.4%Q))))
    by reflexivity.
  repeat (split; [assumption |]).
  destruct (restated_value_reinforces_the_known_clause
              (Scenario.drives "A VOLVO" (Some 0.4%Q)) 10
              Scenario.confident_db Scenario.volvo_clause [] H1 H2 H3)
    as (db' & r' & Hrun & Hids & _).
  exists db'. split; [exact Hrun | exact Hids].
Defined.

Lemma multi_valued_candidates_coexist_witness :
  wf Scenario.tea_db
  /\ In (in_predicate Scenario.tea_again) MULTI_VALUE_PREDICATES
  /\ Js.is_ascii (in_object Scenario.tea_again) = true
  /\ Forall (fun r => Js.is_ascii (object r) = true)
       (List.filter (conflicting Scenario.tea_again) (clauses Scenario.tea_db))
  /\ row_check (new_clause Scenario.tea_again 10 (uuid_counter Scenario.tea_db))
     = true
  /\ exists db' res,
       processNewClause Scenario.tea_again 10 Scenario.tea_db = (db', inr res)
       /\ conflicts db' = conflicts Scenario.tea_db.
Proof.
  assert (H1 := tea_db_wf).
  assert (H2 : In (in_predicate Scenario.tea_again) MULTI_VALUE_PREDICATES)
    by (left; reflexivity).
  assert (Ha : Js.is_ascii (in_object Scenario.tea_again) = true)
    by reflexivity.
  assert (Hb : Forall (fun r => Js.is_ascii (object r) = true)
                 (List.filter (conflicting Scenario.tea_again)
                    (clauses Scenario.tea_db))).
  { vm_compute. repeat constructor. }
  assert (H3 : row_check
                 (new_clause Scenario.tea_again 10
                    (uuid_counter Scenario.tea_db)) = true)
    by reflexivity.
  repeat (split; [assumption |]).
  destruct (multi_valued_candidates_coexist Scenario.tea_again 10
              Scenario.tea_db H1 H2 Ha Hb H3)
    as (db' & res & Hrun & Hc & _).
  exists db', res. auto.
Defined.

Lemma singleton_candidate_supersedes_the_known_clause_witness :
  wf Scenario.home_db
  /\ (exists old,
        List.filter
          (conflicting (Scenario.lives_in "Denver" (Some 0.9%Q)))
          (clauses Scenario.home_db) = [old]
        /\ Js.is_ascii (object old) = true
        /\ Js.is_ascii
             (in_object (Scenario.lives_in "Denver" (Some 0.9%Q))) = true
        /\ Js.toLowerCase (object old)
           <> Js.toLowerCase
                (in_object (Scenario.lives_in "Denver" (Some 0.9%Q)))
        /\ exists db',
             processNewClause (Scenario.lives_in "Denver" (Some 0.9%Q)) 10
               Scenario.home_db
             = (db',
                inr (action_superseded
                       (new_clause (Scenario.lives_in "Denver" (Some 0.9%Q))
                          10 (uuid_counter Scenario.home_db))
                       (id old)))
             /\ conflicts db' = conflicts Scenario.home_db)
  /\ In (in_predicate (Scenario.lives_in "Denver" (Some 0.9%Q)))
       SINGLETON_PREDICATES
  /\ row_check
       (new_clause (Scenario.lives_in "Denver" (Some 0.9%Q)) 10
          (uuid_counter Scenario.home_db)) = true.
Proof.
  assert (H1 := home_db_wf).
  assert (H4 : In (in_predicate (Scenario.lives_in "Denver" (Some 0.9%Q)))
                 SINGLETON_PREDICATES) by (left; reflexivity).
  assert (H5 : row_check
                 (new_clause (Scenario.lives_in "Denver" (Some 0.9%Q)) 10
                    (uuid_counter Scenario.home_db)) = true)
    by reflexivity.
  split; [exact H1 |]. split; [| split; assumption].
  exists (new_clause (Scenario.lives_in "Seattle" (Some 0.9%Q)) 0 0).
  assert (H2 : List.filter
                 (conflicting (Scenario.lives_in "Denver" (Some 0.9%Q)))
                 (clauses Scenario.home_db)
               = [new_clause (Scenario.lives_in "Seattle" (Some 0.9%Q)) 0 0])
    by (vm_compute; reflexivity).
  assert (H3 : Js.toLowerCase
                 (object (new_clause (Scenario.lives_in "Seattle" (Some 0.9%Q))
                            0 0))
               <> Js.toLowerCase
                    (in_object (Scenario.lives_in "Denver" (Some 0.9%Q))))
    by (vm_compute; discriminate).
  split; [exact H2 |]. split; [reflexivity |]. split; [reflexivity |].
  split; [exact H3 |].
  destruct (singleton_candidate_supersedes_the_known_clause
              (Scenario.lives_in "Denver" (Some 0.9%Q)) 10 Scenario.home_db
              _ [] H1 H2 eq_refl eq_refl H3 H4 H5)
    as (db' & Hrun & _ & _ & _ & _ & _ & _ & Hc).
  exists db'. auto.
Defined.

End StoreFacts.

(** ** The decay runner: what a real run, a reinforcement and an
    adjustment write, and what the estimate promises *)

Module DecayEffects.
Import Database DatabaseFacts DecayRunner DecayFacts ClauseFacts.

Lemma find_row i (rows : list ClauseRow) r0 :
  List.find (fun r => Nat.eqb (id r) i) rows = Some r0 ->
  In r0 rows /\ id r0 = i.
Proof.
  intros H. apply find_some in H. destruct H as [Hin E].
  apply Nat.eqb_eq in E. auto.
Qed.

Lemma row_bounds db r :
  checks_hold db -> In r (clauses db) ->
  (0 <= confidence r)%Q /\ (confidence r <= 1)%Q /\ (0 <= decay_rate r)%Q.
Proof.
  intros H Hr. unfold checks_hold in H. rewrite List.Forall_forall in H.
  apply row_check_spec, H, Hr.
Qed.

(** X9.  The decay runner's [reinforce] raises on an unknown id and writes
    nothing.  For a known clause and a non-negative amount it returns the
    new confidence [min(1, confidence + amount)], stores it, adds one to the
    reinforcement count and one to the access count, and appends one
    decay-log entry; it writes no access-log entry. *)
Theorem decay_reinforce_returns_the_stored_confidence
    (i : uuid) (amount : Q) (now : time) (db : DB) :
  checks_hold db ->
  (0 <= amount)%Q ->
  match List.find (fun r => Nat.eqb (id r) i) (clauses db) with
  | None => exists e, reinforce i amount now db = (db, inl e)
  | Some r0 =>
      exists db' r',
        reinforce i amount now db
        = (db', inr (Js.Math_min 1 (confidence r0 + amount)))
        /\ List.find (fun r => Nat.eqb (id r) i) (clauses db') = Some r'
        /\ confidence r' = Js.Math_min 1 (confidence r0 + amount)
        /\ (confidence r0 <= confidence r')%Q /\ (confidence r' <= 1)%Q
        /\ reinforcement_count r' = S (reinforcement_count r0)
        /\ access_count r' = S (access_count r0)
        /\ last_accessed r' = now
        /\ decay_log db'
           = (decay_log db
              ++ [mkDecayLog (uuid_counter db) i (confidence r0)
                    (confidence r') "reinforcement" now])%list
        /\ access_log db' = access_log db
  end.
Proof.
  intros Hchecks Hamount.
  destruct (List.find (fun r => Nat.eqb (id r) i) (clauses db)) as [r0 |] eqn:F.
  2:{ unfold reinforce, bind, get_clause. rewrite F. eexists. reflexivity. }
  destruct (find_some_has _ _ _ F) as (Hhas & Hin & E).
  destruct (row_bounds db r0 Hchecks Hin) as (H0 & H1 & H2).
  assert (Hmin : (0 <= Js.Math_min 1 (confidence r0 + amount))%Q)
    by (apply JsFacts.Math_min_glb; lra).
  assert (Hmax : (Js.Math_min 1 (confidence r0 + amount) <= 1)%Q)
    by apply JsFacts.Math_min_le_l.
  unfold reinforce. unfold bind at 1. unfold get_clause at 1. rewrite F.
  unfold bind at 1.
  rewrite update_clauses_run.
  2:{ intros r Hr _. destruct (row_bounds db r Hchecks Hr) as (_ & _ & Hd).
      apply row_check_spec. simpl. tauto. }
  unfold bind at 1.
  rewrite decay_logDecay_run.
  2:{ erewrite has_clause_ids; [exact Hhas |]. db_simpl.
      apply updated_ids. reflexivity. }
  eexists. eexists. split; [reflexivity |]. db_simpl.
  split.
  { rewrite find_updated by reflexivity. rewrite F. reflexivity. }
  cbn [confidence touch bump_reinforcement set_confidence
       reinforcement_count access_count last_accessed].
  repeat split; try assumption.
  apply JsFacts.Math_min_glb; lra.
Qed.

(** X10.  [adjustConfidence] raises on an unknown id and writes nothing.
    For a known clause and a target whose clamp to [0,1] is not below the
    floor it stores the clamped value and nothing else: the clause stays
    valid, keeps its metadata and access data, and one decay-log entry is
    appended under the caller's reason. *)
Theorem adjustConfidence_clamps_and_keeps_the_clause_valid
    (config : DecayConfig) (i : uuid) (x : Q) (reason_ : string) (now : time)
    (db : DB) :
  checks_hold db ->
  match List.find (fun r => Nat.eqb (id r) i) (clauses db) with
  | None => exists e, adjustConfidence config i x reason_ now db = (db, inl e)
  | Some r0 =>
      (minConfidence config <= clamp x)%Q ->
      exists db',
        adjustConfidence config i x reason_ now db = (db', inr tt)
        /\ List.find (fun r => Nat.eqb (id r) i) (clauses db')
           = Some (set_confidence (clamp x) r0)
        /\ (0 <= clamp x)%Q /\ (clamp x <= 1)%Q
        /\ decay_log db'
           = (decay_log db
              ++ [mkDecayLog (uuid_counter db) i (confidence r0) (clamp x)
                    reason_ now])%list
        /\ forall r, In r (clauses db) -> id r <> i -> In r (clauses db')
  end.
Proof.
  intros Hchecks.
  destruct (List.find (fun r => Nat.eqb (id r) i) (clauses db)) as [r0 |] eqn:F.
  2:{ unfold adjustConfidence, bind, get_clause. rewrite F.
      eexists. reflexivity. }
  intros Hfloor.
  destruct (find_some_has _ _ _ F) as (Hhas & Hin & E).
  assert (Hrange := JsFacts.clamp_range x). fold (clamp x) in Hrange.
  unfold adjustConfidence. fold (clamp x).
  unfold bind at 1. unfold get_clause at 1. rewrite F.
  unfold bind at 1.
  rewrite update_clauses_run.
  2:{ intros r Hr _. destruct (row_bounds db r Hchecks Hr) as (_ & _ & Hd).
      apply row_check_spec. simpl. tauto. }
  unfold bind at 1.
  rewrite decay_logDecay_run.
  2:{ erewrite has_clause_ids; [exact Hhas |]. db_simpl.
      apply updated_ids. reflexivity. }
  apply JsFacts.ltb_false in Hfloor. rewrite Hfloor.
  eexists. split; [reflexivity |]. db_simpl.
  split.
  { rewrite find_updated by reflexivity. rewrite F. reflexivity. }
  split; [tauto |]. split; [tauto |]. split; [reflexivity |].
  intros r Hr Hne. unfold updated. apply in_map_iff. exists r. split; auto.
  destruct (Nat.eqb (id r) i) eqn:E'; [| reflexivity].
  apply Nat.eqb_eq in E'. contradiction.
Qed.


(** *** A real run, row by row *)

Lemma archiveClause_run i c now db :
  checks_hold db -> has_clause i db = true ->
  (0 <= c)%Q -> (c <= 1)%Q ->
  archiveClause i c now db
  = (mkDB (updated (fun r => Nat.eqb (id r) i) (archived_row c now) (clauses db))
       (conflicts db)
       (decay_log db
        ++ [mkDecayLog (uuid_counter db) i c c "archived_decay" now])
       (access_log db) (system_metadata db) (S (uuid_counter db)),
     inr tt).
Proof.
  intros Hchecks Hhas H0 H1. unfold archiveClause. unfold bind at 1.
  rewrite update_clauses_run.
  2:{ intros r Hr _. destruct (row_bounds db r Hchecks Hr) as (_ & _ & Hd).
      apply row_check_spec. simpl. tauto. }
  destruct (has_clause_find _ _ Hhas) as (r0 & F).
  unfold bind at 1. unfold get_clause at 1. db_simpl.
  change (fun r : ClauseRow =>
            set_metadata
              (<["archived_reason" := "confidence_decay"]> (metadata r))
              (set_confidence c (set_valid_to (Some now) r)))
    with (archived_row c now).
  rewrite find_updated by reflexivity. rewrite F. cbn [option_map].
  rewrite decay_logDecay_run.
  2:{ erewrite has_clause_ids; [exact Hhas |]. db_simpl.
      apply updated_ids. reflexivity. }
  reflexivity.
Qed.

Lemma applyDecay_run i old c now db :
  checks_hold db -> has_clause i db = true ->
  (0 <= c)%Q -> (c <= 1)%Q ->
  applyDecay i old c now db
  = (mkDB (updated (fun r => Nat.eqb (id r) i) (set_confidence c) (clauses db))
       (conflicts db)
       (decay_log db
        ++ [mkDecayLog (uuid_counter db) i old c "scheduled_decay" now])
       (access_log db) (system_metadata db) (S (uuid_counter db)),
     inr tt).
Proof.
  intros Hchecks Hhas H0 H1. unfold applyDecay. unfold bind at 1.
  rewrite update_clauses_run.
  2:{ intros r Hr _. destruct (row_bounds db r Hchecks Hr) as (_ & _ & Hd).
      apply row_check_spec. simpl. tauto. }
  rewrite decay_logDecay_run.
  2:{ erewrite has_clause_ids; [exact Hhas |]. db_simpl.
      apply updated_ids. reflexivity. }
  reflexivity.
Qed.

Lemma fetched_In rows r : fetched rows r = true <-> In (id r) (map id rows).
Proof.
  unfold fetched. rewrite existsb_exists. split.
  - intros (n & Hn & E). apply Nat.eqb_eq in E. rewrite E. exact Hn.
  - intros H. exists (id r). split; [exact H | apply Nat.eqb_refl].
Qed.

Lemma loop_step_id config now r : id (loop_step config now r) = id r.
Proof.
  unfold loop_step. destruct (archives config now r); [reflexivity |].
  destruct (decays config now r); reflexivity.
Qed.

Lemma step_then_rest config now (rows0 : list ClauseRow) s rest
    (g : ClauseRow -> ClauseRow) :
  List.NoDup (map id rows0) -> In s rows0 ->
  ~ In (id s) (map id rest) ->
  g s = loop_step config now s ->
  map (fun r => if fetched rest r then loop_step config now r else r)
    (updated (fun r => Nat.eqb (id r) (id s)) g rows0)
  = map (fun r => if fetched (s :: rest) r then loop_step config now r else r)
      rows0.
Proof.
  intros Hnd Hs Hnot Hg. unfold updated. rewrite map_map.
  apply map_ext_in. intros r Hr.
  destruct (Nat.eqb (id r) (id s)) eqn:E.
  - apply Nat.eqb_eq in E.
    assert (r = s) as -> by (eapply NoDup_ids_inj; eauto).
    assert (F1 : fetched rest (g s) = false).
    { apply not_true_is_false. intros H. apply fetched_In in H.
      rewrite Hg, loop_step_id in H. contradiction. }
    assert (F2 : fetched (s :: rest) s = true).
    { apply fetched_In. simpl. auto. }
    rewrite F1, F2. exact Hg.
  - assert (F : fetched (s :: rest) r = fetched rest r).
    { unfold fetched. simpl. rewrite E. reflexivity. }
    rewrite F. reflexivity.
Qed.

Lemma updated_same where_ (rows : list ClauseRow) :
  updated where_ (fun r => r) rows = rows.
Proof.
  unfold updated. rewrite <- (map_id rows) at 2. apply map_ext.
  intros r. destruct (where_ r); reflexivity.
Qed.

Lemma checks_updated db i g :
  checks_hold db ->
  (forall r, In r (clauses db) -> row_check (g r) = true) ->
  Forall (fun r => row_check r = true)
    (updated (fun r => Nat.eqb (id r) i) g (clauses db)).
Proof.
  intros Hchecks Hg. apply List.Forall_forall. intros r Hr.
  apply In_updated in Hr. destruct Hr as (r1 & Hr1 & ->).
  destruct (Nat.eqb (id r1) i); [apply Hg; exact Hr1 |].
  exact (checks_In db r1 Hchecks Hr1).
Qed.

Lemma In_updated_other i g (rows : list ClauseRow) r :
  In r rows -> id r <> i ->
  In r (updated (fun r => Nat.eqb (id r) i) g rows).
Proof.
  intros Hr Hne. unfold updated. apply in_map_iff. exists r. split; auto.
  destruct (Nat.eqb (id r) i) eqn:E; [| reflexivity].
  apply Nat.eqb_eq in E. contradiction.
Qed.

Lemma run_loop_real config now rows :
  forall report db,
    checks_hold db ->
    List.NoDup (map id (clauses db)) ->
    (forall r, In r rows -> In r (clauses db)) ->
    List.NoDup (map id rows) ->
    exists db',
      run_loop config false now rows report db
      = (db',
         inr (mkReport
                (processed report + List.length rows)
                (decayed report
                 + List.length (List.filter (decays config now) rows))
                (archived report
                 + List.length (List.filter (archives config now) rows))
                (reinforced report) (timestamp report)))
      /\ clauses db'
         = map (fun r => if fetched rows r then loop_step config now r else r)
             (clauses db)
      /\ List.length (decay_log db')
         = List.length (decay_log db)
           + List.length (List.filter (archives config now) rows)
           + List.length (List.filter (decays config now) rows)
      /\ conflicts db' = conflicts db
      /\ access_log db' = access_log db
      /\ system_metadata db' = system_metadata db.
Proof.
  induction rows as [| s rest IH]; intros report db Hchecks Hnd Hsub Hrows.
  - exists db. simpl. unfold ret. rewrite !Nat.add_0_r.
    split; [destruct report; reflexivity |].
    split; [| repeat split; lia].
    rewrite <- (map_id (clauses db)) at 1. apply map_ext. reflexivity.
  - assert (Hs : In s (clauses db)) by (apply Hsub; simpl; auto).
    assert (Hhas : has_clause (id s) db = true).
    { apply has_clause_In. eauto. }
    destruct (row_bounds db s Hchecks Hs) as (Hc0 & Hc1 & Hd0).
    destruct (newConfidence_bounds now s Hc0 Hd0) as (Hn0 & Hn1).
    assert (Hn1' : (newConfidence now s <= 1)%Q) by lra.
    inversion Hrows as [| ? ? Hnot Hrest]; subst.
    assert (Hstep :
      forall g log,
        g s = loop_step config now s ->
        (forall r, In r (clauses db) -> row_check (g r) = true) ->
        (forall r, id (g r) = id r) ->
        let db1 :=
          mkDB (updated (fun r => Nat.eqb (id r) (id s)) g (clauses db))
            (conflicts db) (decay_log db ++ log) (access_log db)
            (system_metadata db) (uuid_counter db + List.length log) in
        forall report1,
        exists db',
          run_loop config false now rest report1 db1
          = (db',
             inr (mkReport
                    (processed report1 + List.length rest)
                    (decayed report1
                     + List.length (List.filter (decays config now) rest))
                    (archived report1
                     + List.length (List.filter (archives config now) rest))
                    (reinforced report1) (timestamp report1)))
          /\ clauses db'
             = map (fun r => if fetched (s :: rest) r
                             then loop_step config now r else r)
                 (clauses db)
          /\ List.length (decay_log db')
             = List.length (decay_log db) + List.length log
               + List.length (List.filter (archives config now) rest)
               + List.length (List.filter (decays config now) rest)
          /\ conflicts db' = conflicts db
          /\ access_log db' = access_log db
          /\ system_metadata db' = system_metadata db).
    { intros g log Hg Hrow Hid db1 report1.
      destruct (IH report1 db1) as (db' & Hrun & Hcl & Hlog & Hcf & Hal & Hsm).
      - unfold db1, checks_hold. db_simpl. apply checks_updated; assumption.
      - unfold db1. db_simpl. rewrite updated_ids by exact Hid. exact Hnd.
      - intros r Hr. unfold db1. db_simpl. apply In_updated_other.
        + apply Hsub. simpl. auto.
        + intros E. apply Hnot. rewrite <- E. apply in_map. exact Hr.
      - exact Hrest.
      - exists db'. split; [exact Hrun |].
        split.
        { rewrite Hcl. unfold db1. db_simpl.
          apply step_then_rest; assumption. }
        split.
        { rewrite Hlog. unfold db1. db_simpl. rewrite length_app. lia. }
        auto. }
    cbn [run_loop]. cbv zeta.
    cbn [List.filter List.length map].
    assert (Hdec : decays config now s
                   = negb (archives config now s)
                     && Js.ltb (newConfidence now s) (confidence s - 0.001))
      by reflexivity.
    change (Js.ltb (newConfidence now s) (minConfidence config))
      with (archives config now s).
    unfold loop_step in Hstep. rewrite Hdec in Hstep |- *.
    destruct (archives config now s) eqn:Ea; cbn [negb andb] in Hstep |- *.
    + (* archived *)
      unfold bind at 1. unfold unless_dry.
      rewrite (archiveClause_run _ _ _ _ Hchecks Hhas Hn0 Hn1').
      destruct (Hstep (archived_row (newConfidence now s) now)
                  [mkDecayLog (uuid_counter db) (id s) (newConfidence now s)
                     (newConfidence now s) "archived_decay" now])
        with (report1 := incr_archived (incr_processed report))
        as (db' & Hrun & Hrest').
      * reflexivity.
      * intros r Hr. destruct (row_bounds db r Hchecks Hr) as (_ & _ & Hd).
        apply row_check_spec. simpl. tauto.
      * reflexivity.
      * cbn [List.length] in Hrun. rewrite Nat.add_1_r in Hrun.
        exists db'. split.
        { rewrite Hrun. cbn [processed decayed archived reinforced timestamp
                             incr_archived incr_processed].
          cbn [List.length]. do 2 f_equal. f_equal; lia. }
        cbn [List.length] in Hrest'.
        destruct Hrest' as (Hcl & Hlog & Hother).
        split; [exact Hcl |]. cbn [List.length]. split; [lia | exact Hother].
    + destruct (Js.ltb (newConfidence now s) (confidence s - 0.001)) eqn:Ed.
      * (* decayed *)
        unfold bind at 1. unfold unless_dry.
        rewrite (applyDecay_run _ _ _ _ _ Hchecks Hhas Hn0 Hn1').
        destruct (Hstep (set_confidence (newConfidence now s))
                    [mkDecayLog (uuid_counter db) (id s) (confidence s)
                       (newConfidence now s) "scheduled_decay" now])
          with (report1 := incr_decayed (incr_processed report))
          as (db' & Hrun & Hrest').
        -- reflexivity.
        -- intros r Hr. destruct (row_bounds db r Hchecks Hr) as (_ & _ & Hd).
           apply row_check_spec. simpl. tauto.
        -- reflexivity.
        -- cbn [List.length] in Hrun. rewrite Nat.add_1_r in Hrun.
           exists db'. split.
           { rewrite Hrun. cbn [processed decayed archived reinforced
                                timestamp incr_decayed incr_processed].
             cbn [List.length]. do 2 f_equal. f_equal; lia. }
           cbn [List.length] in Hrest'.
           destruct Hrest' as (Hcl & Hlog & Hother).
           split; [exact Hcl |]. cbn [List.length]. split; [lia | exact Hother].
      * (* untouched *)
        destruct (Hstep (fun r => r) [])
          with (report1 := incr_processed report)
          as (db' & Hrun & Hrest').
        -- reflexivity.
        -- intros r Hr. exact (checks_In db r Hchecks Hr).
        -- reflexivity.
        -- rewrite updated_same, app_nil_r in Hrun. cbn [List.length] in Hrun.
           rewrite Nat.add_0_r in Hrun.
           replace (mkDB (clauses db) (conflicts db) (decay_log db)
                      (access_log db) (system_metadata db) (uuid_counter db))
             with db in Hrun by (destruct db; reflexivity).
           exists db'. split.
           { rewrite Hrun. cbn [processed decayed archived reinforced
                                timestamp incr_processed].
             cbn [List.length]. do 2 f_equal. f_equal; lia. }
           cbn [List.length] in Hrest'.
           destruct Hrest' as (Hcl & Hlog & Hother).
           split; [exact Hcl |]. cbn [List.length]. split; [lia | exact Hother].
Qed.


Lemma NoDup_filter_ids (f : ClauseRow -> bool) rows :
  List.NoDup (map id rows) -> List.NoDup (map id (List.filter f rows)).
Proof.
  induction rows as [| r rows IH]; simpl; intros H; [constructor |].
  inversion H as [| ? ? Hnot Hnd]; subst.
  destruct (f r); simpl; [| auto].
  constructor; [| auto].
  intros Hin. apply Hnot. apply in_map_iff in Hin.
  destruct Hin as (r' & E & Hr'). apply filter_In in Hr'.
  apply in_map_iff. exists r'. tauto.
Qed.

Lemma fetched_selected config db r :
  List.NoDup (map id (clauses db)) -> In r (clauses db) ->
  fetched (List.filter (decaying config) (clauses db)) r = decaying config r.
Proof.
  intros Hnd Hr. destruct (decaying config r) eqn:E.
  - apply fetched_In, in_map, filter_In. auto.
  - apply not_true_is_false. intros H. apply fetched_In, in_map_iff in H.
    destruct H as (r' & Eid & Hr'). apply filter_In in Hr'.
    destruct Hr' as (Hin' & Hsel).
    assert (r' = r) by (eapply NoDup_ids_inj; eauto).
    congruence.
Qed.

Lemma run_real config now db :
  wf db -> enabled config = true ->
  exists db' report,
    run config false now db = (db', inr report)
    /\ run config true now db = (db, inr report)
    /\ clauses db' = map (decay_row config now) (clauses db)
    /\ List.length (decay_log db')
       = List.length (decay_log db) + archived report + decayed report
    /\ conflicts db' = conflicts db
    /\ access_log db' = access_log db
    /\ system_metadata db'
       = <["last_decay_run" := toISOString now]> (system_metadata db).
Proof.
  intros Hwf Hen. destruct Hwf as [Hchecks Hnd _].
  set (rows := List.filter (decaying config) (clauses db)).
  destruct (run_loop_real config now rows (mkReport 0 0 0 0 now) db
              Hchecks Hnd)
    as (db1 & Hrun & Hcl & Hlog & Hcf & Hal & Hsm).
  { intros r Hr. apply filter_In in Hr. tauto. }
  { apply NoDup_filter_ids. exact Hnd. }
  eexists. eexists. split.
  { unfold run. rewrite Hen. cbn [negb andb].
    unfold bind at 1. unfold select_clauses at 1. fold rows.
    unfold bind at 1. rewrite Hrun.
    unfold bind, unless_dry, setMetadata. reflexivity. }
  split.
  { unfold run. rewrite andb_false_r.
    unfold bind, select_clauses. fold rows. rewrite run_loop_dry.
    reflexivity. }
  db_simpl. cbn [processed decayed archived Nat.add].
  split.
  { rewrite Hcl. apply map_ext_in. intros r Hr. unfold decay_row, rows.
    rewrite (fetched_selected config db r Hnd Hr). reflexivity. }
  rewrite Hsm. auto.
Qed.

(** The rows a real run has lowered, and those it has not archived, in
    terms of the loop's two tests. *)
Lemma decay_row_active config now r :
  is_active (decay_row config now r)
  = is_active r && negb (decaying config r && archives config now r).
Proof.
  unfold decay_row, loop_step.
  destruct (decaying config r); [| rewrite andb_true_r; reflexivity].
  destruct (archives config now r); cbn [andb negb].
  - rewrite andb_false_r. reflexivity.
  - rewrite andb_true_r. destruct (decays config now r); reflexivity.
Qed.

Lemma decay_row_lowered config now r :
  lowered (r, decay_row config now r)
  = decaying config r && decays config now r.
Proof.
  assert (Hsame : Js.ltb (confidence r) (confidence r) = false).
  { apply not_true_is_false. intros H. apply JsFacts.ltb_spec in H. lra. }
  unfold lowered. cbn [fst snd]. rewrite decay_row_active.
  unfold decay_row, loop_step.
  destruct (decaying config r) eqn:Esel; cbn [andb negb].
  2:{ rewrite Hsame, andb_true_r, andb_false_r. reflexivity. }
  assert (Hact : is_active r = true).
  { unfold decaying in Esel. apply andb_true_iff in Esel. tauto. }
  rewrite Hact. cbn [andb].
  destruct (archives config now r) eqn:Ea; cbn [negb andb].
  - unfold decays. rewrite Ea. reflexivity.
  - destruct (decays config now r) eqn:Ed; [| exact Hsame].
    cbn [confidence set_confidence].
    unfold decays in Ed. rewrite Ea in Ed. cbn [negb andb] in Ed.
    apply JsFacts.ltb_spec in Ed. apply JsFacts.ltb_spec. lra.
Qed.

(** The rows a real run has lowered, and those it has not archived, in
    terms of the loop's two tests. *)
Lemma decay_row_tallies config now (l : list ClauseRow) :
  List.length (List.filter is_active (map (decay_row config now) l))
  + List.length (List.filter (archives config now)
                   (List.filter (decaying config) l))
  = List.length (List.filter is_active l)
  /\ List.length
       (List.filter lowered (combine l (map (decay_row config now) l)))
     = List.length (List.filter (decays config now)
                      (List.filter (decaying config) l)).
Proof.
  induction l as [| r l [IH1 IH2]]; [split; reflexivity |].
  cbn [map combine List.filter].
  rewrite decay_row_active, decay_row_lowered.
  assert (Hact : decaying config r = true -> is_active r = true).
  { unfold decaying. intros H. apply andb_true_iff in H. tauto. }
  destruct (decaying config r); cbn [List.filter andb negb].
  - rewrite (Hact eq_refl). cbn [andb].
    assert (Had : archives config now r = true -> decays config now r = false).
    { intros H. unfold decays. rewrite H. reflexivity. }
    destruct (archives config now r); cbn [negb List.length].
    + rewrite (Had eq_refl). split; lia.
    + destruct (decays config now r); cbn [List.length]; split; lia.
  - rewrite andb_true_r. destruct (is_active r); cbn [List.length]; split; lia.
Qed.

Lemma decay_row_outcome config now db r :
  checks_hold db -> In r (clauses db) ->
  run_outcome config now r (decay_row config now r).
Proof.
  intros Hchecks Hin. unfold decay_row, loop_step.
  destruct (decaying config r) eqn:Esel; [| apply row_kept].
  destruct (row_bounds db r Hchecks Hin) as (Hc0 & _ & Hd0).
  destruct (newConfidence_bounds now r Hc0 Hd0) as (H0 & Hle).
  destruct (archives config now r) eqn:Ea.
  - apply row_archived; [exact Esel | exact H0 | | exact Hle].
    apply JsFacts.ltb_spec. exact Ea.
  - destruct (decays config now r) eqn:Ed; [| apply row_kept].
    apply row_lowered; [exact Esel | exact H0 | |].
    + unfold decays in Ed. rewrite Ea in Ed. cbn [negb andb] in Ed.
      apply JsFacts.ltb_spec in Ed. lra.
    + unfold archives in Ea. apply JsFacts.leb_spec.
      unfold Js.ltb in Ea. apply negb_false_iff in Ea. exact Ea.
Qed.

(** X12.  A real run with decay enabled touches only the rows its SELECT
    fetches (active, above the floor), and each of them in one of three
    ways: it is left alone, or its confidence is lowered to a value that
    is not below the floor, or it is archived ([valid_to = now], reason
    [confidence_decay]) with a confidence below the floor.  The report
    tallies just that: [processed] counts the fetched rows, the number of
    active rows drops by [archived], and [decayed] counts the rows that
    are still active with a lower confidence.  No row is added or
    removed, no row's [last_accessed], access or reinforcement count
    changes, and the run stamps [last_decay_run]. *)
Theorem real_run_keeps_lowers_or_archives_each_row
    (config : DecayConfig) (now : time) (db : DB) :
  wf db ->
  enabled config = true ->
  exists db' report,
    run config false now db = (db', inr report)
    /\ Forall2 (run_outcome config now) (clauses db) (clauses db')
    /\ processed report
       = List.length (List.filter (decaying config) (clauses db))
    /\ List.length (List.filter is_active (clauses db')) + archived report
       = List.length (List.filter is_active (clauses db))
    /\ List.length
         (List.filter lowered (combine (clauses db) (clauses db')))
       = decayed report
    /\ map last_accessed (clauses db') = map last_accessed (clauses db)
    /\ map access_count (clauses db') = map access_count (clauses db)
    /\ map reinforcement_count (clauses db')
       = map reinforcement_count (clauses db)
    /\ system_metadata db' !! "last_decay_run" = Some (toISOString now).
Proof.
  intros Hwf Hen.
  destruct (run_real config now db Hwf Hen)
    as (db' & report & Hrun & Hdry & Hcl & _ & _ & _ & Hsm).
  exists db', report. split; [exact Hrun |].
  unfold run in Hdry. rewrite andb_false_r in Hdry.
  unfold bind, select_clauses in Hdry. rewrite run_loop_dry in Hdry.
  cbn [unless_dry ret] in Hdry. injection Hdry as <-.
  cbn [processed archived decayed Nat.add].
  destruct (decay_row_tallies config now (clauses db)) as (Hactive & Hlowered).
  assert (Hfix : forall r,
            last_accessed (decay_row config now r) = last_accessed r
            /\ access_count (decay_row config now r) = access_count r
            /\ reinforcement_count (decay_row config now r)
               = reinforcement_count r).
  { intros r. unfold decay_row, loop_step.
    destruct (decaying config r); [| auto].
    destruct (archives config now r); [auto |].
    destruct (decays config now r); auto. }
  rewrite Hcl, !map_map.
  split.
  { assert (Hall : forall l,
              (forall r, In r l -> In r (clauses db)) ->
              Forall2 (run_outcome config now) l
                (map (decay_row config now) l)).
    { induction l as [| r l IH]; intros Hl; [constructor |].
      cbn [map]. constructor.
      - apply (decay_row_outcome config now db); [apply Hwf |].
        apply Hl. left. reflexivity.
      - apply IH. intros r' Hr'. apply Hl. right. exact Hr'. }
    apply Hall. auto. }
  split; [reflexivity |].
  split; [exact Hactive |].
  split; [exact Hlowered |].
  split; [apply map_ext; intros r; apply Hfix |].
  split; [apply map_ext; intros r; apply Hfix |].
  split; [apply map_ext; intros r; apply Hfix |].
  rewrite Hsm. apply lookup_insert_eq.
Qed.

(** X13.  A dry run predicts the real run: on the same database and at
    the same clock reading, with decay enabled, both return the same
    report, and the real run appends exactly one decay-log entry per
    clause it reports as archived or decayed, leaving the conflict and
    access logs alone. *)
Theorem dry_run_predicts_the_real_run
    (config : DecayConfig) (now : time) (db : DB) :
  wf db ->
  enabled config = true ->
  exists db' report,
    run config true now db = (db, inr report)
    /\ run config false now db = (db', inr report)
    /\ List.length (decay_log db')
       = List.length (decay_log db) + archived report + decayed report
    /\ conflicts db' = conflicts db
    /\ access_log db' = access_log db.
Proof.
  intros Hwf Hen.
  destruct (run_real config now db Hwf Hen)
    as (db' & report & Hrun & Hdry & _ & Hlog & Hcf & Hal & _).
  exists db', report. auto.
Qed.


(** *** The decay runner on the stale store *)

Lemma decay_reinforce_returns_the_stored_confidence_witness :
  checks_hold Scenario.stale_db
  /\ (0 <= 0.05)%Q
  /\ exists db' r',
       reinforce 0 0.05 10 Scenario.stale_db
       = (db', inr (Js.Math_min 1 (0.15 + 0.05)))
       /\ List.find (fun r => Nat.eqb (id r) 0) (clauses db') = Some r'
       /\ access_count r' = 1
       /\ access_log db' = [].
Proof.
  assert (H1 : checks_hold Scenario.stale_db)
    by exact (wf_checks _ stale_db_wf).
  assert (H2 : (0 <= 0.05)%Q) by discriminate.
  split; [exact H1 |]. split; [exact H2 |].
  pose proof (decay_reinforce_returns_the_stored_confidence 0 0.05 10
                Scenario.stale_db H1 H2) as H.
  change (List.find (fun r => Nat.eqb (id r) 0) (clauses Scenario.stale_db))
    with (Some Scenario.stale_clause) in H.
  destruct H as (db' & r' & Hrun & Hfind & _ & _ & _ & _ & Hacc & _ & _ & Hlog).
  exists db', r'. auto.
Defined.

Lemma adjustConfidence_clamps_and_keeps_the_clause_valid_witness :
  checks_hold Scenario.stale_db
  /\ (minConfidence Scenario.floor_config <= clamp 7)%Q
  /\ exists db',
       adjustConfidence Scenario.floor_config 0 7 "manual_adjustment" 10
         Scenario.stale_db = (db', inr tt)
       /\ List.find (fun r => Nat.eqb (id r) 0) (clauses db')
          = Some (set_confidence (clamp 7) Scenario.stale_clause).
Proof.
  assert (H1 : checks_hold Scenario.stale_db)
    by exact (wf_checks _ stale_db_wf).
  assert (H2 : (minConfidence Scenario.floor_config <= clamp 7)%Q)
    by (vm_compute; discriminate).
  split; [exact H1 |]. split; [exact H2 |].
  pose proof (adjustConfidence_clamps_and_keeps_the_clause_valid
                Scenario.floor_config 0 7 "manual_adjustment" 10
                Scenario.stale_db H1) as H.
  change (List.find (fun r => Nat.eqb (id r) 0) (clauses Scenario.stale_db))
    with (Some Scenario.stale_clause) in H.
  destruct (H H2) as (db' & Hrun & Hfind & _).
  exists db'. auto.
Defined.

Lemma real_run_keeps_lowers_or_archives_each_row_witness :
  wf Scenario.stale_db
  /\ enabled Scenario.floor_config = true
  /\ exists db' report,
       run Scenario.floor_config false (210 * Scenario.day)%Z Scenario.stale_db
       = (db', inr report)
       /\ Forall2
            (run_outcome Scenario.floor_config (210 * Scenario.day)%Z)
            (clauses Scenario.stale_db) (clauses db')
       /\ List.length (List.filter is_active (clauses db')) + archived report
          = 1.
Proof.
  assert (H1 := stale_db_wf).
  assert (H2 : enabled Scenario.floor_config = true) by reflexivity.
  split; [exact H1 |]. split; [exact H2 |].
  destruct (real_run_keeps_lowers_or_archives_each_row Scenario.floor_config
              (210 * Scenario.day)%Z Scenario.stale_db H1 H2)
    as (db' & report & Hrun & Hrows & _ & Hactive & _).
  exists db', report. auto.
Defined.

Lemma dry_run_predicts_the_real_run_witness :
  wf Scenario.stale_db
  /\ enabled Scenario.floor_config = true
  /\ exists db' report,
       run Scenario.floor_config true (210 * Scenario.day)%Z Scenario.stale_db
       = (Scenario.stale_db, inr report)
       /\ run Scenario.floor_config false (210 * Scenario.day)%Z
            Scenario.stale_db
          = (db', inr report).
Proof.
  assert (H1 := stale_db_wf).
  assert (H2 : enabled Scenario.floor_config = true) by reflexivity.
  split; [exact H1 |]. split; [exact H2 |].
  destruct (dry_run_predicts_the_real_run Scenario.floor_config
              (210 * Scenario.day)%Z Scenario.stale_db H1 H2)
    as (db' & report & Hdry & Hrun & _).
  exists db', report. auto.
Defined.

End DecayEffects.

(** ** The singleton invariant across the engine's writes *)

Module SingletonFacts.
Import Database DatabaseFacts ClauseStore ClauseFacts Engine.

(** *** Rows that only fade *)

Lemma faded_refl r : faded r r.
Proof. split; auto. Qed.

Lemma faded_trans a b c : faded a b -> faded b c -> faded a c.
Proof.
  intros [Hab Hvab] [Hbc Hvbc]. split; [congruence | auto].
Qed.

Lemma fades_refl db : fades_from db db.
Proof.
  unfold fades_from. induction (clauses db); constructor;
    [apply faded_refl | assumption].
Qed.

Lemma fades_map (g : ClauseRow -> ClauseRow) l0 l :
  (forall r, faded r (g r)) ->
  Forall2 faded l0 l -> Forall2 faded l0 (map g l).
Proof.
  intros Hg H. induction H as [| r0 r l0 l Hr _ IH]; cbn [map]; constructor.
  - eapply faded_trans; [exact Hr | apply Hg].
  - exact IH.
Qed.

Lemma fades_frame db0 {A} (m : Db A) :
  (forall db, clauses (fst (m db)) = clauses db) ->
  preserves (fades_from db0) m.
Proof. intros H db Hf. unfold fades_from. rewrite H. exact Hf. Qed.

Lemma fades_update db0 where_ set_ :
  (forall r, faded r (set_ r)) ->
  preserves (fades_from db0) (update_clauses where_ set_).
Proof.
  intros Hset db H.
  destruct (update_clauses_cases where_ set_ db) as [[e E] | [E _]];
    rewrite E; cbn [fst]; [exact H |].
  unfold fades_from. db_simpl. unfold updated. apply fades_map; [| exact H].
  intros r. destruct (where_ r); [apply Hset | apply faded_refl].
Qed.

Lemma faded_touch now r : faded r (touch now r).
Proof. split; [reflexivity | intros s p H; exact H]. Qed.

Lemma faded_invalidated reason_ now r : faded r (invalidated_row reason_ now r).
Proof.
  split; [reflexivity |]. intros s p.
  unfold visible, active_for, is_active.
  cbn [valid_to invalidated_row set_metadata set_valid_to].
  rewrite !andb_false_r. discriminate.
Qed.

Lemma faded_apply_updates u r :
  up_confidence u = None -> faded r (apply_updates u r).
Proof.
  destruct u as [uc ud ut um un]. cbn [up_confidence]. intros ->.
  split; [destruct ud, ut, um, un; reflexivity |].
  intros s p H. destruct ud, ut, um, un; exact H.
Qed.

Lemma faded_decay_row config now db r :
  checks_hold db -> In r (clauses db) ->
  faded r (DecayRunner.decay_row config now r).
Proof.
  intros Hchecks Hin.
  destruct (DecayEffects.decay_row_outcome config now db r Hchecks Hin)
    as [| c _ _ Hlt _ | c _ _ _ _]; [apply faded_refl | |].
  - split; [reflexivity |]. intros s p.
    unfold visible, active_for. cbn [subject predicate confidence is_active
      valid_to set_confidence].
    rewrite !andb_true_iff, !JsFacts.ltb_spec. intros (H1 & H2).
    split; [exact H1 | lra].
  - split; [reflexivity |]. intros s p.
    unfold visible, active_for, is_active.
    cbn [valid_to DecayRunner.archived_row set_metadata set_confidence
         set_valid_to].
    rewrite !andb_false_r. discriminate.
Qed.

Create HintDb fades.

#[local] Hint Resolve preserves_ret preserves_throw : fades.
#[local] Hint Extern 1 (preserves (fades_from _) uuidv7) =>
  apply fades_frame, clauses_uuidv7 : fades.
#[local] Hint Extern 1 (preserves (fades_from _) (select_clauses _)) =>
  apply fades_frame, clauses_select : fades.
#[local] Hint Extern 1 (preserves (fades_from _) (get_clause _)) =>
  apply fades_frame, clauses_get_clause : fades.
#[local] Hint Extern 1 (preserves (fades_from _) (insert_access_log _)) =>
  apply fades_frame, clauses_insert_access_log : fades.
#[local] Hint Extern 1 (preserves (fades_from _) (update_clauses _ (touch _))) =>
  apply fades_update, faded_touch : fades.

Lemma fades_get db0 i now : preserves (fades_from db0) (get i now).
Proof.
  unfold get. apply preserves_bind; [auto with fades |].
  intros [row |]; [| auto with fades].
  apply preserves_bind; auto with fades.
Qed.

Lemma fades_update_op db0 i u now :
  up_confidence u = None -> preserves (fades_from db0) (update i u now).
Proof.
  intros Hu. unfold update. apply preserves_bind; [apply fades_get |].
  intros [existing |]; [| auto with fades].
  destruct (no_updates u); [auto with fades |].
  apply preserves_bind; [| intros _; apply fades_get].
  apply fades_update. intros r. apply faded_apply_updates, Hu.
Qed.

Lemma fades_invalidate db0 i reason_ now :
  preserves (fades_from db0) (invalidate i reason_ now).
Proof. unfold invalidate. apply fades_update, faded_invalidated. Qed.

Lemma fades_retrieve db0 fts5 self query options now :
  preserves (fades_from db0) (Retriever.retrieve fts5 self query options now).
Proof.
  unfold Retriever.retrieve. cbv zeta.
  apply preserves_bind.
  { apply fades_frame. intros db. unfold Retriever.keywordSearch.
    destruct (Retriever.blank query); [reflexivity |].
    destruct (fts_rejects fts5 _); reflexivity. }
  intros kw. apply preserves_bind.
  { destruct (_ && _); [| auto with fades].
    destruct (Retriever.embeddingManager self) as [m |]; [| auto with fades].
    apply fades_frame. intros db. unfold Retriever.findSimilar.
    destruct (Nat.eqb _ _); reflexivity. }
  intros sem. apply preserves_bind; [apply fades_frame; reflexivity |].
  intros scoredClauses. apply preserves_bind; [| auto with fades].
  apply preserves_for_each. intros c. unfold Retriever.logAccess.
  apply preserves_bind; [auto with fades | intros k].
  apply preserves_bind; auto with fades.
Qed.

Lemma fades_run config dryRun now db :
  wf db -> fades_from db (fst (DecayRunner.run config dryRun now db)).
Proof.
  intros Hwf. destruct dryRun.
  - unfold DecayRunner.run. rewrite andb_false_r.
    unfold bind, select_clauses. rewrite DecayFacts.run_loop_dry.
    apply fades_refl.
  - destruct (DecayRunner.enabled config) eqn:Hen.
    + destruct (DecayEffects.run_real config now db Hwf Hen)
        as (db' & report & Hrun & _ & Hcl & _).
      rewrite Hrun. cbn [fst]. unfold fades_from. rewrite Hcl.
      assert (Hall : forall l,
                (forall r, In r l -> In r (clauses db)) ->
                Forall2 faded l (map (DecayRunner.decay_row config now) l)).
      { induction l as [| r l IH]; intros Hl; [constructor |].
        cbn [map]. constructor.
        - apply (faded_decay_row config now db); [apply Hwf |].
          apply Hl. left. reflexivity.
        - apply IH. intros r' Hr'. apply Hl. right. exact Hr'. }
      apply Hall. auto.
    + unfold DecayRunner.run. rewrite Hen. apply fades_refl.
Qed.

(** *** The id supply only grows *)

Lemma supply_frame n {A} (m : Db A) :
  (forall db, uuid_counter db <= uuid_counter (fst (m db))) ->
  preserves (supply_from n) m.
Proof.
  intros H db Hn. unfold supply_from in *. specialize (H db). lia.
Qed.

Ltac supply_step :=
  apply supply_frame; intros ?;
  unfold uuidv7, select_clauses, get_clause, update_clauses, insert_decay_log,
    insert_access_log, setMetadata, fk_error;
  repeat match goal with
         | |- context [if ?b then _ else _] => destruct b
         end;
  cbn [fst uuid_counter set_clauses]; lia.

Create HintDb supply.

#[local] Hint Resolve preserves_ret preserves_throw : supply.
#[local] Hint Extern 1 (preserves (supply_from _) uuidv7) =>
  supply_step : supply.
#[local] Hint Extern 1 (preserves (supply_from _) (select_clauses _)) =>
  supply_step : supply.
#[local] Hint Extern 1 (preserves (supply_from _) (get_clause _)) =>
  supply_step : supply.
#[local] Hint Extern 1 (preserves (supply_from _) (update_clauses _ _)) =>
  supply_step : supply.
#[local] Hint Extern 1 (preserves (supply_from _) (insert_decay_log _)) =>
  supply_step : supply.
#[local] Hint Extern 1 (preserves (supply_from _) (insert_access_log _)) =>
  supply_step : supply.
#[local] Hint Extern 1 (preserves (supply_from _) (setMetadata _ _)) =>
  supply_step : supply.

(** Walks a computation built from [bind], [match] and [if]. *)
Ltac preserve_supply :=
  repeat first
    [ solve [ auto with supply ]
    | apply preserves_bind; [| intros ? ]
    | apply preserves_for_each; intros ?
    | progress cbv zeta
    | match goal with
      | |- preserves _ (match ?x with _ => _ end) => destruct x
      | |- preserves _ (if ?b then _ else _) => destruct b
      end ].

Lemma supply_get n i now : preserves (supply_from n) (get i now).
Proof. unfold get. preserve_supply. Qed.

Lemma supply_update_op n i u now : preserves (supply_from n) (update i u now).
Proof.
  unfold update. apply preserves_bind; [apply supply_get |].
  intros [existing |]; [| auto with supply].
  destruct (no_updates u); [auto with supply |].
  apply preserves_bind; [auto with supply | intros _; apply supply_get].
Qed.

Lemma supply_invalidate n i reason_ now :
  preserves (supply_from n) (invalidate i reason_ now).
Proof. unfold invalidate. auto with supply. Qed.

Lemma supply_run_loop n config dryRun now rows :
  forall report,
    preserves (supply_from n) (DecayRunner.run_loop config dryRun now rows report).
Proof.
  induction rows as [| s rows IH]; intros report; cbn [DecayRunner.run_loop].
  - auto with supply.
  - destruct (Js.ltb _ _).
    + apply preserves_bind; [| intros _; apply IH].
      unfold DecayRunner.unless_dry, DecayRunner.archiveClause,
        DecayRunner.logDecay. preserve_supply.
    + destruct (Js.ltb _ _); [| apply IH].
      apply preserves_bind; [| intros _; apply IH].
      unfold DecayRunner.unless_dry, DecayRunner.applyDecay,
        DecayRunner.logDecay. preserve_supply.
Qed.

Lemma supply_run n config dryRun now :
  preserves (supply_from n) (DecayRunner.run config dryRun now).
Proof.
  unfold DecayRunner.run. destruct (_ && _); [auto with supply |].
  apply preserves_bind; [auto with supply | intros rows].
  apply preserves_bind; [apply supply_run_loop | intros report].
  apply preserves_bind; [| auto with supply].
  unfold DecayRunner.unless_dry. destruct dryRun; auto with supply.
Qed.

Lemma supply_retrieve n fts5 self query options now :
  preserves (supply_from n) (Retriever.retrieve fts5 self query options now).
Proof.
  unfold Retriever.retrieve. cbv zeta.
  apply preserves_bind.
  { apply supply_frame. intros db. unfold Retriever.keywordSearch.
    destruct (Retriever.blank query); [reflexivity |].
    destruct (fts_rejects fts5 _); reflexivity. }
  intros kw. apply preserves_bind.
  { destruct (_ && _); [| auto with supply].
    destruct (Retriever.embeddingManager self) as [m |]; [| auto with supply].
    apply supply_frame. intros db. unfold Retriever.findSimilar.
    destruct (Nat.eqb _ _); reflexivity. }
  intros sem. apply preserves_bind; [apply supply_frame; reflexivity |].
  intros scoredClauses. apply preserves_bind; [| auto with supply].
  apply preserves_for_each. intros c. unfold Retriever.logAccess.
  preserve_supply.
Qed.

(** *** What fading keeps *)

Lemma fades_ids l0 l : Forall2 faded l0 l -> map id l = map id l0.
Proof.
  induction 1 as [| r0 r l0 l [Hid _] _ IH]; [reflexivity |].
  cbn [map]. rewrite Hid, IH. reflexivity.
Qed.

Lemma fades_visible s p l0 l :
  Forall2 faded l0 l ->
  List.length (List.filter (visible s p) l)
  <= List.length (List.filter (visible s p) l0).
Proof.
  induction 1 as [| r0 r l0 l [_ Hv] _ IH]; [reflexivity |].
  cbn [List.filter]. specialize (Hv s p).
  destruct (visible s p r).
  - rewrite (Hv eq_refl). cbn [List.length]. lia.
  - destruct (visible s p r0); cbn [List.length]; lia.
Qed.

Lemma fades_fresh n n' l0 l :
  n <= n' -> Forall2 faded l0 l ->
  Forall (fun r => id r < n) l0 -> Forall (fun r => id r < n') l.
Proof.
  intros Hle Hf. induction Hf as [| r0 r l0 l [Hid _] _ IH]; intros Hfresh;
    [constructor |].
  inversion Hfresh; subst. constructor; [lia | auto].
Qed.

Lemma faded_store db db' :
  wf db -> singleton_inv db ->
  fades_from db db' -> supply_from (uuid_counter db) db' -> checks_hold db' ->
  wf db' /\ singleton_inv db'.
Proof.
  intros [Hchecks Hnd Hfresh] Hinv Hf Hs Hchecks'. split.
  - constructor; [exact Hchecks' | |].
    + rewrite (fades_ids _ _ Hf). exact Hnd.
    + exact (fades_fresh _ _ _ _ Hs Hf Hfresh).
  - intros s p Hp. specialize (Hinv s p Hp).
    pose proof (fades_visible s p _ _ Hf). lia.
Qed.

(** A guarded write keeps the store well formed and the invariant. *)
Lemma guarded_write w now db :
  guarded w = true -> wf db -> singleton_inv db ->
  wf (exec w now db) /\ singleton_inv (exec w now db).
Proof.
  intros Hg Hwf Hinv.
  assert (Hn : supply_from (uuid_counter db) db) by (unfold supply_from; lia).
  assert (Hchecks := wf_checks _ Hwf).
  destruct w; cbn [guarded] in Hg; try discriminate; cbn [exec].
  - apply (faded_store db); try assumption.
    + apply fades_get, fades_refl.
    + apply supply_get, Hn.
    + apply checks_get, Hchecks.
  - destruct (up_confidence updates) eqn:Hu; [discriminate |].
    apply (faded_store db); try assumption.
    + apply fades_update_op; [exact Hu | apply fades_refl].
    + apply supply_update_op, Hn.
    + apply checks_update_op, Hchecks.
  - apply (faded_store db); try assumption.
    + apply fades_invalidate, fades_refl.
    + apply supply_invalidate, Hn.
    + apply checks_invalidate, Hchecks.
  - split; [apply processNewClause_wf | apply processNewClause_singleton];
      assumption.
  - apply (faded_store db); try assumption.
    + apply fades_run, Hwf.
    + apply supply_run, Hn.
    + apply DecayFacts.checks_run, Hchecks.
  - apply (faded_store db); try assumption.
    + apply fades_retrieve, fades_refl.
    + apply supply_retrieve, Hn.
    + apply RetrieverFacts.checks_retrieve, Hchecks.
Qed.

Lemma guarded_reachable_inv db :
  guarded_reachable db -> wf db /\ singleton_inv db.
Proof.
  induction 1 as [| db w now Hg _ [Hwf Hinv]].
  - split; [apply init_wf |]. intros s p _. simpl. lia.
  - apply guarded_write; assumption.
Qed.




End SingletonFacts.


(** ** Conflict resolution *)

Module ConflictFacts.
Import Database DatabaseFacts ClauseStore ClauseFacts StoreFacts
  ConflictResolver.

(** *** Statements on [clauses] leave the conflict table alone *)

Lemma conflicts_frame {A} cs (m : Db A) :
  (forall db, conflicts (fst (m db)) = conflicts db) ->
  preserves (conflicts_are cs) m.
Proof. intros H db Hc. unfold conflicts_are in *. rewrite H. exact Hc. Qed.

Lemma conflicts_update_clauses cs w s :
  preserves (conflicts_are cs) (update_clauses w s).
Proof.
  apply conflicts_frame. intros db. unfold update_clauses.
  destruct (forallb _ _); reflexivity.
Qed.

Lemma conflicts_get_clause cs i : preserves (conflicts_are cs) (get_clause i).
Proof. apply conflicts_frame. reflexivity. Qed.

Lemma conflicts_get cs i now : preserves (conflicts_are cs) (get i now).
Proof.
  unfold get. apply preserves_bind; [apply conflicts_get_clause |].
  intros [r |]; [| apply preserves_ret].
  apply preserves_bind; [apply conflicts_update_clauses |].
  intros _. apply preserves_ret.
Qed.

Lemma conflicts_invalidate cs i reason_ now :
  preserves (conflicts_are cs) (invalidate i reason_ now).
Proof. apply conflicts_update_clauses. Qed.

Lemma conflicts_update cs i u now :
  preserves (conflicts_are cs) (update i u now).
Proof.
  unfold update. apply preserves_bind; [apply conflicts_get |].
  intros [r |]; [| apply preserves_ret].
  destruct (no_updates u); [apply preserves_ret |].
  apply preserves_bind; [apply conflicts_update_clauses |].
  intros _. apply conflicts_get.
Qed.

(** *** Lookups after updates by id *)

Lemma find_updated_other i j g (rows : list ClauseRow) :
  (forall r, id (g r) = id r) -> i <> j ->
  List.find (fun r => Nat.eqb (id r) j)
    (updated (fun r => Nat.eqb (id r) i) g rows)
  = List.find (fun r => Nat.eqb (id r) j) rows.
Proof.
  intros Hid Hne. induction rows as [| r rows IH]; simpl; [reflexivity |].
  destruct (Nat.eqb (id r) i) eqn:E.
  - rewrite Hid. apply Nat.eqb_eq in E.
    assert (Ej : Nat.eqb (id r) j = false) by (apply Nat.eqb_neq; congruence).
    rewrite Ej. exact IH.
  - destruct (Nat.eqb (id r) j); [reflexivity | exact IH].
Qed.

Lemma find_marked i set_ cs :
  (forall c, conflict_id (set_ c) = conflict_id c) ->
  List.find (fun c => Nat.eqb (conflict_id c) i) (marked i set_ cs)
  = option_map set_ (List.find (fun c => Nat.eqb (conflict_id c) i) cs).
Proof.
  intros Hid. induction cs as [| c cs IH]; simpl; [reflexivity |].
  destruct (Nat.eqb (conflict_id c) i) eqn:E.
  - rewrite Hid, E. reflexivity.
  - rewrite E. exact IH.
Qed.

Lemma mark_resolved_run i text now db :
  mark_resolved i text now db
  = (mkDB (clauses db) (marked i (auto_resolved_row text now) (conflicts db))
       (decay_log db) (access_log db) (system_metadata db) (uuid_counter db),
     inr tt).
Proof. reflexivity. Qed.

(** *** A conflict that is not pending *)

Lemma resolveConflict_settled cfg i strategy_ now db :
  (forall c,
     List.find (fun c => Nat.eqb (conflict_id c) i) (conflicts db) = Some c ->
     status c <> pending) ->
  resolveConflict cfg i strategy_ now db
  = (db, inr (mkResolveResult false "not_found_or_already_resolved" None)).
Proof.
  intros H. unfold resolveConflict. cbv zeta. unfold bind at 1.
  unfold get_conflict at 1.
  destruct (List.find _ (conflicts db)) as [c |] eqn:F; [| reflexivity].
  specialize (H c eq_refl). unfold is_pending.
  destruct (status c); try reflexivity. contradiction.
Qed.


(** *** The two reads that precede a resolution *)

Lemma wf_rewritten db rows :
  wf db ->
  map id rows = map id (clauses db) ->
  Forall (fun r => row_check r = true) rows ->
  wf (set_clauses rows db).
Proof.
  intros [Hchecks Hnd Hfresh] Hids Hrows. constructor.
  - exact Hrows.
  - db_simpl. rewrite Hids. exact Hnd.
  - db_simpl. apply List.Forall_forall. intros r Hr.
    assert (Hin : In (id r) (map id (clauses db))).
    { rewrite <- Hids. apply in_map. exact Hr. }
    apply in_map_iff in Hin. destruct Hin as (r' & E & Hr').
    rewrite List.Forall_forall in Hfresh. rewrite <- E. auto.
Qed.

Lemma wf_updated db i g :
  wf db ->
  (forall r, id (g r) = id r) ->
  (forall r, In r (clauses db) -> row_check (g r) = true) ->
  wf (set_clauses (updated (fun r => Nat.eqb (id r) i) g (clauses db)) db).
Proof.
  intros Hwf Hid Hg. apply wf_rewritten; [exact Hwf | |].
  - apply updated_ids. exact Hid.
  - apply List.Forall_forall. intros r Hr. apply In_updated in Hr.
    destruct Hr as (r1 & Hr1 & ->).
    destruct (Nat.eqb (id r1) i); [apply Hg; exact Hr1 |].
    exact (checks_In db r1 (wf_checks _ Hwf) Hr1).
Qed.

Lemma wf_touched db i now :
  wf db ->
  wf (set_clauses (updated (fun r => Nat.eqb (id r) i) (touch now) (clauses db))
        db).
Proof.
  intros Hwf. apply wf_updated; [exact Hwf | reflexivity |].
  intros r Hr. exact (checks_In db r (wf_checks _ Hwf) Hr).
Qed.

Lemma map_updated_fixed {X} (f : ClauseRow -> X) where_ g rows :
  (forall r, f (g r) = f r) ->
  map f (updated where_ g rows) = map f rows.
Proof.
  intros Hf. unfold updated. rewrite map_map. apply map_ext. intros r.
  destruct (where_ r); [apply Hf | reflexivity].
Qed.

Lemma two_gets a b now db A B :
  wf db ->
  List.find (fun r => Nat.eqb (id r) a) (clauses db) = Some A ->
  List.find (fun r => Nat.eqb (id r) b) (clauses db) = Some B ->
  a <> b ->
  let db1 :=
    set_clauses (updated (fun r => Nat.eqb (id r) a) (touch now) (clauses db))
      db in
  let db2 := set_clauses (read_twice a b now (clauses db)) db in
  get a now db = (db1, inr (Some A))
  /\ get b now db1 = (db2, inr (Some B))
  /\ wf db2
  /\ List.find (fun r => Nat.eqb (id r) a) (clauses db2) = Some (touch now A)
  /\ List.find (fun r => Nat.eqb (id r) b) (clauses db2) = Some (touch now B).
Proof.
  intros Hwf Fa Fb Hab. cbv zeta.
  assert (Hwf1 := wf_touched db a now Hwf).
  assert (Hwf2 := wf_touched _ b now Hwf1).
  split; [exact (get_run a now db A (wf_checks _ Hwf) Fa) |].
  split.
  { rewrite (get_run b now _ B (wf_checks _ Hwf1)).
    - reflexivity.
    - db_simpl. rewrite find_updated_other by (auto || reflexivity).
      exact Fb. }
  split; [exact Hwf2 |].
  unfold read_twice. db_simpl. split.
  - rewrite find_updated_other by (auto || reflexivity).
    rewrite find_updated by reflexivity. rewrite Fa. reflexivity.
  - rewrite find_updated by reflexivity.
    rewrite find_updated_other by (auto || reflexivity).
    rewrite Fb. reflexivity.
Qed.

(** X14.  Under the [manual] strategy a pending conflict is reported as
    requiring manual resolution and stays pending: the conflict table is
    untouched and no clause loses its validity, confidence or metadata.
    The two clauses are nevertheless read, so each is stamped as accessed
    once. *)
Theorem manual_strategy_leaves_the_conflict_pending
    (cfg : ConflictResolutionConfig) (i : uuid)
    (strategy_ : option ConflictResolutionStrategy) (now : time) (db : DB)
    (c : Conflict) (A B : ClauseRow) :
  wf db ->
  List.find (fun c => Nat.eqb (conflict_id c) i) (conflicts db) = Some c ->
  status c = pending ->
  List.find (fun r => Nat.eqb (id r) (clause_a_id c)) (clauses db) = Some A ->
  List.find (fun r => Nat.eqb (id r) (clause_b_id c)) (clauses db) = Some B ->
  clause_a_id c <> clause_b_id c ->
  orElse strategy_ (strategy cfg) = manual ->
  exists db',
    resolveConflict cfg i strategy_ now db
    = (db', inr (mkResolveResult false "requires_manual_resolution" None))
    /\ conflicts db' = conflicts db
    /\ clauses db'
       = read_twice (clause_a_id c) (clause_b_id c) now (clauses db)
    /\ map valid_to (clauses db') = map valid_to (clauses db)
    /\ map confidence (clauses db') = map confidence (clauses db)
    /\ map metadata (clauses db') = map metadata (clauses db)
    /\ List.find (fun r => Nat.eqb (id r) (clause_a_id c)) (clauses db')
       = Some (touch now A)
    /\ List.find (fun r => Nat.eqb (id r) (clause_b_id c)) (clauses db')
       = Some (touch now B).
Proof.
  intros Hwf Fc Hp Fa Fb Hab Hman.
  destruct (two_gets _ _ now db A B Hwf Fa Fb Hab)
    as (G1 & G2 & Hwf2 & Fa2 & Fb2).
  unfold resolveConflict. cbv zeta. rewrite Hman.
  unfold bind at 1. unfold get_conflict at 1. rewrite Fc.
  unfold is_pending. rewrite Hp. cbn [negb].
  unfold bind at 1. rewrite G1. unfold bind at 1. rewrite G2.
  cbn [pick]. eexists. split; [reflexivity |]. db_simpl.
  split; [reflexivity |]. split; [reflexivity |].
  assert (Hmap : forall {X} (f : ClauseRow -> X),
            (forall r, f (touch now r) = f r) ->
            map f (read_twice (clause_a_id c) (clause_b_id c) now (clauses db))
            = map f (clauses db)).
  { intros X f Hf. unfold read_twice.
    rewrite !map_updated_fixed by exact Hf. reflexivity. }
  split; [apply Hmap; reflexivity |].
  split; [apply Hmap; reflexivity |].
  split; [apply Hmap; reflexivity |].
  split; [exact Fa2 | exact Fb2].
Qed.


(** *** Automatic resolution *)

Lemma pick_spec s A B :
  s <> manual ->
  exists text,
    pick s A B
    = Some (if keeps_first s A B then A else B,
            if keeps_first s A B then B else A, text).
Proof.
  intros Hs. destruct s; try contradiction; cbn [pick keeps_first];
    unfold keep_first;
    match goal with
    | |- context [if ?b then (A, B) else (B, A)] => destruct b
    end; eexists; reflexivity.
Qed.

Lemma invalidated_row_check reason_ now r :
  row_check (invalidated_row reason_ now r) = row_check r.
Proof. reflexivity. Qed.

Lemma retire_loser db a b A B (keepA : bool) now :
  wf db ->
  List.find (fun r => Nat.eqb (id r) a) (clauses db) = Some A ->
  List.find (fun r => Nat.eqb (id r) b) (clauses db) = Some B ->
  a <> b ->
  let kept := if keepA then A else B in
  let loser := if keepA then B else A in
  let db2 := set_clauses (read_twice a b now (clauses db)) db in
  let db3 :=
    set_clauses (loser_retired a b (id loser) (id kept) now (clauses db)) db in
  invalidate (id loser) (Some ("superseded_by:" ++ uuid_text (id kept))) now db2
  = (db3, inr tt)
  /\ wf db3
  /\ id kept <> id loser
  /\ List.find (fun r => Nat.eqb (id r) (id kept)) (clauses db3)
     = Some (touch now kept)
  /\ List.find (fun r => Nat.eqb (id r) (id loser)) (clauses db3)
     = Some (invalidated_row (Some ("superseded_by:" ++ uuid_text (id kept)))
               now (touch now loser)).
Proof.
  intros Hwf Fa Fb Hab. cbv zeta.
  destruct (two_gets a b now db A B Hwf Fa Fb Hab)
    as (_ & _ & Hwf2 & Fa2 & Fb2).
  cbn [clauses set_clauses] in Fa2, Fb2.
  destruct (find_In_id _ _ _ Fa) as (_ & Ea).
  destruct (find_In_id _ _ _ Fb) as (_ & Eb).
  assert (Hne : id (if keepA then A else B) <> id (if keepA then B else A)).
  { destruct keepA; congruence. }
  split.
  { rewrite (invalidate_run _ _ _ _ (wf_checks _ Hwf2)). reflexivity. }
  split.
  { unfold loser_retired.
    change (set_clauses ?rows db)
      with (set_clauses rows (set_clauses (read_twice a b now (clauses db)) db)).
    apply (wf_updated _ _ _ Hwf2); [reflexivity |].
    intros r Hr. rewrite invalidated_row_check.
    exact (checks_In _ r (wf_checks _ Hwf2) Hr). }
  split; [exact Hne |].
  unfold loser_retired. db_simpl. split.
  - rewrite find_updated_other by (auto || reflexivity).
    destruct keepA; [rewrite Ea | rewrite Eb]; assumption.
  - rewrite find_updated by reflexivity.
    destruct keepA; [rewrite Eb, Fb2 | rewrite Ea, Fa2]; reflexivity.
Qed.


(** X15.  Resolving a pending conflict between two stored clauses under a
    strategy other than [manual] keeps one clause and retires the other:
    [highest_confidence] keeps the first clause unless the second is
    strictly more confident, the other strategies keep the first only if it
    was recorded strictly later.  The loser gets [valid_to = now] and the
    reason [superseded_by:<kept id>]; the kept clause stays as valid and as
    confident as it was, and with [preserveHistory] its metadata gets the
    loser's id pushed on [supersedes].  The conflict becomes
    [auto_resolved], and resolving it again changes nothing. *)
Theorem automatic_resolution_retires_the_loser
    (cfg : ConflictResolutionConfig) (i : uuid)
    (strategy_ : option ConflictResolutionStrategy) (now : time) (db : DB)
    (c : Conflict) (A B : Clause) :
  wf db ->
  List.find (fun c => Nat.eqb (conflict_id c) i) (conflicts db) = Some c ->
  status c = pending ->
  List.find (fun r => Nat.eqb (id r) (clause_a_id c)) (clauses db) = Some A ->
  List.find (fun r => Nat.eqb (id r) (clause_b_id c)) (clauses db) = Some B ->
  clause_a_id c <> clause_b_id c ->
  orElse strategy_ (strategy cfg) <> manual ->
  let keepA := keeps_first (orElse strategy_ (strategy cfg)) A B in
  let kept := if keepA then A else B in
  let loser := if keepA then B else A in
  (preserveHistory cfg = true ->
   exists m, push_supersedes (metadata kept) (id loser) = inr m) ->
  exists db' res r_kept r_loser c',
    resolveConflict cfg i strategy_ now db = (db', inr res)
    /\ resolved res = true
    /\ keptClauseId res = Some (id kept)
    /\ List.find (fun r => Nat.eqb (id r) (id loser)) (clauses db')
       = Some r_loser
    /\ valid_to r_loser = Some now
    /\ metadata r_loser !! "invalidation_reason"
       = Some ("superseded_by:" ++ uuid_text (id kept))
    /\ confidence r_loser = confidence loser
    /\ List.find (fun r => Nat.eqb (id r) (id kept)) (clauses db')
       = Some r_kept
    /\ valid_to r_kept = valid_to kept
    /\ confidence r_kept = confidence kept
    /\ (if preserveHistory cfg
        then push_supersedes (metadata kept) (id loser)
             = inr (metadata r_kept)
        else metadata r_kept = metadata kept)
    /\ List.find (fun c => Nat.eqb (conflict_id c) i) (conflicts db')
       = Some c'
    /\ status c' = auto_resolved
    /\ resolution c' = Some (action res)
    /\ resolved_at c' = Some now
    /\ (forall cfg' strategy' now',
          resolveConflict cfg' i strategy' now' db'
          = (db',
             inr (mkResolveResult false "not_found_or_already_resolved"
                    None))).
Proof.
  intros Hwf Fc Hp Fa Fb Hab Hauto. cbv zeta. intros Hpush.
  set (keepA := keeps_first (orElse strategy_ (strategy cfg)) A B) in *.
  destruct (two_gets _ _ now db A B Hwf Fa Fb Hab) as (G1 & G2 & _).
  destruct (retire_loser db _ _ A B keepA now Hwf Fa Fb Hab)
    as (Hinv & Hwf3 & Hne & Fk3 & Fl3).
  cbn [clauses set_clauses] in Fk3, Fl3.
  destruct (pick_spec _ A B Hauto) as (text & Hpick). fold keepA in Hpick.
  assert (Hkept : In (if keepA then A else B) (clauses db)).
  { destruct keepA;
      [exact (proj1 (find_In_id _ _ _ Fa))
      | exact (proj1 (find_In_id _ _ _ Fb))]. }
  assert (Hagain :
    forall db' c',
      List.find (fun c => Nat.eqb (conflict_id c) i) (conflicts db') = Some c' ->
      status c' = auto_resolved ->
      forall cfg' strategy' now',
        resolveConflict cfg' i strategy' now' db'
        = (db',
           inr (mkResolveResult false "not_found_or_already_resolved" None))).
  { intros db' c' F' Hst cfg' strategy' now'. apply resolveConflict_settled.
    intros c0 F0. rewrite F' in F0. injection F0 as <-. rewrite Hst.
    discriminate. }
  assert (Hmarked :
    forall cs, cs = conflicts db ->
      List.find (fun c => Nat.eqb (conflict_id c) i)
        (marked i (auto_resolved_row text now) cs)
      = Some (auto_resolved_row text now c)).
  { intros cs ->. rewrite find_marked by reflexivity. rewrite Fc. reflexivity. }
  unfold resolveConflict at 1. cbv zeta.
  unfold bind at 1. unfold get_conflict at 1. rewrite Fc.
  unfold is_pending. rewrite Hp. cbn [negb].
  unfold bind at 1. rewrite G1. unfold bind at 1. rewrite G2.
  rewrite Hpick. unfold bind at 1. rewrite Hinv.
  destruct (preserveHistory cfg) eqn:Hph.
  - destruct (Hpush eq_refl) as (m & Hm). rewrite Hm.
    assert (Hup := update_run _
                     (mkUpdates None None None (Some m) None) now _
                     _ Hwf3 Fk3 eq_refl).
    cbn [apply_updates apply_opt up_natural_form up_metadata up_tags
         up_decay_rate up_confidence] in Hup.
    specialize (Hup (checks_In db _ (wf_checks _ Hwf) Hkept)).
    unfold bind at 1. unfold bind at 1. rewrite Hup.
    unfold bind at 1. cbn [ret]. unfold bind. rewrite mark_resolved_run.
    db_simpl.
    eexists. eexists. eexists. eexists. eexists.
    split; [reflexivity |]. db_simpl. cbn [resolved keptClauseId action].
    split; [reflexivity |]. split; [reflexivity |].
    split.
    { rewrite find_updated_other by (auto || reflexivity). exact Fl3. }
    split; [reflexivity |].
    split.
    { cbn [metadata invalidated_row set_metadata orElse].
      apply lookup_insert_eq. }
    split; [reflexivity |].
    split.
    { rewrite find_updated by reflexivity. rewrite Fk3. reflexivity. }
    split; [reflexivity |]. split; [reflexivity |].
    split; [reflexivity |].
    split; [apply Hmarked; reflexivity |].
    split; [reflexivity |]. split; [reflexivity |]. split; [reflexivity |].
    apply (Hagain _ (auto_resolved_row text now c)).
    + db_simpl. apply Hmarked. reflexivity.
    + reflexivity.
  - unfold bind at 1. cbn [ret]. unfold bind. rewrite mark_resolved_run.
    db_simpl.
    eexists. eexists. eexists. eexists. eexists.
    split; [reflexivity |]. db_simpl. cbn [resolved keptClauseId action].
    split; [reflexivity |]. split; [reflexivity |].
    split; [exact Fl3 |].
    split; [reflexivity |].
    split.
    { cbn [metadata invalidated_row set_metadata orElse].
      apply lookup_insert_eq. }
    split; [reflexivity |].
    split; [exact Fk3 |].
    split; [reflexivity |]. split; [reflexivity |].
    split; [reflexivity |].
    split; [apply Hmarked; reflexivity |].
    split; [reflexivity |]. split; [reflexivity |]. split; [reflexivity |].
    apply (Hagain _ (auto_resolved_row text now c)).
    + db_simpl. apply Hmarked. reflexivity.
    + reflexivity.
Qed.


(** X16.  When the kept clause's [supersedes] value cannot take a [push],
    [resolveConflict] raises after it has retired the loser: the loser
    stays invalidated, the conflict stays pending, and the kept clause
    keeps its metadata. *)
Theorem failed_history_link_leaves_the_conflict_pending
    (cfg : ConflictResolutionConfig) (i : uuid)
    (strategy_ : option ConflictResolutionStrategy) (now : time) (db : DB)
    (c : Conflict) (A B : Clause) (e : Exn) :
  wf db ->
  List.find (fun c => Nat.eqb (conflict_id c) i) (conflicts db) = Some c ->
  status c = pending ->
  List.find (fun r => Nat.eqb (id r) (clause_a_id c)) (clauses db) = Some A ->
  List.find (fun r => Nat.eqb (id r) (clause_b_id c)) (clauses db) = Some B ->
  clause_a_id c <> clause_b_id c ->
  orElse strategy_ (strategy cfg) <> manual ->
  let keepA := keeps_first (orElse strategy_ (strategy cfg)) A B in
  let kept := if keepA then A else B in
  let loser := if keepA then B else A in
  preserveHistory cfg = true ->
  push_supersedes (metadata kept) (id loser) = inl e ->
  exists db' r_loser,
    resolveConflict cfg i strategy_ now db = (db', inl e)
    /\ conflicts db' = conflicts db
    /\ List.find (fun r => Nat.eqb (id r) (id loser)) (clauses db')
       = Some r_loser
    /\ valid_to r_loser = Some now
    /\ List.find (fun r => Nat.eqb (id r) (id kept)) (clauses db')
       = Some (touch now kept).
Proof.
  intros Hwf Fc Hp Fa Fb Hab Hauto. cbv zeta. intros Hph Hpush.
  set (keepA := keeps_first (orElse strategy_ (strategy cfg)) A B) in *.
  destruct (two_gets _ _ now db A B Hwf Fa Fb Hab) as (G1 & G2 & _).
  destruct (retire_loser db _ _ A B keepA now Hwf Fa Fb Hab)
    as (Hinv & Hwf3 & Hne & Fk3 & Fl3).
  cbn [clauses set_clauses] in Fk3, Fl3.
  destruct (pick_spec _ A B Hauto) as (text & Hpick). fold keepA in Hpick.
  unfold resolveConflict at 1. cbv zeta.
  unfold bind at 1. unfold get_conflict at 1. rewrite Fc.
  unfold is_pending. rewrite Hp. cbn [negb].
  unfold bind at 1. rewrite G1. unfold bind at 1. rewrite G2.
  rewrite Hpick. unfold bind at 1. rewrite Hinv.
  rewrite Hph, Hpush. unfold bind, throw.
  eexists. eexists. split; [reflexivity |]. db_simpl.
  split; [reflexivity |]. split; [exact Fl3 |].
  split; [reflexivity | exact Fk3].
Qed.

(** *** Resolving all pending conflicts *)

Lemma run_conflicts_are {A} (m : Db A) db :
  preserves (conflicts_are (conflicts db)) m ->
  conflicts (fst (m db)) = conflicts db.
Proof. intros H. apply (H db). reflexivity. Qed.

(** What one resolution does to the conflict table, however it ends. *)
Lemma resolveConflict_table cfg i strategy_ now db :
  match resolveConflict cfg i strategy_ now db with
  | (db', inr res) =>
      if resolved res
      then conflicts db'
           = marked i (auto_resolved_row (action res) now) (conflicts db)
           /\ exists c,
                List.find (fun c => Nat.eqb (conflict_id c) i) (conflicts db)
                = Some c
                /\ is_pending c = true
      else conflicts db' = conflicts db
  | (db', inl _) => conflicts db' = conflicts db
  end.
Proof.
  unfold resolveConflict. cbv zeta. unfold bind at 1.
  unfold get_conflict at 1.
  destruct (List.find _ (conflicts db)) as [c |] eqn:Fc; [| reflexivity].
  destruct (is_pending c) eqn:Hp; cbn [negb]; [| reflexivity].
  unfold bind at 1.
  assert (H1 := run_conflicts_are (get (clause_a_id c) now) db
                  (conflicts_get _ _ _)).
  destruct (get (clause_a_id c) now db) as [db1 [e | oa]]; cbn [fst] in H1;
    [exact H1 |].
  unfold bind at 1.
  assert (H2 := run_conflicts_are (get (clause_b_id c) now) db1
                  (conflicts_get _ _ _)).
  destruct (get (clause_b_id c) now db1) as [db2 [e | ob]]; cbn [fst] in H2;
    [congruence |].
  assert (Hdel :
    forall kept_,
      ((mark_resolved i "clause_deleted" now ;;;
        ret (mkResolveResult true "clause_deleted" kept_)) db2)
      = (mkDB (clauses db2)
           (marked i (auto_resolved_row "clause_deleted" now) (conflicts db2))
           (decay_log db2) (access_log db2) (system_metadata db2)
           (uuid_counter db2),
         inr (mkResolveResult true "clause_deleted" kept_))).
  { reflexivity. }
  destruct oa as [a |], ob as [b |];
    try (rewrite Hdel; cbn [resolved action]; db_simpl;
         split; [congruence | eauto]).
  destruct (pick _ a b) as [[[kept loser] text] |]; [| cbn; congruence].
  unfold bind at 1.
  assert (H3 := run_conflicts_are
                  (invalidate (id loser)
                     (Some ("superseded_by:" ++ uuid_text (id kept))) now) db2
                  (conflicts_invalidate _ _ _ _)).
  destruct (invalidate _ _ now db2) as [db3 [e | []]]; cbn [fst] in H3;
    [congruence |].
  unfold bind at 1.
  assert (H4 :
    match (if preserveHistory cfg
           then match push_supersedes (metadata kept) (id loser) with
                | inr metadata_ =>
                    update (id kept)
                      (mkUpdates None None None (Some metadata_) None) now ;;;
                    ret tt
                | inl e => throw e
                end
           else ret tt) db3 with
    | (db4, _) => conflicts db4 = conflicts db3
    end).
  { destruct (preserveHistory cfg); [| reflexivity].
    destruct (push_supersedes _ _) as [e | m]; [reflexivity |].
    unfold bind.
    assert (H := run_conflicts_are
                   (update (id kept) (mkUpdates None None None (Some m) None)
                      now) db3 (conflicts_update _ _ _ _)).
    destruct (update _ _ now db3) as [db4 [e | o]]; exact H. }
  match goal with
  | |- context [match ?m db3 with _ => _ end] =>
      destruct (m db3) as [db4 [e | []]]
  end; [congruence |].
  unfold bind. rewrite mark_resolved_run. cbn [ret resolved action].
  db_simpl. split; [congruence | eauto].
Qed.

Lemma marked_ids i set_ cs :
  (forall c, conflict_id (set_ c) = conflict_id c) ->
  map conflict_id (marked i set_ cs) = map conflict_id cs.
Proof.
  intros H. unfold marked. rewrite map_map. apply map_ext. intros c.
  destruct (Nat.eqb (conflict_id c) i); auto.
Qed.

Lemma marked_pending i text now cs c :
  List.NoDup (map conflict_id cs) ->
  List.find (fun c => Nat.eqb (conflict_id c) i) cs = Some c ->
  is_pending c = true ->
  S (List.length
       (List.filter is_pending (marked i (auto_resolved_row text now) cs)))
  = List.length (List.filter is_pending cs).
Proof.
  induction cs as [| c0 cs IH]; simpl; intros Hnd F Hp; [discriminate |].
  inversion Hnd as [| ? ? Hnot Hnd']; subst.
  destruct (Nat.eqb (conflict_id c0) i) eqn:E.
  - injection F as ->. rewrite Hp. cbn [is_pending auto_resolved_row status].
    simpl. f_equal.
    assert (Hsame : marked i (auto_resolved_row text now) cs = cs).
    { unfold marked. rewrite <- (map_id cs) at 2. apply map_ext_in.
      intros c' Hc'. destruct (Nat.eqb (conflict_id c') i) eqn:E';
        [| reflexivity].
      exfalso. apply Hnot. apply Nat.eqb_eq in E, E'. rewrite E, <- E'.
      apply in_map. exact Hc'. }
    rewrite Hsame. reflexivity.
  - destruct (is_pending c0); simpl; [f_equal |]; apply IH; assumption.
Qed.

Lemma resolve_loop_total cfg strategy_ now pend :
  forall acc db,
    List.NoDup (map conflict_id (conflicts db)) ->
    exists db' res,
      resolve_loop cfg strategy_ now pend acc db = (db', inr res)
      /\ all_resolved res + all_skipped res + all_errors res
         = all_resolved acc + all_skipped acc + all_errors acc
           + List.length pend
      /\ pending_count db' + all_resolved res
         = pending_count db + all_resolved acc
      /\ map conflict_id (conflicts db') = map conflict_id (conflicts db).
Proof.
  induction pend as [| c pend IH]; intros acc db Hnd.
  - exists db, acc. simpl. unfold ret. repeat split; lia.
  - cbn [resolve_loop]. unfold bind at 1. unfold try_catch. unfold bind at 1.
    pose proof (resolveConflict_table cfg (conflict_id c) strategy_ now db)
      as Htab.
    destruct (resolveConflict cfg (conflict_id c) strategy_ now db)
      as [db1 [e | res]].
    + destruct (IH (mkResolveAll (all_resolved acc) (all_skipped acc)
                      (S (all_errors acc))) db1)
        as (db' & res' & Hrun & Hsum & Hpend & Hids).
      { rewrite Htab. exact Hnd. }
      exists db', res'. cbn [ret]. split; [exact Hrun |].
      cbn [all_resolved all_skipped all_errors] in Hsum, Hpend.
      unfold pending_count in *. rewrite Htab in *. cbn [List.length].
      repeat split; try lia. exact Hids.
    + destruct (resolved res) eqn:Hres.
      * destruct Htab as (Htab & c0 & F0 & Hp0).
        destruct (IH (mkResolveAll (S (all_resolved acc)) (all_skipped acc)
                        (all_errors acc)) db1)
          as (db' & res' & Hrun & Hsum & Hpend & Hids).
        { rewrite Htab, marked_ids by reflexivity. exact Hnd. }
        exists db', res'. cbn [ret]. split; [exact Hrun |].
        cbn [all_resolved all_skipped all_errors] in Hsum, Hpend.
        pose proof (marked_pending (conflict_id c) (action res) now
                      (conflicts db) c0 Hnd F0 Hp0) as Hcount.
        unfold pending_count in *. rewrite Htab in Hpend, Hids.
        rewrite marked_ids in Hids by reflexivity. cbn [List.length].
        repeat split; try lia. exact Hids.
      * destruct (IH (mkResolveAll (all_resolved acc) (S (all_skipped acc))
                        (all_errors acc)) db1)
          as (db' & res' & Hrun & Hsum & Hpend & Hids).
        { rewrite Htab. exact Hnd. }
        exists db', res'. cbn [ret]. split; [exact Hrun |].
        cbn [all_resolved all_skipped all_errors] in Hsum, Hpend.
        unfold pending_count in *. rewrite Htab in *. cbn [List.length].
        repeat split; try lia. exact Hids.
Qed.

(** X17.  [resolveAllConflicts] never raises: a resolution that fails is
    counted under [errors] and the loop goes on.  Every conflict that was
    pending is counted exactly once, as resolved, skipped or failed, and
    the conflicts still pending afterwards are exactly the skipped and the
    failed ones. *)
Theorem resolveAllConflicts_accounts_for_every_pending_conflict
    (cfg : ConflictResolutionConfig)
    (strategy_ : option ConflictResolutionStrategy) (now : time) (db : DB) :
  List.NoDup (map conflict_id (conflicts db)) ->
  exists db' res,
    resolveAllConflicts cfg strategy_ now db = (db', inr res)
    /\ all_resolved res + all_skipped res + all_errors res = pending_count db
    /\ pending_count db' = all_skipped res + all_errors res
    /\ map conflict_id (conflicts db') = map conflict_id (conflicts db).
Proof.
  intros Hnd. unfold resolveAllConflicts, bind, getPendingConflicts.
  destruct (resolve_loop_total cfg strategy_ now
              (Retriever.sort_by
                 (fun a b => Z.leb (detected_at b) (detected_at a))
                 (List.filter is_pending (conflicts db)))
              (mkResolveAll 0 0 0) db Hnd)
    as (db' & res & Hrun & Hsum & Hpend & Hids).
  exists db', res. split; [exact Hrun |].
  rewrite RetrieverFacts.sort_by_length in Hsum. cbn [all_resolved all_skipped all_errors] in *.
  unfold pending_count in *. repeat split; try lia. exact Hids.
Qed.


(** *** Resolution on a store with one pending conflict *)

Lemma rival_db_wf : wf Scenario.rival_db.
Proof.
  apply ingested_wf. unfold Scenario.rival_db. apply ingested_step.
  change Scenario.confident_db
    with (fst (processNewClause (Scenario.drives "a Volvo" (Some 0.9%Q)) 0
                 init)).
  apply ingested_step, ingested_init.
Qed.

Lemma flagged_db_wf : wf Scenario.flagged_db.
Proof.
  apply ingested_wf. unfold Scenario.flagged_db.
  apply ingested_step, ingested_step, ingested_init.
Qed.

Lemma rival_db_content :
  List.find (fun c => Nat.eqb (conflict_id c) 2) (conflicts Scenario.rival_db)
  = Some Scenario.rival_conflict
  /\ List.find (fun r => Nat.eqb (id r) (clause_a_id Scenario.rival_conflict))
       (clauses Scenario.rival_db) = Some Scenario.volvo_clause
  /\ List.find (fun r => Nat.eqb (id r) (clause_b_id Scenario.rival_conflict))
       (clauses Scenario.rival_db) = Some Scenario.saab_clause.
Proof. repeat split; vm_compute; reflexivity. Qed.

Lemma flagged_db_content :
  List.find (fun c => Nat.eqb (conflict_id c) 2) (conflicts Scenario.flagged_db)
  = Some Scenario.rival_conflict
  /\ List.find (fun r => Nat.eqb (id r) (clause_a_id Scenario.rival_conflict))
       (clauses Scenario.flagged_db) = Some Scenario.flagged_clause
  /\ List.find (fun r => Nat.eqb (id r) (clause_b_id Scenario.rival_conflict))
       (clauses Scenario.flagged_db) = Some Scenario.saab_clause.
Proof. repeat split; vm_compute; reflexivity. Qed.

Lemma manual_strategy_leaves_the_conflict_pending_witness :
  wf Scenario.rival_db
  /\ List.find (fun c => Nat.eqb (conflict_id c) 2)
       (conflicts Scenario.rival_db) = Some Scenario.rival_conflict
  /\ status Scenario.rival_conflict = pending
  /\ List.find (fun r => Nat.eqb (id r) (clause_a_id Scenario.rival_conflict))
       (clauses Scenario.rival_db) = Some Scenario.volvo_clause
  /\ List.find (fun r => Nat.eqb (id r) (clause_b_id Scenario.rival_conflict))
       (clauses Scenario.rival_db) = Some Scenario.saab_clause
  /\ clause_a_id Scenario.rival_conflict <> clause_b_id Scenario.rival_conflict
  /\ orElse (Some manual) (strategy DEFAULT_CONFLICT_CONFIG) = manual
  /\ exists db',
       resolveConflict DEFAULT_CONFLICT_CONFIG 2 (Some manual) 20
         Scenario.rival_db
       = (db', inr (mkResolveResult false "requires_manual_resolution" None))
       /\ conflicts db' = conflicts Scenario.rival_db.
Proof.
  assert (Hwf := rival_db_wf).
  destruct rival_db_content as (Fc & Fa & Fb).
  assert (Hp : status Scenario.rival_conflict = pending) by reflexivity.
  assert (Hab : clause_a_id Scenario.rival_conflict
                <> clause_b_id Scenario.rival_conflict) by discriminate.
  assert (Hman : orElse (Some manual) (strategy DEFAULT_CONFLICT_CONFIG)
                 = manual) by reflexivity.
  repeat (split; [assumption |]).
  destruct (manual_strategy_leaves_the_conflict_pending
              DEFAULT_CONFLICT_CONFIG 2 (Some manual) 20 Scenario.rival_db
              Scenario.rival_conflict Scenario.volvo_clause
              Scenario.saab_clause Hwf Fc Hp Fa Fb Hab Hman)
    as (db' & Hrun & Hc & _).
  exists db'. auto.
Defined.

Lemma automatic_resolution_retires_the_loser_witness :
  wf Scenario.rival_db
  /\ List.find (fun c => Nat.eqb (conflict_id c) 2)
       (conflicts Scenario.rival_db) = Some Scenario.rival_conflict
  /\ status Scenario.rival_conflict = pending
  /\ List.find (fun r => Nat.eqb (id r) (clause_a_id Scenario.rival_conflict))
       (clauses Scenario.rival_db) = Some Scenario.volvo_clause
  /\ List.find (fun r => Nat.eqb (id r) (clause_b_id Scenario.rival_conflict))
       (clauses Scenario.rival_db) = Some Scenario.saab_clause
  /\ clause_a_id Scenario.rival_conflict <> clause_b_id Scenario.rival_conflict
  /\ orElse (Some highest_confidence) (strategy DEFAULT_CONFLICT_CONFIG)
     <> manual
  /\ (preserveHistory DEFAULT_CONFLICT_CONFIG = true ->
      exists m,
        push_supersedes (metadata Scenario.volvo_clause)
          (id Scenario.saab_clause) = inr m)
  /\ exists db' res r_loser,
       resolveConflict DEFAULT_CONFLICT_CONFIG 2 (Some highest_confidence) 20
         Scenario.rival_db = (db', inr res)
       /\ keptClauseId res = Some 0
       /\ List.find (fun r => Nat.eqb (id r) 1) (clauses db') = Some r_loser
       /\ valid_to r_loser = Some 20%Z.
Proof.
  assert (Hwf := rival_db_wf).
  destruct rival_db_content as (Fc & Fa & Fb).
  assert (Hp : status Scenario.rival_conflict = pending) by reflexivity.
  assert (Hab : clause_a_id Scenario.rival_conflict
                <> clause_b_id Scenario.rival_conflict) by discriminate.
  assert (Hauto : orElse (Some highest_confidence)
                    (strategy DEFAULT_CONFLICT_CONFIG) <> manual)
    by discriminate.
  assert (Hpush : preserveHistory DEFAULT_CONFLICT_CONFIG = true ->
                  exists m,
                    push_supersedes (metadata Scenario.volvo_clause)
                      (id Scenario.saab_clause) = inr m).
  { intros _. eexists. vm_compute. reflexivity. }
  repeat (split; [assumption |]).
  destruct (automatic_resolution_retires_the_loser
              DEFAULT_CONFLICT_CONFIG 2 (Some highest_confidence) 20
              Scenario.rival_db Scenario.rival_conflict Scenario.volvo_clause
              Scenario.saab_clause Hwf Fc Hp Fa Fb Hab Hauto Hpush)
    as (db' & res & r_kept & r_loser & c' & Hrun & _ & Hk & Hfl & Hv & _).
  exists db', res, r_loser. auto.
Defined.

Lemma failed_history_link_leaves_the_conflict_pending_witness :
  wf Scenario.flagged_db
  /\ List.find (fun c => Nat.eqb (conflict_id c) 2)
       (conflicts Scenario.flagged_db) = Some Scenario.rival_conflict
  /\ status Scenario.rival_conflict = pending
  /\ List.find (fun r => Nat.eqb (id r) (clause_a_id Scenario.rival_conflict))
       (clauses Scenario.flagged_db) = Some Scenario.flagged_clause
  /\ List.find (fun r => Nat.eqb (id r) (clause_b_id Scenario.rival_conflict))
       (clauses Scenario.flagged_db) = Some Scenario.saab_clause
  /\ clause_a_id Scenario.rival_conflict <> clause_b_id Scenario.rival_conflict
  /\ orElse (Some highest_confidence) (strategy DEFAULT_CONFLICT_CONFIG)
     <> manual
  /\ preserveHistory DEFAULT_CONFLICT_CONFIG = true
  /\ push_supersedes (metadata Scenario.flagged_clause)
       (id Scenario.saab_clause)
     = inl (JsError "metadata.supersedes.push is not a function")
  /\ exists db' r_loser,
       resolveConflict DEFAULT_CONFLICT_CONFIG 2 (Some highest_confidence) 20
         Scenario.flagged_db
       = (db', inl (JsError "metadata.supersedes.push is not a function"))
       /\ conflicts db' = conflicts Scenario.flagged_db
       /\ List.find (fun r => Nat.eqb (id r) 1) (clauses db') = Some r_loser
       /\ valid_to r_loser = Some 20%Z.
Proof.
  assert (Hwf := flagged_db_wf).
  destruct flagged_db_content as (Fc & Fa & Fb).
  assert (Hp : status Scenario.rival_conflict = pending) by reflexivity.
  assert (Hab : clause_a_id Scenario.rival_conflict
                <> clause_b_id Scenario.rival_conflict) by discriminate.
  assert (Hauto : orElse (Some highest_confidence)
                    (strategy DEFAULT_CONFLICT_CONFIG) <> manual)
    by discriminate.
  assert (Hph : preserveHistory DEFAULT_CONFLICT_CONFIG = true) by reflexivity.
  assert (Hpush : push_supersedes (metadata Scenario.flagged_clause)
                    (id Scenario.saab_clause)
                  = inl (JsError "metadata.supersedes.push is not a function"))
    by (vm_compute; reflexivity).
  repeat (split; [assumption |]).
  destruct (failed_history_link_leaves_the_conflict_pending
              DEFAULT_CONFLICT_CONFIG 2 (Some highest_confidence) 20
              Scenario.flagged_db Scenario.rival_conflict
              Scenario.flagged_clause Scenario.saab_clause
              (JsError "metadata.supersedes.push is not a function")
              Hwf Fc Hp Fa Fb Hab Hauto Hph Hpush)
    as (db' & r_loser & Hrun & Hc & Hfl & Hv & _).
  exists db', r_loser. auto.
Defined.

Lemma resolveAllConflicts_accounts_for_every_pending_conflict_witness :
  List.NoDup (map conflict_id (conflicts Scenario.rival_db))
  /\ pending_count Scenario.rival_db = 1
  /\ exists db' res,
       resolveAllConflicts DEFAULT_CONFLICT_CONFIG None 20 Scenario.rival_db
       = (db', inr res)
       /\ all_resolved res + all_skipped res + all_errors res = 1
       /\ pending_count db' = all_skipped res + all_errors res.
Proof.
  assert (H1 : List.NoDup (map conflict_id (conflicts Scenario.rival_db))).
  { vm_compute. constructor; [intros [] | constructor]. }
  assert (H2 : pending_count Scenario.rival_db = 1) by (vm_compute; reflexivity).
  split; [exact H1 |]. split; [exact H2 |].
  destruct (resolveAllConflicts_accounts_for_every_pending_conflict
              DEFAULT_CONFLICT_CONFIG None 20 Scenario.rival_db H1)
    as (db' & res & Hrun & Hsum & Hpend & _).
  exists db', res. rewrite H2 in Hsum. auto.
Defined.

End ConflictFacts.

(** ** Sorting, search and retrieval results *)

Module SearchFacts.
Import Database DatabaseFacts ClauseStore ClauseSearch.

(** *** The insertion sort *)

Section Sorting.

Context {X : Type} (before : X -> X -> bool).
Hypothesis before_total : forall a b, before a b = false -> before b a = true.
Hypothesis before_trans :
  forall a b c, before a b = true -> before b c = true -> before a c = true.

Lemma insert_sorted_In_iff x l y :
  In y (Retriever.insert_sorted before x l) <-> y = x \/ In y l.
Proof.
  induction l as [| z l IH]; simpl; [intuition |].
  destruct (before x z); simpl; [intuition |].
  rewrite IH. intuition.
Qed.

Lemma insert_sorted_sorted x l :
  StronglySorted (fun a b => before a b = true) l ->
  StronglySorted (fun a b => before a b = true)
    (Retriever.insert_sorted before x l).
Proof.
  induction 1 as [| z l Hl IH Hz]; simpl.
  - constructor; constructor.
  - destruct (before x z) eqn:E.
    + constructor; [constructor; assumption |].
      constructor; [exact E |].
      rewrite List.Forall_forall in Hz |- *. intros y Hy.
      apply before_trans with (b := z); auto.
    + constructor; [exact IH |].
      apply List.Forall_forall. intros y Hy.
      apply insert_sorted_In_iff in Hy. destruct Hy as [-> | Hy].
      * apply before_total. exact E.
      * rewrite List.Forall_forall in Hz. auto.
Qed.

Lemma sort_by_sorted l :
  StronglySorted (fun a b => before a b = true) (Retriever.sort_by before l).
Proof.
  induction l as [| x l IH]; simpl; [constructor |].
  apply insert_sorted_sorted. exact IH.
Qed.

End Sorting.

Lemma sort_by_In_iff {X} (before : X -> X -> bool) l y :
  In y (Retriever.sort_by before l) <-> In y l.
Proof.
  induction l as [| x l IH]; simpl; [tauto |].
  rewrite insert_sorted_In_iff, IH. intuition.
Qed.

Lemma sorted_firstn {X} (R : X -> X -> Prop) n l :
  StronglySorted R l -> StronglySorted R (firstn n l).
Proof.
  intros H. revert n. induction H as [| x l Hl IH Hx]; intros [| n]; simpl;
    try constructor.
  - apply IH.
  - rewrite List.Forall_forall in Hx |- *. intros y Hy.
    apply Hx. eapply firstn_In. exact Hy.
Qed.

Lemma skipn_In {X} n (l : list X) x : In x (skipn n l) -> In x l.
Proof.
  revert l. induction n as [| n IH]; intros [| y l]; simpl; auto.
Qed.

Lemma sorted_skipn {X} (R : X -> X -> Prop) n l :
  StronglySorted R l -> StronglySorted R (skipn n l).
Proof.
  intros H. revert n. induction H as [| x l Hl IH Hx]; intros [| n]; simpl;
    try constructor; auto.
Qed.

Lemma sorted_weaken {X} (R S : X -> X -> Prop) l :
  (forall a b, R a b -> S a b) ->
  StronglySorted R l -> StronglySorted S l.
Proof.
  intros HRS H. induction H as [| x l Hl IH Hx]; constructor; auto.
  rewrite List.Forall_forall in Hx |- *. auto.
Qed.

Lemma field_leb_total o a b : field_leb o a b = false -> field_leb o b a = true.
Proof.
  destruct o; cbn [field_leb]; intros H.
  - apply JsFacts.leb_false in H. apply JsFacts.leb_spec. lra.
  - apply Z.leb_gt in H. apply Z.leb_le. lia.
  - apply Z.leb_gt in H. apply Z.leb_le. lia.
Qed.

Lemma field_leb_trans o a b c :
  field_leb o a b = true -> field_leb o b c = true -> field_leb o a c = true.
Proof.
  destruct o; cbn [field_leb]; intros H1 H2.
  - apply JsFacts.leb_spec in H1, H2. apply JsFacts.leb_spec. lra.
  - apply Z.leb_le in H1, H2. apply Z.leb_le. lia.
  - apply Z.leb_le in H1, H2. apply Z.leb_le. lia.
Qed.

Lemma ordered_In {X} dir (key_leb : X -> X -> bool) l y :
  In y (ordered dir key_leb l) <-> In y l.
Proof. destruct dir; apply sort_by_In_iff. Qed.

Lemma search_filter_spec options r :
  search_filter options r = true ->
  (orElse (s_includeExpired options) false = false -> valid_to r = None)
  /\ ((0 < orElse (s_minConfidence options) 0)%Q ->
      (orElse (s_minConfidence options) 0 <= confidence r)%Q)
  /\ Retriever.type_filter (s_types options) r = true.
Proof.
  unfold search_filter. cbv zeta. rewrite !andb_true_iff.
  intros ((H1 & H2) & H3). split; [| split; [| exact H3]].
  - intros E. rewrite E in H1. cbn [orb] in H1. unfold is_active in H1.
    destruct (valid_to r); [discriminate | reflexivity].
  - intros Hpos. apply JsFacts.ltb_spec in Hpos. rewrite Hpos in H2.
    apply JsFacts.leb_spec. exact H2.
Qed.

(** The rows [search] selects, before LIMIT and OFFSET. *)
Lemma search_rows_In fts5 query options db r :
  In r (if negb (Retriever.blank query) then
          map fst
            (ordered (orElse (s_orderDir options) desc)
               (fun a b => Js.leb (snd a) (snd b))
               (flat_map
                  (fun r =>
                     match fts5 (clauses db) (search_fts_query query) r with
                     | Some s =>
                         if search_filter options r then [(r, s)] else []
                     | None => []
                     end)
                  (clauses db)))
        else
          ordered (orElse (s_orderDir options) desc)
            (field_leb (orElse (s_orderBy options) by_confidence))
            (List.filter (search_filter options) (clauses db))) ->
  In r (clauses db) /\ search_filter options r = true.
Proof.
  destruct (negb (Retriever.blank query)).
  - intros H. apply in_map_iff in H. destruct H as ([r' s] & <- & H).
    apply ordered_In, in_flat_map in H. destruct H as (r0 & Hr0 & H).
    destruct (fts5 _ _ r0); [| contradiction].
    destruct (search_filter options r0) eqn:E; [| contradiction].
    destruct H as [H | []]. injection H as <- <-. auto.
  - intros H. apply ordered_In, filter_In in H. exact H.
Qed.


(** X19.  Without a query text, [search] lists the filtered table in the
    requested order when that order is by confidence (the default) or by
    [recorded_at]: each returned clause comes before every clause that
    follows it under the chosen column and direction (descending by
    default), and with the default offset and a limit that covers the
    table nothing that passes the filters is left out.  (The order by
    [last_accessed] is left out: that column holds text in two formats,
    the ISO stamp of [create] and the [datetime('now')] of the access
    bump, and is compared as text.) *)
Theorem search_without_query_is_ordered
    (fts5 : TextIndex) (query : string) (options : SearchOptions) (db : DB) :
  Retriever.blank query = true ->
  orElse (s_orderBy options) by_confidence <> by_last_accessed ->
  exists res,
    search fts5 query options db = (db, inr res)
    /\ StronglySorted
         (fun a b =>
            match orElse (s_orderDir options) desc with
            | asc =>
                field_leb (orElse (s_orderBy options) by_confidence) a b
            | desc =>
                field_leb (orElse (s_orderBy options) by_confidence) b a
            end = true)
         res
    /\ (orElse (s_offset options) 0 = 0 ->
        List.length (clauses db) <= orElse (s_limit options) 20 ->
        forall r,
          In r (clauses db) -> search_filter options r = true -> In r res).
Proof.
  intros Hblank _. unfold search. cbv zeta. rewrite Hblank. cbn [negb].
  eexists. split; [reflexivity |].
  unfold rowToClause. rewrite map_id. split.
  - apply sorted_firstn, sorted_skipn. unfold ordered.
    destruct (orElse (s_orderDir options) desc).
    + apply sort_by_sorted;
        [apply field_leb_total | apply field_leb_trans].
    + apply (sort_by_sorted
               (fun a b =>
                  field_leb (orElse (s_orderBy options) by_confidence) b a)).
      * intros a b. apply field_leb_total.
      * intros a b c H1 H2. eapply field_leb_trans; eauto.
  - intros Hoff Hlim r Hr Hf. rewrite Hoff, drop_0.
    rewrite firstn_all2.
    + apply ordered_In, filter_In. auto.
    + pose proof (filter_length_le (search_filter options) (clauses db)).
      unfold ordered. destruct (orElse (s_orderDir options) desc);
        rewrite RetrieverFacts.sort_by_length; lia.
Qed.


(** *** The result of [retrieve] *)

Section RetrieveResult.
Import Retriever RetrieverFacts.

Lemma keywordSearch_rows fts5 query types minConfidence includeExpired limit
    db db1 rows :
  keywordSearch fts5 query types minConfidence includeExpired limit db
  = (db1, inr rows) ->
  db1 = db
  /\ List.length rows <= limit
  /\ forall row,
       In row rows ->
       In (fst row) (clauses db)
       /\ (minConfidence <= confidence (fst row))%Q
       /\ (includeExpired = false -> valid_to (fst row) = None)
       /\ type_filter types (fst row) = true.
Proof.
  assert (Hkeep : forall r,
            Js.leb minConfidence (confidence r)
            && (includeExpired || is_active r) && type_filter types r = true ->
            (minConfidence <= confidence r)%Q
            /\ (includeExpired = false -> valid_to r = None)
            /\ type_filter types r = true).
  { intros r. rewrite !andb_true_iff. intros ((H1 & H2) & H3).
    split; [apply JsFacts.leb_spec; exact H1 |]. split; [| exact H3].
    intros ->. cbn [orb] in H2. unfold is_active in H2.
    destruct (valid_to r); [discriminate | reflexivity]. }
  unfold keywordSearch. destruct (blank query).
  - intros H. injection H as <- <-. split; [reflexivity |]. split.
    + rewrite length_map. apply firstn_le_length.
    + intros row Hrow. apply in_map_iff in Hrow.
      destruct Hrow as (r & <- & Hr). cbn [fst].
      apply firstn_In, sort_by_In, filter_In in Hr.
      destruct Hr as (Hin & Hk). split; [exact Hin |]. apply Hkeep, Hk.
  - destruct (fts_rejects fts5 (prepareFtsQuery query)); [discriminate |].
    intros H. injection H as <- <-.
    split; [reflexivity |]. split; [apply firstn_le_length |].
    intros row Hrow. apply firstn_In, sort_by_In, in_flat_map in Hrow.
    destruct Hrow as (r & Hr & Hrow).
    destruct (fts5 (clauses db) (prepareFtsQuery query) r); [| contradiction].
    match type of Hrow with
    | In _ (if ?b then _ else _) => destruct b eqn:Hk
    end; [| contradiction].
    destruct Hrow as [<- | []]. cbn [fst]. split; [exact Hr |].
    apply Hkeep, Hk.
Qed.

Lemma add_keyword_all (P : Clause -> Prop) rows :
  (forall row, In row rows -> P (fst row)) ->
  forall m,
    (forall kv, In kv m -> P (entry_clause (snd kv))) ->
    forall kv, In kv (fold_left add_keyword rows m) ->
      P (entry_clause (snd kv)).
Proof.
  induction rows as [| row rows IH]; intros Hrows m Hm; simpl; [exact Hm |].
  apply IH.
  - intros r Hr. apply Hrows. right. exact Hr.
  - intros kv Hkv. unfold add_keyword in Hkv. apply map_set_In in Hkv.
    destruct Hkv as [-> | Hkv]; [| auto].
    cbn [snd entry_clause]. apply Hrows. left. reflexivity.
Qed.

Lemma score_leb_total (a b : ScoredClause) :
  Js.leb (score b) (score a) = false -> Js.leb (score a) (score b) = true.
Proof.
  intros H. apply JsFacts.leb_false in H. apply JsFacts.leb_spec. lra.
Qed.

Lemma score_leb_trans (a b c : ScoredClause) :
  Js.leb (score b) (score a) = true -> Js.leb (score c) (score b) = true ->
  Js.leb (score c) (score a) = true.
Proof.
  intros H1 H2. apply JsFacts.leb_spec in H1, H2. apply JsFacts.leb_spec. lra.
Qed.

Lemma final_score_le_1 now query weights e :
  (final_score now query weights e <= 1)%Q.
Proof. unfold final_score. cbv zeta. apply JsFacts.Math_min_le_l. Qed.

Lemma logAccess_entry clauseId context_ now db db' :
  logAccess clauseId retrieval context_ now db = (db', inr tt) ->
  access_log db'
  = (access_log db
     ++ [mkAccessLog (uuid_counter db) clauseId retrieval
           (Js.slice0 500 context_) now])%list.
Proof.
  unfold logAccess. unfold bind at 1. unfold uuidv7 at 1.
  unfold bind at 1.
  destruct (update_clauses_cases (fun r => Nat.eqb (id r) clauseId) (touch now)
              (mkDB (clauses db) (conflicts db) (decay_log db) (access_log db)
                 (system_metadata db) (S (uuid_counter db))))
    as [[e E] | [E _]]; rewrite E; [discriminate |].
  unfold insert_access_log, fk_error.
  destruct (has_clause _ _); [| discriminate].
  intros H. injection H as <-. reflexivity.
Qed.

Lemma for_each_logAccess_entries (top : list ScoredClause) query now :
  forall db db',
    for_each top
      (fun clause => logAccess (id (scored clause)) retrieval query now) db
    = (db', inr tt) ->
    exists entries,
      access_log db' = (access_log db ++ entries)%list
      /\ map access_clause_id entries = map (fun sc => id (scored sc)) top
      /\ Forall (fun e => access_type e = retrieval
                          /\ access_context e = Js.slice0 500 query
                          /\ accessed_at e = now) entries.
Proof.
  induction top as [| sc top IH]; intros db db' H; simpl in H.
  - unfold ret in H. injection H as <-. exists []. rewrite app_nil_r.
    repeat split. constructor.
  - apply bind_inr in H. destruct H as (db1 & [] & H1 & H).
    apply logAccess_entry in H1.
    destruct (IH db1 db' H) as (entries & Hlog & Hids & Hall).
    eexists (_ :: entries). split.
    + rewrite Hlog, H1, <- app_assoc. reflexivity.
    + split; [cbn [map access_clause_id]; rewrite Hids; reflexivity |].
      constructor; [repeat split | exact Hall].
Qed.

(** X20.  Whatever [retrieve] returns is a ranking: at most [limit]
    clauses, in order of non-increasing score, every score at most 1.  Each
    returned clause is logged exactly once: the access log grows by one
    [retrieval] entry per result, in result order, carrying the query cut
    to 500 characters. *)
Theorem retrieve_returns_a_ranking_and_logs_it
    (fts5 : TextIndex) (self : Retriever) (query : string)
    (options : RetrievalOptions) (now : time) (db db' : DB)
    (result : RetrievalResult) :
  retrieve fts5 self query options now db = (db', inr result) ->
  List.length (result_clauses result) <= limit_of self options
  /\ StronglySorted (fun a b => (score b <= score a)%Q) (result_clauses result)
  /\ (forall sc, In sc (result_clauses result) -> (score sc <= 1)%Q)
  /\ exists entries,
       access_log db' = (access_log db ++ entries)%list
       /\ map access_clause_id entries
          = map (fun sc => id (scored sc)) (result_clauses result)
       /\ Forall (fun e => access_type e = retrieval
                           /\ access_context e = Js.slice0 500 query
                           /\ accessed_at e = now) entries.
Proof.
  unfold retrieve. cbv zeta. intros H.
  apply bind_inr in H. destruct H as (db1 & kw & Hkw & H).
  destruct (keywordSearch_rows _ _ _ _ _ _ _ _ _ Hkw) as (-> & _).
  apply bind_inr in H. destruct H as (db2 & sem & Hsem & H).
  assert (Hdb2 : access_log db2 = access_log db).
  { destruct (_ && _) in Hsem.
    - destruct (embeddingManager self) as [m |]; [| discriminate].
      unfold findSimilar in Hsem. destruct (Nat.eqb _ _).
      + injection Hsem as <- _. reflexivity.
      + injection Hsem as <- _. reflexivity.
    - injection Hsem as <- _. reflexivity. }
  apply bind_inr in H. destruct H as (db3 & scoredClauses & Hmerge & H).
  unfold mergeAndScore in Hmerge. injection Hmerge as <- <-.
  apply bind_inr in H. destruct H as (db4 & [] & Hlog & H).
  unfold ret in H. injection H as <- <-. cbn [result_clauses].
  split; [apply firstn_le_length |].
  split.
  { apply sorted_firstn.
    apply sorted_weaken
      with (R := fun a b : ScoredClause => Js.leb (score b) (score a) = true).
    - intros a b Hab. apply JsFacts.leb_spec. exact Hab.
    - apply (sort_by_sorted
               (fun a b : ScoredClause => Js.leb (score b) (score a))).
      + intros a b. apply score_leb_total.
      + intros a b c. apply score_leb_trans. }
  split.
  { intros sc Hsc. apply firstn_In, sort_by_In, in_map_iff in Hsc.
    destruct Hsc as (kv & <- & _). cbn [score]. apply final_score_le_1. }
  destruct (for_each_logAccess_entries _ _ _ _ _ Hlog)
    as (entries & Hentries & Hids & Hall).
  exists entries. rewrite Hentries, Hdb2. auto.
Qed.

(** X21.  When the semantic search is not used (no embedding provider, a
    zero semantic weight, or a blank query), every clause [retrieve]
    returns is a row of the store that passes the keyword filters: its
    confidence is at least [minConfidence] (0.5 by default), it is active
    unless expired clauses were asked for, and it is of a listed type when
    types are listed. *)
Theorem keyword_only_retrieval_honours_the_filters
    (fts5 : TextIndex) (self : Retriever) (query : string)
    (options : RetrievalOptions) (now : time) (db db' : DB)
    (result : RetrievalResult) :
  canUseSemanticSearch self options && negb (blank query) = false ->
  retrieve fts5 self query options now db = (db', inr result) ->
  forall sc,
    In sc (result_clauses result) ->
    In (scored sc) (clauses db)
    /\ (orElse (opt_minConfidence options) 0.5 <= confidence (scored sc))%Q
    /\ (orElse (opt_includeExpired options) false = false ->
        valid_to (scored sc) = None)
    /\ type_filter (opt_types options) (scored sc) = true.
Proof.
  intros Hoff. unfold retrieve. cbv zeta. rewrite Hoff. intros H.
  apply bind_inr in H. destruct H as (db1 & kw & Hkw & H).
  destruct (keywordSearch_rows _ _ _ _ _ _ _ _ _ Hkw) as (-> & _ & Hrows).
  apply bind_inr in H. destruct H as (db2 & sem & Hsem & H).
  unfold ret in Hsem. injection Hsem as <- <-.
  apply bind_inr in H. destruct H as (db3 & scoredClauses & Hmerge & H).
  unfold mergeAndScore in Hmerge. injection Hmerge as <- <-.
  apply bind_inr in H. destruct H as (db4 & [] & _ & H).
  unfold ret in H. injection H as _ <-. cbn [result_clauses].
  intros sc Hsc. apply firstn_In, sort_by_In, in_map_iff in Hsc.
  destruct Hsc as (kv & <- & Hkv). cbn [scored fold_left] in *.
  revert kv Hkv.
  apply (add_keyword_all
           (fun c =>
              In c (clauses db)
              /\ (orElse (opt_minConfidence options) 0.5 <= confidence c)%Q
              /\ (orElse (opt_includeExpired options) false = false ->
                  valid_to c = None)
              /\ type_filter (opt_types options) c = true) kw).
  - intros row Hrow. unfold rowToClause. apply Hrows. exact Hrow.
  - intros kv [].
Qed.

End RetrieveResult.


(** *** Search and retrieval on the tea store *)

Lemma search_without_query_is_ordered_witness :
  Retriever.blank "" = true
  /\ orElse (s_orderBy no_search_options) by_confidence <> by_last_accessed
  /\ exists res,
       search Scenario.plain_index "" no_search_options Scenario.tea_db
       = (Scenario.tea_db, inr res)
       /\ StronglySorted
            (fun a b => field_leb by_confidence b a = true) res.
Proof.
  assert (H : Retriever.blank "" = true) by reflexivity.
  assert (Ho : orElse (s_orderBy no_search_options) by_confidence
               <> by_last_accessed) by discriminate.
  split; [exact H |]. split; [exact Ho |].
  destruct (search_without_query_is_ordered Scenario.plain_index ""
              no_search_options Scenario.tea_db H Ho)
    as (res & Hrun & Hsorted & _).
  exists res. split; [exact Hrun | exact Hsorted].
Defined.

Lemma tea_retrieval_returns :
  exists db' result,
    Retriever.retrieve Scenario.plain_index Scenario.offline "tea"
      Retriever.no_options 5 Scenario.tea_db = (db', inr result).
Proof.
  destruct (RetrieverFacts.retrieve_returns Scenario.plain_index
              Scenario.offline "tea" Retriever.no_options 5 Scenario.tea_db []
              (wf_checks _ StoreFacts.tea_db_wf) (or_intror eq_refl) eq_refl)
    as (db' & result & kw & _ & Hrun & _).
  eauto.
Qed.

Lemma retrieve_returns_a_ranking_and_logs_it_witness :
  exists db' result,
    Retriever.retrieve Scenario.plain_index Scenario.offline "tea"
      Retriever.no_options 5 Scenario.tea_db = (db', inr result)
    /\ List.length (Retriever.result_clauses result)
       <= Retriever.limit_of Scenario.offline Retriever.no_options
    /\ StronglySorted
         (fun a b => (Retriever.score b <= Retriever.score a)%Q)
         (Retriever.result_clauses result).
Proof.
  destruct tea_retrieval_returns as (db' & result & Hrun).
  exists db', result. split; [exact Hrun |].
  destruct (retrieve_returns_a_ranking_and_logs_it Scenario.plain_index
              Scenario.offline "tea" Retriever.no_options 5 Scenario.tea_db
              db' result Hrun)
    as (Hlen & Hsorted & _).
  split; [exact Hlen | exact Hsorted].
Defined.

Lemma keyword_only_retrieval_honours_the_filters_witness :
  Retriever.canUseSemanticSearch Scenario.offline Retriever.no_options
  && negb (Retriever.blank "tea") = false
  /\ exists db' result,
       Retriever.retrieve Scenario.plain_index Scenario.offline "tea"
         Retriever.no_options 5 Scenario.tea_db = (db', inr result)
       /\ forall sc,
            In sc (Retriever.result_clauses result) ->
            In (Retriever.scored sc) (clauses Scenario.tea_db)
            /\ (0.5 <= confidence (Retriever.scored sc))%Q.
Proof.
  assert (H : Retriever.canUseSemanticSearch Scenario.offline
                Retriever.no_options
              && negb (Retriever.blank "tea") = false) by reflexivity.
  split; [exact H |].
  destruct tea_retrieval_returns as (db' & result & Hrun).
  exists db', result. split; [exact Hrun |].
  intros sc Hsc.
  destruct (keyword_only_retrieval_honours_the_filters Scenario.plain_index
              Scenario.offline "tea" Retriever.no_options 5 Scenario.tea_db
              db' result H Hrun sc Hsc)
    as (Hin & Hconf & _).
  split; [exact Hin | exact Hconf].
Defined.

End SearchFacts.

(** ** The metadata counters *)

Module CounterFacts.
Import Database DatabaseFacts.

(** *** [String(n)] and [parseInt] *)

Lemma parse_digits_uint d :
  forall acc,
    parse_digits (DecimalString.NilEmpty.string_of_uint d) (Some acc)
    = Some (uint_value d acc).
Proof.
  induction d; intros acc; cbn [DecimalString.NilEmpty.string_of_uint
                                  parse_digits uint_value];
    [reflexivity | ..]; cbn [digit_of]; rewrite <- IHd; reflexivity.
Qed.

Lemma parse_digits_start d :
  d <> Decimal.Nil ->
  parse_digits (DecimalString.NilEmpty.string_of_uint d) None
  = Some (uint_value d 0).
Proof.
  destruct d; intros H; [contradiction | ..];
    cbn [DecimalString.NilEmpty.string_of_uint parse_digits uint_value];
    cbn [digit_of]; rewrite <- parse_digits_uint; reflexivity.
Qed.

Lemma of_uint_acc_value d :
  forall acc, Z.pos (Pos.of_uint_acc d acc) = uint_value d (Z.pos acc).
Proof.
  induction d; intros acc; cbn [Pos.of_uint_acc uint_value];
    [reflexivity | ..]; rewrite IHd; f_equal; lia.
Qed.

Lemma of_uint_value d : Z.of_N (Pos.of_uint d) = uint_value d 0.
Proof.
  induction d; cbn [Pos.of_uint uint_value]; [reflexivity | exact IHd | ..];
    cbn [Z.of_N]; rewrite of_uint_acc_value; reflexivity.
Qed.

Lemma uint_value_to_uint p : uint_value (Pos.to_uint p) 0 = Z.pos p.
Proof.
  rewrite <- of_uint_value, DecimalPos.Unsigned.of_to. reflexivity.
Qed.

Lemma string_of_uint_head p :
  exists a s,
    DecimalString.NilEmpty.string_of_uint (Pos.to_uint p) = String a s
    /\ Js.is_space a = false /\ a <> "-"%char /\ a <> "+"%char.
Proof.
  pose proof (DecimalPos.Unsigned.to_uint_nonnil p) as Hnil.
  destruct (Pos.to_uint p); [contradiction | ..];
    cbn [DecimalString.NilEmpty.string_of_uint];
    eexists; eexists; (split; [reflexivity |]);
    (split; [reflexivity | split; discriminate]).
Qed.

Lemma parseInt_String (z : Z) : parseInt (String_of_number (Some z)) = Some z.
Proof.
  unfold String_of_number, DecimalString.NilZero.string_of_int.
  destruct z as [| p | p]; cbn [Z.to_int].
  - reflexivity.
  - unfold DecimalString.NilZero.string_of_uint.
    pose proof (DecimalPos.Unsigned.to_uint_nonnil p) as Hnil.
    pose proof (parse_digits_start (Pos.to_uint p) Hnil) as Hparse.
    rewrite uint_value_to_uint in Hparse.
    destruct (string_of_uint_head p) as (a & s & E & Hsp & Hm & Hp).
    destruct (Pos.to_uint p) eqn:Eu; [contradiction | ..];
      rewrite <- Eu in *; rewrite E in *; unfold parseInt;
      cbn [Js.trimStart]; rewrite Hsp;
      (destruct (Ascii.eqb_spec a "-"%char) as [-> | _]; [contradiction |]);
      (destruct (Ascii.eqb_spec a "+"%char) as [-> | _]; [contradiction |]);
      destruct a as [[] [] [] [] [] [] [] []]; try exact Hparse;
      contradiction.
  - unfold DecimalString.NilZero.string_of_uint.
    pose proof (DecimalPos.Unsigned.to_uint_nonnil p) as Hnil.
    pose proof (parse_digits_start (Pos.to_uint p) Hnil) as Hparse.
    rewrite uint_value_to_uint in Hparse.
    destruct (Pos.to_uint p) eqn:Eu; [contradiction | ..];
      rewrite <- Eu in *; unfold parseInt; cbn [Js.trimStart Js.is_space];
      cbn; rewrite Hparse; reflexivity.
Qed.

(** *** The clause counter *)

Lemma counts_frame {A} (m : Db A) :
  (forall db,
     List.length (clauses (fst (m db))) = List.length (clauses db)
     /\ system_metadata (fst (m db)) !! "total_clauses_extracted"
        = system_metadata db !! "total_clauses_extracted") ->
  preserves counts_match m.
Proof.
  intros H db Hc. unfold counts_match in *.
  destruct (H db) as (Hl & Hm). rewrite Hl, Hm. exact Hc.
Qed.

Lemma counts_update_clauses w s : preserves counts_match (update_clauses w s).
Proof.
  apply counts_frame. intros db. unfold update_clauses.
  destruct (forallb _ _); cbn [fst]; [| auto].
  db_simpl. unfold updated. rewrite length_map. auto.
Qed.

Lemma counts_uuidv7 : preserves counts_match uuidv7.
Proof. apply counts_frame. intros db. split; reflexivity. Qed.

Lemma counts_select w : preserves counts_match (select_clauses w).
Proof. apply counts_frame. intros db. split; reflexivity. Qed.

Lemma counts_get_clause i : preserves counts_match (get_clause i).
Proof. apply counts_frame. intros db. split; reflexivity. Qed.

Lemma counts_insert_conflict c : preserves counts_match (insert_conflict c).
Proof.
  apply counts_frame. intros db. unfold insert_conflict, fk_error.
  destruct (_ && _); split; reflexivity.
Qed.

Lemma counts_insert_decay_log e : preserves counts_match (insert_decay_log e).
Proof.
  apply counts_frame. intros db. unfold insert_decay_log, fk_error.
  destruct (has_clause _ _); split; reflexivity.
Qed.

Lemma counts_insert_access_log e :
  preserves counts_match (insert_access_log e).
Proof.
  apply counts_frame. intros db. unfold insert_access_log, fk_error.
  destruct (has_clause _ _); split; reflexivity.
Qed.

Lemma counts_setMetadata k v :
  k <> "total_clauses_extracted" -> preserves counts_match (setMetadata k v).
Proof.
  intros Hk. apply counts_frame. intros db. split; [reflexivity |].
  cbn [fst setMetadata system_metadata]. apply lookup_insert_ne. exact Hk.
Qed.

Lemma counts_bump_other k :
  k <> "total_clauses_extracted" -> preserves counts_match (bump_counter k).
Proof.
  intros Hk. unfold bump_counter. apply preserves_bind.
  - apply counts_frame. intros db. split; reflexivity.
  - intros cur. apply counts_setMetadata. exact Hk.
Qed.

Lemma counts_create input now :
  preserves counts_match (ClauseStore.create input now).
Proof.
  intros db Hc. unfold ClauseStore.create, bind, uuidv7, insert_clause.
  db_simpl.
  destruct (row_check _); cbn [fst]; [| exact Hc].
  unfold counts_match in *. cbn [bump_counter bind getMetadata setMetadata
    fst snd system_metadata clauses set_clauses ret].
  unfold bump_counter, bind, getMetadata, setMetadata, ret.
  db_simpl. rewrite Hc. cbn [option_map].
  rewrite lookup_insert_eq, parseInt_String, length_app.
  cbn [List.length]. f_equal. lia.
Qed.

Create HintDb counts.

#[local] Hint Resolve preserves_ret preserves_throw counts_update_clauses
  counts_uuidv7 counts_select counts_get_clause counts_insert_conflict
  counts_insert_decay_log counts_insert_access_log counts_create : counts.
#[local] Hint Extern 1 (preserves counts_match (setMetadata _ _)) =>
  apply counts_setMetadata; discriminate : counts.
#[local] Hint Extern 1 (preserves counts_match (bump_counter _)) =>
  apply counts_bump_other; discriminate : counts.

Ltac preserve_counts :=
  repeat first
    [ solve [ auto with counts ]
    | apply preserves_bind; [| intros ? ]
    | apply preserves_for_each; intros ?
    | progress cbv zeta
    | match goal with
      | |- preserves _ (match ?x with _ => _ end) => destruct x
      | |- preserves _ (if ?b then _ else _) => destruct b
      end ].

Lemma counts_get i now : preserves counts_match (ClauseStore.get i now).
Proof. unfold ClauseStore.get. preserve_counts. Qed.

Lemma counts_update i u now :
  preserves counts_match (ClauseStore.update i u now).
Proof.
  unfold ClauseStore.update.
  apply preserves_bind; [apply counts_get |]. intros [r |]; [| auto with counts].
  destruct (ClauseStore.no_updates u); [auto with counts |].
  apply preserves_bind; [auto with counts |]. intros _. apply counts_get.
Qed.

Lemma counts_store_reinforce i a now :
  preserves counts_match (ClauseStore.reinforce i a now).
Proof.
  unfold ClauseStore.reinforce.
  apply preserves_bind; [apply counts_get |]. intros [r |]; [| auto with counts].
  unfold ClauseStore.logDecay, ClauseStore.logAccess. preserve_counts.
Qed.

Lemma counts_processNewClause input now :
  preserves counts_match (ClauseStore.processNewClause input now).
Proof.
  unfold ClauseStore.processNewClause.
  apply preserves_bind; [auto with counts |]. intros [| old rest].
  - preserve_counts.
  - cbv zeta. destruct (ClauseStore.analyzeRelation _ input).
    + apply preserves_bind; [apply counts_store_reinforce |].
      intros _. auto with counts.
    + unfold ClauseStore.invalidate. preserve_counts.
    + apply preserves_bind; [apply counts_create |]. intros k.
      unfold ClauseStore.createConflict. preserve_counts.
    + preserve_counts.
Qed.

Lemma counts_decay_run config dryRun now :
  preserves counts_match (DecayRunner.run config dryRun now).
Proof.
  unfold DecayRunner.run. destruct (_ && _); [auto with counts |].
  apply preserves_bind; [auto with counts |]. intros rows.
  apply preserves_bind.
  - generalize (DecayRunner.mkReport 0 0 0 0 now).
    induction rows as [| r rows IH]; intros report; cbn [DecayRunner.run_loop];
      [auto with counts |].
    cbv zeta.
    destruct (Js.ltb _ _).
    + apply preserves_bind; [| intros _; apply IH].
      unfold DecayRunner.unless_dry, DecayRunner.archiveClause,
        DecayRunner.logDecay.
      preserve_counts.
    + destruct (Js.ltb _ _); [| apply IH].
      apply preserves_bind; [| intros _; apply IH].
      unfold DecayRunner.unless_dry, DecayRunner.applyDecay,
        DecayRunner.logDecay.
      preserve_counts.
  - intros report. unfold DecayRunner.unless_dry. preserve_counts.
Qed.

Lemma counts_exec w now : preserves counts_match (fun db => (Engine.exec w now db, inr tt)).
Proof.
  intros db Hc. cbn [fst].
  destruct w; cbn [Engine.exec].
  - apply counts_create. exact Hc.
  - apply counts_get. exact Hc.
  - apply counts_update. exact Hc.
  - revert db Hc. change (preserves counts_match (ClauseStore.invalidate i reason_ now)).
    unfold ClauseStore.invalidate. preserve_counts.
  - apply counts_store_reinforce. exact Hc.
  - apply counts_processNewClause. exact Hc.
  - apply counts_decay_run. exact Hc.
  - revert db Hc. change (preserves counts_match (DecayRunner.reinforce i amount now)).
    unfold DecayRunner.reinforce, DecayRunner.logDecay. preserve_counts.
  - revert db Hc.
    change (preserves counts_match
              (DecayRunner.adjustConfidence config i newConfidence reason_ now)).
    unfold DecayRunner.adjustConfidence, DecayRunner.archiveClause,
      DecayRunner.logDecay. preserve_counts.
  - revert db Hc.
    change (preserves counts_match
              (Retriever.retrieve fts5 self query options now)).
    unfold Retriever.retrieve. cbv zeta.
    apply preserves_bind.
    { apply counts_frame. intros db. unfold Retriever.keywordSearch.
      destruct (Retriever.blank query); [split; reflexivity |].
      destruct (fts_rejects fts5 _); split; reflexivity. }
    intros kw. apply preserves_bind.
    { destruct (_ && _); [| auto with counts].
      destruct (Retriever.embeddingManager self) as [m |]; [| auto with counts].
      apply counts_frame. intros db. unfold Retriever.findSimilar.
      destruct (Nat.eqb _ _); split; reflexivity. }
    intros sem. apply preserves_bind.
    { apply counts_frame. intros db. split; reflexivity. }
    intros scoredClauses. unfold Retriever.logAccess. preserve_counts.
Qed.

(** X23.  Along every sequence of writes of the engine ([create], [get],
    [update], [invalidate], [reinforce], [processNewClause], the decay
    runner's [run], [reinforce] and [adjustConfidence], and [retrieve])
    started from the initial database, the counter
    [total_clauses_extracted] read with [parseInt] is the number of rows of
    the clause table: [create] bumps it exactly when its INSERT is
    accepted, and none of the others inserts a clause or touches the
    counter. *)
Theorem total_clauses_extracted_counts_the_rows (db : DB) :
  Engine.reachable db ->
  parseInt
    (match system_metadata db !! "total_clauses_extracted" with
     | Some s => s
     | None => "0"
     end)
  = Some (Z.of_nat (List.length (clauses db))).
Proof.
  intros H. change (counts_match db). induction H as [| db w now H IH].
  - reflexivity.
  - exact (counts_exec w now db IH).
Qed.


Lemma total_clauses_extracted_counts_the_rows_witness :
  Engine.reachable Scenario.home_db
  /\ parseInt
       (match system_metadata Scenario.home_db !! "total_clauses_extracted" with
        | Some s => s
        | None => "0"
        end)
     = Some (Z.of_nat (List.length (clauses Scenario.home_db))).
Proof.
  assert (H : Engine.reachable Scenario.home_db).
  { unfold Scenario.home_db. apply Engine.reach_step, Engine.reach_init. }
  split; [exact H |].
  exact (total_clauses_extracted_counts_the_rows Scenario.home_db H).
Defined.

End CounterFacts.

(** ** The MATCH expressions handed to the text index *)

Module QueryFacts.
Import Js Retriever ClauseSearch.

Section Characters.

Variable p : ascii -> bool.

Lemma string_forall_app s t :
  string_forall p (s ++ t) = string_forall p s && string_forall p t.
Proof.
  induction s as [| a s IH]; simpl; [reflexivity |].
  rewrite IH, andb_assoc. reflexivity.
Qed.

Lemma forall_trimStart s :
  string_forall p s = true -> string_forall p (trimStart s) = true.
Proof.
  induction s as [| a s IH]; simpl; [auto |].
  intros H. apply andb_true_iff in H. destruct H as (Ha & Hs).
  destruct (is_space a); [auto |]. simpl. rewrite Ha, Hs. reflexivity.
Qed.

Lemma forall_rev_string_aux s :
  forall acc,
    string_forall p s = true -> string_forall p acc = true ->
    string_forall p (rev_string_aux s acc) = true.
Proof.
  induction s as [| a s IH]; simpl; intros acc Hs Hacc; [exact Hacc |].
  apply andb_true_iff in Hs. destruct Hs as (Ha & Hs).
  apply IH; [exact Hs |]. simpl. rewrite Ha, Hacc. reflexivity.
Qed.

Lemma forall_trim s : string_forall p s = true -> string_forall p (trim s) = true.
Proof.
  intros H. unfold trim, rev_string.
  apply forall_rev_string_aux; [| reflexivity].
  apply forall_trimStart, forall_rev_string_aux; [| reflexivity].
  apply forall_trimStart, H.
Qed.

Lemma forall_collapse_ws_aux s :
  p " "%char = true ->
  forall b,
    string_forall p s = true -> string_forall p (collapse_ws_aux s b) = true.
Proof.
  intros Hsp. induction s as [| a s IH]; simpl; intros b H; [reflexivity |].
  apply andb_true_iff in H. destruct H as (Ha & Hs).
  destruct (is_space a).
  - destruct b; [apply IH; exact Hs |]. simpl. rewrite Hsp. apply IH, Hs.
  - simpl. rewrite Ha. apply IH, Hs.
Qed.

Lemma forall_split_char_aux c s :
  forall cur,
    string_forall p s = true -> string_forall p cur = true ->
    Forall (fun w => string_forall p w = true) (split_char_aux c s cur).
Proof.
  induction s as [| a s IH]; simpl; intros cur Hs Hcur.
  - constructor; [exact Hcur | constructor].
  - apply andb_true_iff in Hs. destruct Hs as (Ha & Hs).
    destruct (Ascii.eqb a c).
    + constructor; [exact Hcur |]. apply IH; [exact Hs | reflexivity].
    + apply IH; [exact Hs |]. rewrite string_forall_app, Hcur. simpl.
      rewrite Ha. reflexivity.
Qed.

Lemma forall_join sep ws :
  string_forall p sep = true ->
  Forall (fun w => string_forall p w = true) ws ->
  string_forall p (join sep ws) = true.
Proof.
  intros Hsep H. induction H as [| w ws Hw Hws IH]; [reflexivity |].
  cbn [join]. destruct ws as [| w' ws']; [exact Hw |].
  rewrite !string_forall_app, Hw, Hsep. exact IH.
Qed.

End Characters.

Lemma forall_replace_class cls by_ s :
  cls by_ = false ->
  string_forall (fun a => negb (cls a)) (replace_class cls by_ s) = true.
Proof.
  intros Hby. induction s as [| a s IH]; simpl; [reflexivity |].
  rewrite IH, andb_true_r. destruct (cls a) eqn:E; [rewrite Hby | rewrite E];
    reflexivity.
Qed.

Lemma string_forall_ext (p q : ascii -> bool) s :
  (forall a, p a = true -> q a = true) ->
  string_forall p s = true -> string_forall q s = true.
Proof.
  intros Hpq. induction s as [| a s IH]; simpl; [auto |].
  intros H. apply andb_true_iff in H. destruct H as (Ha & Hs).
  rewrite (Hpq a Ha), (IH Hs). reflexivity.
Qed.

(** X25.  [prepareFtsQuery] never hands the index an empty expression or
    one of the characters it strips (quotes, parentheses, braces, brackets,
    colon, caret, tilde, star): the result is clean text, with a single
    [*] appended when the query has at most one word of two or more
    characters. *)
Theorem prepareFtsQuery_strips_the_special_characters (query : string) :
  Retriever.prepareFtsQuery query <> ""
  /\ exists body,
       string_forall (fun a => negb (fts_special a)) body = true
       /\ (Retriever.prepareFtsQuery query = body
           \/ Retriever.prepareFtsQuery query = body ++ "*").
Proof.
  unfold Retriever.prepareFtsQuery. cbv zeta.
  change (fun a : ascii =>
            existsb (Ascii.eqb a)
              ["'"; ascii_of_nat 34; "("; ")"; "{"; "}"; "["; "]"; ":"; "*";
               "^"; "~"]%char) with fts_special.
  set (clean := trim (collapse_ws (replace_class fts_special " " query))).
  assert (Hclean : string_forall (fun a => negb (fts_special a)) clean = true).
  { unfold clean. apply forall_trim. unfold collapse_ws.
    apply forall_collapse_ws_aux; [reflexivity |].
    apply forall_replace_class. reflexivity. }
  assert (Hwords :
    Forall (fun w => string_forall (fun a => negb (fts_special a)) w = true
                     /\ 1 < String.length w)
      (List.filter (fun w => Nat.ltb 1 (String.length w))
         (split_char " " clean))).
  { apply List.Forall_forall. intros w Hw. apply filter_In in Hw.
    destruct Hw as (Hin & Hlen). split; [| apply Nat.ltb_lt; exact Hlen].
    pose proof (forall_split_char_aux (fun a => negb (fts_special a)) " "
                  clean "" Hclean eq_refl) as Hall.
    rewrite List.Forall_forall in Hall. apply Hall. exact Hin. }
  destruct (List.filter _ (split_char " " clean)) as [| w [| w' ws]].
  - split; [discriminate |]. exists "". split; [reflexivity |]. right.
    reflexivity.
  - inversion Hwords as [| ? ? (Hw & Hlen) _]; subst.
    split.
    + destruct w; [simpl in Hlen; lia | discriminate].
    + exists w. split; [exact Hw |]. right. reflexivity.
  - split.
    + inversion Hwords as [| ? ? (_ & Hlen) _]; subst.
      destruct w; [simpl in Hlen; lia | discriminate].
    + eexists. split; [| left; reflexivity].
      apply forall_join; [reflexivity |].
      eapply List.Forall_impl; [| exact Hwords]. intros x (Hx & _). exact Hx.
Qed.

(** X26.  The MATCH argument [search] builds is one quoted phrase: the
    text between the two enclosing double quotes contains no double quote
    (nor any hyphen, apostrophe or parenthesis), so the query text cannot
    close the phrase. *)
Theorem search_fts_query_is_one_quoted_phrase (query : string) :
  exists body,
    ClauseSearch.search_fts_query query
    = ClauseStore.dquote ++ body ++ ClauseStore.dquote
    /\ string_forall (fun a => negb (search_special a)) body = true
    /\ string_forall (fun a => negb (Ascii.eqb a (ascii_of_nat 34))) body
       = true.
Proof.
  unfold ClauseSearch.search_fts_query.
  change (fun a : ascii =>
            existsb (Ascii.eqb a) ["-"; "'"; ascii_of_nat 34; "("; ")"]%char)
    with search_special.
  eexists. split; [reflexivity |].
  assert (H : string_forall (fun a => negb (search_special a))
                (trim (replace_class search_special " " query)) = true).
  { apply forall_trim, forall_replace_class. reflexivity. }
  split; [exact H |].
  eapply string_forall_ext; [| exact H].
  intros a Ha. unfold search_special in Ha. cbn [existsb] in Ha.
  destruct (Ascii.eqb a (ascii_of_nat 34)); [| reflexivity].
  rewrite !orb_true_r in Ha. cbn in Ha. rewrite ?orb_true_r in Ha.
  discriminate.
Qed.

End QueryFacts.
